(** * Tabu search (Flogas0833/tabu-search): a shallow embedding in Rocq

    Covered sources:
    - src/tsp/abc.py                      BaseSolution (comparison, tabu_search)
    - src/tsp/neighborhoods/swap.py       Swap (swap, find_best_candidate,
                                          static_find_best_candidate)
    - src/ts/abc/multi_ob/solutions.py    MultiObjectiveSolution.tabu_search
    - src/ts/d2d/solutions.py             D2DPathSolution (__init__ timespan,
                                          drone_arrival_timestamps,
                                          technician_arrival_timestamps,
                                          drone_energy_consumption, distance,
                                          initial, import_problem)
    - src/ts/d2d/errors.py                ImportException

    Numbers: costs and distances of the TSP part are Python floats; here
    they are exact integers ([Z]), so sums and differences are exact.  The
    times, weights and energies of the D2D part are exact rationals ([Q]),
    and [D2DPathSolution.distance], which takes a square root, is over the
    reals ([R]). *)

From Stdlib Require Import ZArith QArith Lia Sorting.Sorted Reals Rgeom.
From stdpp Require Import base list gmap sets strings.

Open Scope Z_scope.

(* ================================================================= *)
(** ** Travelling-salesman path solutions and the [Swap] neighborhood *)
(* ================================================================= *)

Module Tsp.

(** A [PathSolution] as [Swap.swap] builds it:
    [self.cls(after=after, before=before, cost=cost)].  Node [v] is
    followed by [after[v]] and preceded by [before[v]] on the tour. *)
Record PathSolution := mkPathSolution {
  after : list nat;
  before : list nat;
  cost : Z;
}.

(** Python list indexing [l[i]]; the indices used below are nodes of the
    tour, all in range. *)
Definition get (l : list nat) (i : nat) : nat := l !!! i.

(** A move descriptor [(first_head, first_tail, second_head, second_tail)]. *)
Definition move := (nat * nat * nat * nat)%type.

Section Swap.

(** [solution.distances[a][b]] *)
Variable distances : nat -> nat -> Z.

(** [_first_length] and [_second_length] of the neighborhood *)
Variables first_length second_length : nat.

(** Modelled from the spec: the cost of a [PathSolution] by full
    recomputation from its encoding (the class [PathSolution] is not in
    src/): the sum over every node [v] of the weight of its outgoing edge
    [v -> after[v]]. *)
Fixpoint edges_from (v : nat) (succ : list nat) : Z :=
  match succ with
  | [] => 0
  | w :: succ' => distances v w + edges_from (S v) succ'
  end.

Definition tour_cost (succ : list nat) : Z := edges_from 0 succ.

(** Lines 42-43: if the second segment ends right before the first one,
    the two segments exchange their roles. *)
Definition normalize (s : PathSolution) (m : move) : move :=
  let '(first_head, first_tail, second_head, second_tail) := m in
  if Nat.eqb first_head (get (after s) second_tail)
  then (second_head, second_tail, first_head, first_tail)
  else (first_head, first_tail, second_head, second_tail).

(** Lines 45-82: the relinking and the incremental cost. *)
Definition relink (s : PathSolution) (m : move) : PathSolution :=
  let '(first_head, first_tail, second_head, second_tail) := m in
  let before0 := before s in
  let after0 := after s in
  if Nat.eqb first_tail (get before0 second_head) then
    let before_first := get before0 first_head in
    let after_second := get after0 second_tail in
    let c :=
      cost s
      + distances before_first second_head
      + distances second_tail first_head
      + distances first_tail after_second
      - distances before_first first_head
      - distances first_tail second_head
      - distances second_tail after_second in
    let after1 := <[before_first := second_head]> after0 in
    let before1 := <[second_head := before_first]> before0 in
    let after2 := <[second_tail := first_head]> after1 in
    let before2 := <[first_head := second_tail]> before1 in
    let after3 := <[first_tail := after_second]> after2 in
    let before3 := <[after_second := first_tail]> before2 in
    mkPathSolution after3 before3 c
  else
    let before_first := get before0 first_head in
    let before_second := get before0 second_head in
    let after_first := get after0 first_tail in
    let after_second := get after0 second_tail in
    let c :=
      cost s
      + distances before_first second_head + distances second_tail after_first
      + distances before_second first_head + distances first_tail after_second
      - distances before_first first_head - distances first_tail after_first
      - distances before_second second_head - distances second_tail after_second in
    let after1 := <[before_first := second_head]> after0 in
    let before1 := <[second_head := before_first]> before0 in
    let after2 := <[before_second := first_head]> after1 in
    let before2 := <[first_head := before_second]> before1 in
    let after3 := <[second_tail := after_first]> after2 in
    let before3 := <[after_first := second_tail]> before2 in
    let after4 := <[first_tail := after_second]> after3 in
    let before4 := <[after_second := first_tail]> before3 in
    mkPathSolution after4 before4 c.

(** [Swap.swap] *)
Definition swap (s : PathSolution) (m : move) : PathSolution :=
  relink s (normalize s m).

(** Python's [a % n] for [n > 0] (the sign follows the divisor). *)
Definition pymod (a n : Z) : Z := Z.modulo a n.

(** The move enumeration of [Swap.find_best_candidate] (lines 91-105), in
    generation order; [path] is [solution.path] and
    [dimension = len(path)]. *)
Definition swap_moves (path : list nat) : list move :=
  let dimension := Z.of_nat (length path) in
  let fl := Z.of_nat first_length in
  let sl := Z.of_nat second_length in
  let at_ (k : Z) : nat := path !!! Z.to_nat k in
  flat_map (fun first_head_index : nat =>
    let first_tail_index := pymod (Z.of_nat first_head_index + fl - 1) dimension in
    map (fun d : nat =>
      let second_head_index := pymod (first_tail_index + Z.of_nat d + 1) dimension in
      let second_tail_index := pymod (second_head_index + sl - 1) dimension in
      (at_ (Z.of_nat first_head_index), at_ first_tail_index,
       at_ second_head_index, at_ second_tail_index))
      (seq 0 (Z.to_nat (dimension - fl - sl + 1))))
    (seq 0 (length path)).

End Swap.

(** The linkage of the tour [path]: [after[path[j]] = path[(j+1) % n]] and
    [before[path[j]] = path[(j-1) % n]]. *)
Definition links_after (path : list nat) : list nat :=
  let n := length path in
  map (fun v => match list_find (fun w => w = v) path with
                | Some (j, _) => path !!! Nat.modulo (S j) n
                | None => 0%nat
                end) (seq 0 n).

Definition links_before (path : list nat) : list nat :=
  let n := length path in
  map (fun v => match list_find (fun w => w = v) path with
                | Some (j, _) => path !!! Nat.modulo (j + n - 1) n
                | None => 0%nat
                end) (seq 0 n).

(** Modelled from the spec: the tabu memory of [Swap] (class attributes
    [_tabu_list], [_tabu_set] and [_maxlen]).  Its insertion
    [add_to_tabu] belongs to [BasePathNeighborhood] in
    neighborhoods/base.py, which is not in src/; after the spec,
    "insertion appends to the sequence and adds to the set; insertion
    beyond the fixed capacity evicts the oldest entry from both views". *)
Record TabuMemory := mkTabu {
  tabu_list : list move;
  tabu_set : gset move;
}.

(** [Swap._maxlen] *)
Definition swap_maxlen : nat := 100.

(** [deque()] and [set()] at class creation *)
Definition empty_tabu : TabuMemory := mkTabu [] ∅.

Definition add_to_tabu (maxlen : nat) (t : TabuMemory) (x : move) : TabuMemory :=
  let l := tabu_list t ++ [x] in
  let st := {[x]} ∪ tabu_set t in
  if decide (maxlen < length l)%nat then
    match l with
    | y :: l' => mkTabu l' (st ∖ {[y]})
    | [] => mkTabu l st
    end
  else mkTabu l st.

(** The per-bundle search and the reduction of [find_best_candidate],
    for any evaluation [eval] of descriptors ([neighborhood.swap]). *)
Section Reduce.

Variable eval : move -> PathSolution.

(** [result is None or swapped < result]; [<] compares costs
    ([BaseSolution.__lt__]). *)
Definition better (swapped : PathSolution) (acc : option (PathSolution * move)) : bool :=
  match acc with
  | None => true
  | Some (r, _) => bool_decide (cost swapped < cost r)
  end.

(** The loop of [Swap.static_find_best_candidate] over [bundle.data]. *)
Definition static_best (data : list move) : option (PathSolution * move) :=
  fold_left (fun acc m =>
    let swapped := eval m in
    if better swapped acc then Some (swapped, m) else acc) data None.

(** Lines 107-115: the reduction of the per-bundle results, in the order
    [pool.map] returns them (the order of the bundles). *)
Definition reduce_results (rs : list (option (PathSolution * move)))
    : option (PathSolution * move) :=
  fold_left (fun acc r =>
    match r with
    | None => acc
    | Some (result_temp, min_swap_temp) =>
        if better result_temp acc then Some (result_temp, min_swap_temp) else acc
    end) rs None.

(** The spec's reference: a sequential evaluation of every enumerated
    move, keeping the minimum by cost, ties broken by enumeration order
    (the first minimal move wins). *)
Definition sequential_best (ms : list move) : option (PathSolution * move) :=
  match ms with
  | [] => None
  | m :: ms' =>
      Some (fold_left (fun best m' =>
              if bool_decide (cost (eval m') < cost best.1) then (eval m', m') else best)
            ms' (eval m, m))
  end.

End Reduce.

(** Lines 88-105: [concurrency] empty bundles, filled round-robin
    ([args[next(args_index_iteration)].data.append(arg)]). *)
Fixpoint deal (concurrency t : nat) (ms : list move) (args : list (list move))
    : list (list move) :=
  match ms with
  | [] => args
  | m :: ms' =>
      let j := Nat.modulo t concurrency in
      deal concurrency (S t) ms' (<[j := args !!! j ++ [m]]> args)
  end.

Definition shards (concurrency : nat) (ms : list move) : list (list move) :=
  deal concurrency 0 ms (replicate concurrency []).

Section FindBest.

Variable distances : nat -> nat -> Z.
Variables first_length second_length : nat.

(** [Swap.static_find_best_candidate] *)
Definition static_find_best_candidate (s : PathSolution) (data : list move)
    : option (PathSolution * move) :=
  static_best (swap distances s) data.

(** [Swap.find_best_candidate]: [concurrency] is [os.cpu_count() or 1],
    [path] is [solution.path]; the class-level tabu memory is threaded
    through.  Returns the candidate (or [None]) and the new tabu memory. *)
Definition find_best_candidate (concurrency : nat) (path : list nat) (s : PathSolution)
    (t : TabuMemory) : option PathSolution * TabuMemory :=
  let args := shards concurrency (swap_moves first_length second_length path) in
  match reduce_results (map (static_find_best_candidate s) args) with
  | Some (result, min_swap) => (Some result, add_to_tabu swap_maxlen t min_swap)
  | None => (None, t)
  end.

(** The move [find_best_candidate] adopts (its [min_swap]). *)
Definition find_best_move (concurrency : nat) (path : list nat) (s : PathSolution)
    : option (PathSolution * move) :=
  reduce_results (map (static_find_best_candidate s)
                    (shards concurrency (swap_moves first_length second_length path))).

End FindBest.

End Tsp.

(* ================================================================= *)
(** ** [BaseSolution]: comparisons and the single-objective driver *)
(* ================================================================= *)

Module Base.

Section Solutions.

(** A concrete solution class: its instances, their class and their cost
    ([BaseSolution.cost]). *)
Variable Sol : Type.
Variable class_of : Sol -> nat.
Variable cost : Sol -> Z.

(** [BaseSolution.__eq__]: [None] is [NotImplemented]. *)
Definition py_eq (self other : Sol) : option bool :=
  if Nat.eqb (class_of other) (class_of self)
  then Some (Z.eqb (cost self) (cost other))
  else None.

(** [BaseSolution.__lt__] *)
Definition py_lt (self other : Sol) : option bool :=
  if Nat.eqb (class_of other) (class_of self)
  then Some (Z.ltb (cost self) (cost other))
  else None.

(** Modelled from the spec: [__hash__] of the concrete solution classes
    ([BaseSolution.__hash__] raises [NotImplementedError]; the subclasses
    that define it are not in src/).  After the spec, set containers are
    "keyed by cost-derived hash/equality": the hash is a function of the
    cost. *)
Variable hash_of_cost : Z -> Z.
Definition py_hash (x : Sol) : Z := hash_of_cost (cost x).

(** [s.add(x)] on a Python set of solutions: [x] is added unless a member
    with the same hash compares equal to it. *)
Definition set_add (x : Sol) (st : list Sol) : list Sol :=
  if existsb (fun y => Z.eqb (py_hash y) (py_hash x) && default false (py_eq y x)) st
  then st
  else st ++ [x].

End Solutions.

Section Driver.

Variable Sol : Type.
Variable cost : Sol -> Z.

(** [a < b] between two solutions of the same class *)
Definition lt (a b : Sol) : bool := Z.ltb (cost a) (cost b).

(** Python's [min(a, b)]: [b] only if [b < a]. *)
Definition py_min (a b : Sol) : Sol := if lt b a then b else a.

(** The problem-supplied parts of [BaseSolution.tabu_search]:
    - [neighborhoods_count] is [len(current.get_neighborhoods())] of the
      initial solution;
    - [find_best_candidate j it c] is what the [j]-th neighborhood of [c]
      returns at iteration [it] (it may depend on the iteration through
      the pool and the tabu memory);
    - [shuffle it c] and [post_optimization c]. *)
Variable initial : Sol.
Variable neighborhoods_count : nat.
Variable find_best_candidate : nat -> nat -> Sol -> option Sol.
Variable shuffle : nat -> Sol -> Sol.
Variable post_optimization : Sol -> Sol.
Variable shuffle_after : Z.

Record DriverState := mkDriverState {
  result : Sol;
  current : Sol;
  last_improved : nat;
}.

(** The loop of lines 70-84, from iteration [iteration] on, for [fuel] more
    iterations.  [seen] is a ghost list that records the values of
    [current] compared with [result] by [result = min(result, current)];
    it does not influence the computation. *)
Fixpoint search_loop (fuel iteration : nat) (st : DriverState) (seen : list Sol)
    : DriverState * list Sol :=
  match fuel with
  | O => (st, seen)
  | S fuel' =>
      let j := Nat.modulo iteration neighborhoods_count in
      match find_best_candidate j iteration (current st) with
      | None => (st, seen)
      | Some best_candidate =>
          let '(current1, last_improved1) :=
            if lt best_candidate (current st)
            then (best_candidate, iteration)
            else (current st, last_improved st) in
          let result1 := py_min (result st) current1 in
          let current2 :=
            if Z.geb (Z.of_nat iteration - Z.of_nat last_improved1) shuffle_after
            then shuffle iteration current1
            else current1 in
          search_loop fuel' (S iteration) (mkDriverState result1 current2 last_improved1)
                      (seen ++ [current1])
      end
  end.

(** [BaseSolution.tabu_search]; [None] is the [StopIteration] raised by
    [next()] on the cycle over an empty neighborhood list. *)
Definition tabu_search (iterations_count : nat) : option Sol :=
  if Nat.eqb neighborhoods_count 0 && negb (Nat.eqb iterations_count 0) then None
  else
    let '(st, _) := search_loop iterations_count 0 (mkDriverState initial initial 0) [] in
    Some (post_optimization (result st)).

End Driver.

End Base.

(* ================================================================= *)
(** ** [MultiObjectiveSolution.tabu_search] *)
(* ================================================================= *)

Module MultiOb.

(** The prologue of lines 84-88: [Error msg] is the [ValueError] raised;
    otherwise the initial [candidate_costs] ([None] without plotting). *)
Inductive Prologue :=
| PrologueError (message : string)
| PrologueOk (candidate_costs : option (list (list Z))).

Definition prologue (initial_cost : list Z) (plot_pareto_front : bool) : Prologue :=
  let candidate_costs := if plot_pareto_front then Some [initial_cost] else None in
  if negb (Nat.eqb (length initial_cost) 2)
  then PrologueError "Cannot plot the Pareto front when the number of objectives is not 2"
  else PrologueOk candidate_costs.

Section Iteration.

Variable Sol : Type.

(** Modelled from the spec: [__eq__] and [__hash__] of multi-objective
    solutions (in [costs.py], not in src/) are abstract; a Python set of
    solutions is a list without two members that compare equal. *)
Variable eqb : Sol -> Sol -> bool.
Variable hash : Sol -> Z.

(** [s.add(x)] *)
Definition set_add (x : Sol) (st : list Sol) : list Sol :=
  if existsb (fun y => Z.eqb (hash y) (hash x) && eqb y x) st then st else st ++ [x].

(** [s.remove(x)] for a member [x] of [s]. *)
Fixpoint set_remove (x : Sol) (st : list Sol) : list Sol :=
  match st with
  | [] => []
  | y :: st' => if Z.eqb (hash y) (hash x) && eqb y x then st' else y :: set_remove x st'
  end.

(** [set(xs)] *)
Definition set_of (xs : list Sol) : list Sol := fold_left (fun st x => set_add x st) xs [].

(** The problem-supplied parts of an iteration:
    - [candidates_of it s] is [random.choice(s.get_neighborhoods())
      .find_best_candidates(...)] for the solution [s] at iteration [it];
    - [add_to_pareto_set c results] is the boolean returned by
      [c.add_to_pareto_set(results)] and the updated [results];
    - [max_propagation] is [None], or the function giving
      [max_propagation_value] from [results] (a constant for an [int]);
    - [sample it l k] is [random.sample(l, k)] at iteration [it];
    - [shuffle it s] is [s.shuffle(...)]. *)
Variable candidates_of : nat -> Sol -> list Sol.
Variable add_to_pareto_set : Sol -> list Sol -> bool * list Sol.
Variable propagation_predicate : Sol -> list Sol -> bool.
Variable max_propagation : option (list Sol -> Z).
Variable sample : nat -> list Sol -> Z -> list Sol.
Variable shuffle : nat -> Sol -> Sol.
Variable shuffle_after : Z.

Record MultiState := mkMultiState {
  results : list Sol;
  current : list Sol;
  last_improved : nat;
}.

(** Lines 103-104 for one candidate: [(propagate, results)]. *)
Definition stage_one (acc : list Sol * list Sol) (candidate : Sol) : list Sol * list Sol :=
  let '(propagate, results) := acc in
  let '(added, results') := add_to_pareto_set candidate results in
  if added || propagation_predicate candidate results'
  then (propagate ++ [candidate], results')
  else (propagate, results').

(** Lines 96-104: the staged candidates and the new [results]. *)
Definition stage (iteration : nat) (st : MultiState) : list Sol * list Sol :=
  fold_left (fun acc solution => fold_left stage_one (candidates_of iteration solution) acc)
    (current st) ([], results st).

(** Lines 106-108: [(current, last_improved)]. *)
Definition propagate_all (iteration : nat) (propagate current : list Sol)
    (last_improved : nat) : list Sol * nat :=
  fold_left (fun '(c, _) candidate => (set_add candidate c, iteration))
    propagate (current, last_improved).

(** Lines 110-115 *)
Definition trim (iteration : nat) (results current : list Sol) : list Sol :=
  match max_propagation with
  | None => current
  | Some f =>
      let remove_count := Z.of_nat (length current) - f results in
      if Z.ltb 0 remove_count
      then fold_left (fun c x => set_remove x c) (sample iteration current remove_count) current
      else current
  end.

(** Lines 117-118 *)
Definition stagnate (iteration last_improved : nat) (current : list Sol) : list Sol :=
  if Z.geb (Z.of_nat iteration - Z.of_nat last_improved) shuffle_after
  then set_of (map (shuffle iteration) current)
  else current.

(** One iteration of the loop of lines 92-118. *)
Definition iterate (iteration : nat) (st : MultiState) : MultiState :=
  let '(propagate, results1) := stage iteration st in
  let '(current1, last_improved1) :=
    propagate_all iteration propagate (current st) (last_improved st) in
  let current2 := trim iteration results1 current1 in
  mkMultiState results1 (stagnate iteration last_improved1 current2) last_improved1.

End Iteration.

End MultiOb.

(* ================================================================= *)
(** ** [D2DPathSolution]: [import_problem] and [initial] *)
(* ================================================================= *)

Module D2D.

Inductive DroneEnergyConsumptionMode := LINEAR | NON_LINEAR.

(** The exceptions [import_problem] can raise: [ImportException problem]
    (errors.py), or the exception of a failing [import_config] (the
    configuration classes are not in src/). *)
Inductive PyExc :=
| ImportException (problem : string)
| ConfigException.

(** Python's [repr] of a [str] ([unicode_repr] of CPython), for
    identifiers whose code points are those of [ascii], [0 .. 255]. *)
Definition sq : Ascii.ascii := Ascii.ascii_of_nat 39.
Definition dq : Ascii.ascii := Ascii.ascii_of_nat 34.
Definition backslash : Ascii.ascii := Ascii.ascii_of_nat 92.

Fixpoint string_has (c : Ascii.ascii) (s : string) : bool :=
  match s with
  | EmptyString => false
  | String d s' => Ascii.eqb c d || string_has c s'
  end.

(** [Py_hexdigits]: lower-case hexadecimal digits. *)
Definition hex_digit (n : nat) : Ascii.ascii :=
  Ascii.ascii_of_nat (if Nat.ltb n 10 then 48 + n else 87 + n).

(** One character of the body: the quote and the backslash get a
    backslash; tab, newline and carriage return their escapes; the other
    code points below 0x20, 0x7f and the non-printable Latin-1 code points
    (0x80 .. 0xa0 and the soft hyphen 0xad) become [\xhh]; every other
    character is kept. *)
Definition repr_char (quote c : Ascii.ascii) : string :=
  let n := Ascii.nat_of_ascii c in
  if Ascii.eqb c quote || Ascii.eqb c backslash then String backslash (String c EmptyString)
  else if Nat.eqb n 9 then "\t"
  else if Nat.eqb n 10 then "\n"
  else if Nat.eqb n 13 then "\r"
  else if Nat.ltb n 32 || Nat.eqb n 127 || (Nat.leb 128 n && Nat.leb n 160) || Nat.eqb n 173
  then String backslash (String (Ascii.ascii_of_nat 120) (String (hex_digit (n / 16))
         (String (hex_digit (n mod 16)) EmptyString)))
  else String c EmptyString.

Fixpoint repr_body (quote : Ascii.ascii) (s : string) : string :=
  match s with
  | EmptyString => EmptyString
  | String c s' => repr_char quote c +:+ repr_body quote s'
  end.

(** The quote is ["] when the string holds ['] and no ["], and [']
    otherwise. *)
Definition py_repr (s : string) : string :=
  let quote := if string_has sq s && negb (string_has dq s) then dq else sq in
  String quote (repr_body quote s +:+ String quote EmptyString).

(** [str(e)]: [ImportException.__init__] passes this message on. *)
Definition exception_message (e : PyExc) : option string :=
  match e with
  | ImportException problem => Some ("Unable to import problem " +:+ py_repr problem)
  | ConfigException => None
  end.

(** The class-level problem state of [D2DPathSolution].  Parsed floats
    are kept as the integers the patterns [\d+] read, or as the numbers
    the row parser returns. *)
Record ProblemState := mkProblemState {
  config_imported : bool;
  problem : option string;
  customers_count : Z;
  drones_count : Z;
  technicians_count : Z;
  drones_flight_duration : Z;
  x : list Z;
  y : list Z;
  demands : list Z;
  dronable : list bool;
  technician_service_time : list Z;
  drone_service_time : list Z;
  energy_mode : DroneEnergyConsumptionMode;
}.

(** One match of the row pattern of line 392:
    [x, y, demand, technician_only, technician_service_time, drone_service_time]. *)
Record Row := mkRow {
  row_x : Z;
  row_y : Z;
  row_demand : Z;
  row_technician_only : string;
  row_technician_service_time : Z;
  row_drone_service_time : Z;
}.

Definition is_digit (c : Ascii.ascii) : bool :=
  let n := Ascii.nat_of_ascii c in Nat.leb 48 n && Nat.leb n 57.

(** The longest prefix of digits ([(\d+)] is greedy). *)
Fixpoint digits_prefix (s : string) : string :=
  match s with
  | EmptyString => EmptyString
  | String c s' => if is_digit c then String c (digits_prefix s') else EmptyString
  end.

(** [int(ds)] (or [float(ds)]) of a string of digits *)
Fixpoint int_of_digits_acc (acc : Z) (s : string) : Z :=
  match s with
  | EmptyString => acc
  | String c s' => int_of_digits_acc (acc * 10 + Z.of_nat (Ascii.nat_of_ascii c - 48)) s'
  end.

Definition int_of_digits (s : string) : Z := int_of_digits_acc 0 s.

(** A match of [literal (\d+)] at the start of [data]. *)
Definition match_at (literal data : string) : option Z :=
  if String.prefix literal data
  then
    let ds := digits_prefix (String.substring (String.length literal)
                               (String.length data) data) in
    if String.eqb ds EmptyString then None else Some (int_of_digits ds)
  else None.

(** [re.search(r"literal (\d+)", data).group(1)], read as a number;
    [None] where [re.search] returns [None] (and [.group] raises). *)
Fixpoint re_search_int (literal data : string) : option Z :=
  match match_at literal data with
  | Some v => Some v
  | None =>
      match data with
      | EmptyString => None
      | String _ rest => re_search_int literal rest
      end
  end.

(** [join("problems", "d2d", "random_data", f"{problem}.txt")] *)
Definition problem_path (problem : string) : string :=
  "problems/d2d/random_data/" +:+ problem +:+ ".txt".

Section ImportProblem.

(** - [import_config_ok]: whether [import_config] (the [import_data] of
      the configuration classes, not in src/) returns normally;
    - [read_file]: the contents of a file, [None] where [open] raises;
    - [parse_rows]: the matches of the row pattern of line 392 with their
      fields converted by [float], [None] where a conversion raises. *)
Variable import_config_ok : bool.
Variable read_file : string -> option string.
Variable parse_rows : string -> option (list Row).

Definition set_config_imported (st : ProblemState) : ProblemState :=
  mkProblemState true (problem st) (customers_count st) (drones_count st)
    (technicians_count st) (drones_flight_duration st) (x st) (y st) (demands st)
    (dronable st) (technician_service_time st) (drone_service_time st) (energy_mode st).

Definition set_problem (p : string) (st : ProblemState) : ProblemState :=
  mkProblemState (config_imported st) (Some p) (customers_count st) (drones_count st)
    (technicians_count st) (drones_flight_duration st) (x st) (y st) (demands st)
    (dronable st) (technician_service_time st) (drone_service_time st) (energy_mode st).

Definition set_customers_count (v : Z) (st : ProblemState) : ProblemState :=
  mkProblemState (config_imported st) (problem st) v (drones_count st)
    (technicians_count st) (drones_flight_duration st) (x st) (y st) (demands st)
    (dronable st) (technician_service_time st) (drone_service_time st) (energy_mode st).

Definition set_drones_count (v : Z) (st : ProblemState) : ProblemState :=
  mkProblemState (config_imported st) (problem st) (customers_count st) v
    (technicians_count st) (drones_flight_duration st) (x st) (y st) (demands st)
    (dronable st) (technician_service_time st) (drone_service_time st) (energy_mode st).

Definition set_technicians_count (v : Z) (st : ProblemState) : ProblemState :=
  mkProblemState (config_imported st) (problem st) (customers_count st) (drones_count st)
    v (drones_flight_duration st) (x st) (y st) (demands st)
    (dronable st) (technician_service_time st) (drone_service_time st) (energy_mode st).

Definition set_drones_flight_duration (v : Z) (st : ProblemState) : ProblemState :=
  mkProblemState (config_imported st) (problem st) (customers_count st) (drones_count st)
    (technicians_count st) v (x st) (y st) (demands st)
    (dronable st) (technician_service_time st) (drone_service_time st) (energy_mode st).

(** Lines 401-408 *)
Definition set_rows (rows : list Row) (mode : DroneEnergyConsumptionMode)
    (st : ProblemState) : ProblemState :=
  mkProblemState (config_imported st) (problem st) (customers_count st) (drones_count st)
    (technicians_count st) (drones_flight_duration st)
    (0 :: map row_x rows) (0 :: map row_y rows) (0 :: map row_demand rows)
    (true :: map (fun r => String.eqb (row_technician_only r) "0") rows)
    (0 :: map row_technician_service_time rows) (0 :: map row_drone_service_time rows)
    mode.

(** [D2DPathSolution.import_problem]: the new class state and the
    exception raised, if any. *)
Definition import_problem (problem : string) (mode : DroneEnergyConsumptionMode)
    (st : ProblemState) : ProblemState * option PyExc :=
  let fail st := (st, Some (ImportException problem)) in
  let st0 :=
    if config_imported st then Some st
    else if import_config_ok then Some (set_config_imported st) else None in
  match st0 with
  | None => (st, Some ConfigException)
  | Some st0 =>
      match read_file (problem_path problem) with
      | None => fail st0
      | Some data =>
          let st1 := set_problem problem st0 in
          match re_search_int "Customers " data with
          | None => fail st1
          | Some cc =>
              let st2 := set_customers_count cc st1 in
              match re_search_int "number_drone " data with
              | None => fail st2
              | Some dc =>
                  let st3 := set_drones_count dc st2 in
                  match re_search_int "number_drone " data with
                  | None => fail st3
                  | Some tc =>
                      let st4 := set_technicians_count tc st3 in
                      match re_search_int "droneLimitationFightTime(s) " data with
                      | None => fail st4
                      | Some d =>
                          let st5 := set_drones_flight_duration d st4 in
                          match parse_rows data with
                          | None => fail st5
                          | Some rows => (set_rows rows mode st5, None)
                          end
                      end
                  end
              end
          end
      end
  end.

End ImportProblem.

(** The drone configuration fields [initial] reads ([DroneLinearConfig],
    [DroneNonlinearConfig], not in src/); the power functions take the
    carried weight. *)
Record DroneConfig := mkDroneConfig {
  altitude : Q;
  takeoff_speed : Q;
  landing_speed : Q;
  cruise_speed : Q;
  capacity : Q;
  battery : Q;
  takeoff_power : Q -> Q;
  landing_power : Q -> Q;
  cruise_power : Q -> Q;
}.

#[export] Instance Q_inhabited : Inhabited Q := populate 0%Q.

(** Python's [a / b] on floats: [ZeroDivisionError] when [b == 0]. *)
Definition py_div (a b : Q) : option Q :=
  if Qeq_bool b 0 then None else Some (a / b)%Q.

(** One step of [min(l, key=key)]: the best element so far and its key. *)
Definition min_by_step {A} (key : A -> option Q) (acc : option (A * Q)) (b : A)
    : option (A * Q) :=
  acc ≫= λ best : A * Q,
  kb ← key b;
  Some (if Qle_bool best.2 kb then best else (b, kb)).

(** [min(l, key=key)]: the first element of least key; [ValueError] on
    an empty [l]; the key is computed for every element. *)
Definition min_by {A} (key : A -> option Q) (l : list A) : option A :=
  match l with
  | [] => None
  | a :: l' =>
      ka ← key a;
      fold_left (min_by_step key) l' (Some (a, ka)) ≫= λ best : A * Q,
      Some best.1
  end.

(** [l[-1]] and [l[-2]] *)
Definition py_last (l : list nat) : option nat := last l.
Definition py_second_last (l : list nat) : option nat :=
  if Nat.ltb (length l) 2 then None else l !! (length l - 2)%nat.

(** [l.append(v)] on the last list of [ls] ([ls[-1].append(v)]). *)
Definition append_last (ls : list (list nat)) (v : nat) : list (list nat) :=
  match ls with
  | [] => []
  | _ => take (length ls - 1) ls ++ map (fun l => l ++ [v]) (drop (length ls - 1) ls)
  end.

(** [l.insert(-1, v)] *)
Definition insert_before_last (l : list nat) (v : nat) : list nat :=
  take (length l - 1) l ++ [v] ++ drop (length l - 1) l.

(** [s.remove(v)] on a set of integers *)
Definition remove_index (v : nat) (s : list nat) : list nat :=
  List.filter (fun e => negb (Nat.eqb e v)) s.

(** [set(e for e in l if cond(e))]; [cond] may raise.  CPython iterates a
    set of small non-negative integers in increasing order, and removals
    keep that order. *)
Fixpoint select (cond : nat -> option bool) (l : list nat) : option (list nat) :=
  match l with
  | [] => Some []
  | e :: l' =>
      cond e ≫= λ b : bool,
      rest ← select cond l';
      Some (if b then e :: rest else rest)
  end.

Section Initial.

(** The class state [initial] reads. *)
Variables customers_count drones_count technicians_count : nat.
Variable dronable : list bool.
Variable demands : list Q.
Variable drones_flight_duration : Q.
Variable energy_mode : DroneEnergyConsumptionMode.
Variables drone_linear_config drone_nonlinear_config : list DroneConfig.
(** [cls.distance]: the Euclidean distance of the coordinates. *)
Variable distance : nat -> nat -> Q.

(** Lines 302-307: [paths] is [technician_paths], [k] the position of
    [technician_iter] ([itertools.cycle] over the same list objects). *)
Fixpoint assign_technicians (fuel k : nat) (paths : list (list nat)) (todo : list nat)
    : option (list (list nat)) :=
  match todo with
  | [] => Some paths
  | _ :: _ =>
      match fuel with
      | O => None
      | S fuel' =>
          if Nat.eqb (length paths) 0 then None  (* StopIteration *)
          else
            let j := Nat.modulo k (length paths) in
            let path := paths !!! j in
            l ← py_last path;
            index ← min_by (fun e => Some (distance l e)) todo;
            assign_technicians fuel' (S k) (<[j := path ++ [index]]> paths)
              (remove_index index todo)
      end
  end.

Definition drone_config (drone : nat) : option DroneConfig :=
  match energy_mode with
  | LINEAR => drone_linear_config !! drone
  | NON_LINEAR => drone_nonlinear_config !! drone
  end.

(** Lines 318-352: [dpaths] is [drone_paths], [k] the position of
    [drone_iter], [tpaths] the technician paths. *)
Fixpoint assign_drones (fuel k : nat) (dpaths : list (list (list nat)))
    (weight time energy : list Q) (tpaths : list (list nat)) (todo : list nat)
    : option (list (list (list nat)) * list (list nat)) :=
  match todo with
  | [] => Some (dpaths, tpaths)
  | _ :: _ =>
      match fuel with
      | O => None
      | S fuel' =>
          if Nat.eqb drones_count 0 then None  (* StopIteration *)
          else
            let drone := Nat.modulo k drones_count in
            let paths := dpaths !!! drone in
            config ← drone_config drone;
            lastpath ← last paths;
            l ← py_last lastpath;
            index ← min_by (fun e => Some (distance l e)) todo;
            dw ← demands !! index;
            takeoff_dt ← py_div (altitude config) (takeoff_speed config);
            landing_dt ← py_div (altitude config) (landing_speed config);
            cruise_dt ← py_div (distance l index) (cruise_speed config);
            let w := weight !!! drone in
            let t := time !!! drone in
            let e := energy !!! drone in
            let dt := (takeoff_dt + landing_dt + cruise_dt)%Q in
            let de := (takeoff_dt * takeoff_power config w
                       + landing_dt * landing_power config w
                       + cruise_dt * cruise_power config w)%Q in
            if Qle_bool (w + dw) (capacity config)
               && Qle_bool (t + dt) drones_flight_duration
               && Qle_bool (e + de) (battery config)
            then
              assign_drones fuel' (S k) (<[drone := append_last paths index]> dpaths)
                (<[drone := (w + dw)%Q]> weight) (<[drone := (t + dt)%Q]> time)
                (<[drone := (e + de)%Q]> energy) tpaths (remove_index index todo)
            else
              let paths' := append_last paths 0 ++ [[0%nat]] in
              j ← min_by (fun j => d ← py_second_last (tpaths !!! j); Some (distance index d))
                    (seq 0 (length tpaths));
              assign_drones fuel' (S k) (<[drone := paths']> dpaths) weight time energy
                (<[j := insert_before_last (tpaths !!! j) index]> tpaths)
                (remove_index index todo)
      end
  end.

(** [D2DPathSolution.initial]: the drone paths and the technician paths
    passed to the constructor; [None] where an exception is raised. *)
Definition initial : option (list (list (list nat)) * list (list nat)) :=
  technician_only ← select (fun e => negb <$> dronable !! e) (seq 1 customers_count);
  tpaths ← assign_technicians (length technician_only) 0
             (replicate technicians_count [0%nat]) technician_only;
  let tpaths := map (fun p => p ++ [0%nat]) tpaths in
  dronable_set ← select (fun e => dronable !! e) (seq 1 customers_count);
  res ← assign_drones (length dronable_set) 0 (replicate drones_count [[0%nat]])
          (replicate drones_count 0%Q) (replicate drones_count 0%Q)
          (replicate drones_count 0%Q) tpaths dronable_set;
  let '(dpaths, tpaths) := res in
  Some (map (fun paths => append_last paths 0) dpaths,
        List.filter (fun p => Nat.ltb 2 (length p)) tpaths).

End Initial.

End D2D.

(* ================================================================= *)
(** ** Timestamps, energy and timespan of a [D2DPathSolution] *)
(* ================================================================= *)

Module D2DMetrics.
Import D2D.

Section Metrics.

Variable energy_mode : DroneEnergyConsumptionMode.
Variables drone_linear_config drone_nonlinear_config : list DroneConfig.
Variable distance : nat -> nat -> Q.
Variable demands : list Q.
Variable drone_service_time : list Q.

Fixpoint path_arrivals (config : DroneConfig) (vertical_time : Q) (path : list nat)
    (timestamp : Q) (last : option nat) : option (list Q * Q * option nat) :=
  match path with
  | [] => Some ([], timestamp, last)
  | index :: path' =>
      timestamp1 ← match last with
                   | None => Some timestamp
                   | Some l =>
                       c ← py_div (distance l index) (cruise_speed config);
                       Some (timestamp + (vertical_time + c))%Q
                   end;
      service ← drone_service_time !! index;
      r ← path_arrivals config vertical_time path' (timestamp1 + service)%Q (Some index);
      let '(arrival, timestamp2, last2) := r in
      Some (timestamp1 :: arrival, timestamp2, last2)
  end.

Fixpoint paths_arrivals (config : DroneConfig) (vertical_time : Q) (paths : list (list nat))
    (timestamp : Q) (last : option nat) : option (list (list Q)) :=
  match paths with
  | [] => Some []
  | path :: paths' =>
      r ← path_arrivals config vertical_time path timestamp last;
      let '(arrival, timestamp1, last1) := r in
      rest ← paths_arrivals config vertical_time paths' timestamp1 last1;
      Some (arrival :: rest)
  end.

Fixpoint drone_arrivals_from (drone : nat) (drone_paths : list (list (list nat)))
    : option (list (list (list Q))) :=
  match drone_paths with
  | [] => Some []
  | paths :: drone_paths' =>
      config ← drone_config energy_mode drone_linear_config drone_nonlinear_config drone;
      a ← py_div 1 (takeoff_speed config);
      b ← py_div 1 (landing_speed config);
      let vertical_time := (altitude config * (a + b))%Q in
      r ← paths_arrivals config vertical_time paths 0 None;
      rest ← drone_arrivals_from (S drone) drone_paths';
      Some (r :: rest)
  end.

Definition drone_arrival_timestamps (drone_paths : list (list (list nat)))
    : option (list (list (list Q))) :=
  drone_arrivals_from 0 drone_paths.

Fixpoint trip_consumption (config : DroneConfig) (takeoff_time landing_time : Q)
    (last : nat) (rest : list nat) (weight acc : Q) : option (list Q) :=
  match rest with
  | [] => Some []
  | index :: rest' =>
      dl ← demands !! last;
      let weight1 := (weight + dl)%Q in
      cruise_time ← py_div (distance last index) (cruise_speed config);
      let energy := (takeoff_time * takeoff_power config weight1
                     + landing_time * landing_power config weight1
                     + cruise_time * cruise_power config weight1)%Q in
      r ← trip_consumption config takeoff_time landing_time index rest' weight1 (acc + energy);
      Some ((acc + energy)%Q :: r)
  end.

Definition path_consumption (config : DroneConfig) (takeoff_time landing_time : Q)
    (path : list nat) : option (list Q) :=
  match path with
  | [] => Some [0%Q]
  | first :: rest =>
      r ← trip_consumption config takeoff_time landing_time first rest 0 0;
      Some (0%Q :: r)
  end.

Fixpoint drone_energy_from (drone : nat) (drone_paths : list (list (list nat)))
    : option (list (list (list Q))) :=
  match drone_paths with
  | [] => Some []
  | paths :: drone_paths' =>
      config ← drone_config energy_mode drone_linear_config drone_nonlinear_config drone;
      takeoff_time ← py_div (altitude config) (takeoff_speed config);
      landing_time ← py_div (altitude config) (landing_speed config);
      r ← mapM (path_consumption config takeoff_time landing_time) paths;
      rest ← drone_energy_from (S drone) drone_paths';
      Some (r :: rest)
  end.

Definition drone_energy_consumption (drone_paths : list (list (list nat)))
    : option (list (list (list Q))) :=
  drone_energy_from 0 drone_paths.

End Metrics.

Definition py_max (a b : Q) : Q := if Qle_bool b a then a else b.

Definition py_max_list (l : list Q) : option Q :=
  match l with
  | [] => None
  | a :: l' => Some (fold_left py_max l' a)
  end.

Fixpoint timespan_drones (timespan : Q) (dts : list (list (list Q))) : option Q :=
  match dts with
  | [] => Some timespan
  | paths :: dts' =>
      ends ← mapM last paths;
      m ← py_max_list ends;
      timespan_drones (py_max timespan m) dts'
  end.

Fixpoint timespan_technicians (timespan : Q) (tts : list (list Q)) : option Q :=
  match tts with
  | [] => Some timespan
  | path :: tts' =>
      e ← last path;
      timespan_technicians (py_max timespan e) tts'
  end.

Definition init_timespan (dts : list (list (list Q))) (tts : list (list Q)) : option Q :=
  t ← timespan_drones 0 dts;
  timespan_technicians t tts.

End D2DMetrics.

(* ================================================================= *)
(** ** [D2DPathSolution.distance] *)
(* ================================================================= *)

Module D2DGeometry.

Definition distance (x y : list R) (first second : nat) : option R :=
  xf ← x !! first; xs ← x !! second;
  yf ← y !! first; ys ← y !! second;
  Some (sqrt ((xf - xs) ^ 2 + (yf - ys) ^ 2))%R.

End D2DGeometry.

(* ================================================================= *)
(** ** [D2DPathSolution.technician_arrival_timestamps] *)
(* ================================================================= *)

Module D2DTechnicians.
Import D2D.

(** The truck configuration fields read by [technician_arrival_timestamps]
    ([TruckConfig], not in src/). *)
Record TruckConfig := mkTruckConfig {
  maximum_velocity : Q;
  coefficients : list Q;
}.

(** Python's [min(a, b)]: [b] only if [b < a]. *)
Definition py_min (a b : Q) : Q := if Qle_bool a b then a else b.

Section Technicians.

Variable distance : nat -> nat -> Q.
Variable technician_service_time : list Q.

(** The [while distance > 0] loop of lines 149-157 on one leg.  [vs] is
    what is left of [maximum_velocity_iter], [w] is
    [current_time_within_window], [v] is [current_velocity], [d] the
    distance still to drive and [t] the timestamp; the result is the new
    [vs], [w], [v] and [t].  [None] is the [StopIteration] of [next()] on
    an exhausted iterator or a [ZeroDivisionError]; [fuel] bounds the
    iterations (see [drive_fuel] below for why [S (S (length vs))] is
    enough). *)
Fixpoint drive (fuel : nat) (vs : list Q) (w v d t : Q) : option (list Q * Q * Q * Q) :=
  match fuel with
  | O => None
  | S fuel' =>
      if Qle_bool d 0 then Some (vs, w, v, t)
      else
        c ← py_div d v;
        let time_shift := py_min (3600 - w) c in
        let t1 := (t + time_shift)%Q in
        let w1 := (w + time_shift)%Q in
        if Qle_bool 3600 w1 then
          match vs with
          | [] => None
          | v1 :: vs1 => drive fuel' vs1 0 v1 (d - time_shift * v1)%Q t1
          end
        else drive fuel' vs w1 v (d - time_shift * v)%Q t1
  end.

(** The loop of lines 147-161 over the indices of one path. *)
Fixpoint path_arrivals (vs : list Q) (w v t : Q) (last : option nat) (path : list nat)
    : option (list Q * list Q) :=
  match path with
  | [] => Some ([], vs)
  | index :: path' =>
      r ← match last with
          | None => Some (vs, w, v, t)
          | Some l => drive (S (S (length vs))) vs w v (distance l index) t
          end;
      let '(vs1, w1, v1, t1) := r in
      service ← technician_service_time !! index;
      rest ← path_arrivals vs1 w1 v1 (t1 + service)%Q (Some index) path';
      let '(arrival, vs2) := rest in
      Some (t1 :: arrival, vs2)
  end.

(** The loop of lines 141-163 over the technician paths; every path
    starts with [next(maximum_velocity_iter)] on the one iterator shared
    by all paths. *)
Fixpoint arrivals_from (vs : list Q) (technician_paths : list (list nat))
    : option (list (list Q)) :=
  match technician_paths with
  | [] => Some []
  | path :: paths' =>
      match vs with
      | [] => None
      | v :: vs' =>
          r ← path_arrivals vs' 0 v 0 None path;
          let '(arrival, vs1) := r in
          rest ← arrivals_from vs1 paths';
          Some (arrival :: rest)
      end
  end.

(** [D2DPathSolution.technician_arrival_timestamps] *)
Definition technician_arrival_timestamps (config : TruckConfig)
    (technician_paths : list (list nat)) : option (list (list Q)) :=
  arrivals_from (map (fun e => maximum_velocity config * e)%Q (coefficients config))
    technician_paths.

End Technicians.

End D2DTechnicians.

(* ================================================================= *)
(** ** Proofs: incremental cost of [Swap.swap] *)
(* ================================================================= *)

Module SwapProofs.
Import Tsp.

Section Tour.

Variable distances : nat -> nat -> Z.

Lemma edges_from_insert (v : nat) (succ : list nat) (k w : nat) :
  (k < length succ)%nat ->
  edges_from distances v (<[k := w]> succ)
  = edges_from distances v succ - distances (v + k)%nat (succ !!! k)
    + distances (v + k)%nat w.
Proof.
  revert v k. induction succ as [|x succ IH]; intros v k Hk; simpl in *; [lia|].
  destruct k as [|k]; simpl.
  - rewrite Nat.add_0_r. lia.
  - rewrite IH by lia. replace (S v + k)%nat with (v + S k)%nat by lia. lia.
Qed.

Lemma tour_cost_insert (succ : list nat) (k w : nat) :
  (k < length succ)%nat ->
  tour_cost distances (<[k := w]> succ)
  = tour_cost distances succ - distances k (succ !!! k) + distances k w.
Proof. intros Hk. unfold tour_cost. rewrite edges_from_insert by exact Hk. reflexivity. Qed.

(** The tour [path] visits every node [0 .. n-1] once, and the solution's
    links are those of [path]. *)
Variable path : list nat.
Let n := length path.
Hypothesis Hnodup : NoDup path.
Hypothesis Hnodes : Forall (fun v => v < n)%nat path.

(** [P z] is the node at position [z] of the cyclic tour. *)
Let P (z : Z) : nat := path !!! Z.to_nat (z mod Z.of_nat n).

Lemma pos_lt (z : Z) : (0 < n)%nat -> (Z.to_nat (z mod Z.of_nat n) < n)%nat.
Proof.
  intros Hn. pose proof (Z.mod_pos_bound z (Z.of_nat n) ltac:(lia)). lia.
Qed.

Lemma P_lookup (z : Z) : (0 < n)%nat -> path !! Z.to_nat (z mod Z.of_nat n) = Some (P z).
Proof.
  intros Hn. unfold P. apply list_lookup_lookup_total_lt. apply pos_lt, Hn.
Qed.

Lemma P_lt (z : Z) : (0 < n)%nat -> (P z < n)%nat.
Proof.
  intros Hn. pose proof (P_lookup z Hn) as Hl.
  rewrite Forall_lookup in Hnodes. exact (Hnodes _ _ Hl).
Qed.

Lemma P_inj (a b : Z) : (0 < n)%nat -> P a = P b -> a mod Z.of_nat n = b mod Z.of_nat n.
Proof.
  intros Hn Hab.
  pose proof (P_lookup a Hn) as Ha. pose proof (P_lookup b Hn) as Hb.
  rewrite Hab in Ha.
  pose proof (NoDup_lookup _ _ _ _ Hnodup Ha Hb) as Heq.
  pose proof (Z.mod_pos_bound a (Z.of_nat n) ltac:(lia)).
  pose proof (Z.mod_pos_bound b (Z.of_nat n) ltac:(lia)).
  lia.
Qed.

Lemma P_add_n (z : Z) : P (z + Z.of_nat n) = P z.
Proof.
  unfold P. replace (z + Z.of_nat n) with (z + 1 * Z.of_nat n) by lia.
  rewrite Z_mod_plus_full. reflexivity.
Qed.

Lemma P_offsets_neq (i a b : Z) :
  (0 <= a < Z.of_nat n) -> (0 <= b < Z.of_nat n) -> a <> b -> P (i + a) <> P (i + b).
Proof.
  intros Ha Hb Hab Heq. apply P_inj in Heq; [|lia].
  rewrite !Z.mod_eq in Heq by lia.
  set (q1 := (i + a) / Z.of_nat n) in Heq. set (q2 := (i + b) / Z.of_nat n) in Heq.
  assert (Hd : b - a = Z.of_nat n * (q2 - q1)) by lia.
  clearbody q1 q2.
  destruct (Z.lt_trichotomy (q2 - q1) 0) as [Hq|[Hq|Hq]]; nia.
Qed.

Variable s : PathSolution.
Hypothesis Hafter : after s = links_after path.
Hypothesis Hbefore : before s = links_before path.
Hypothesis Hcost : cost s = tour_cost distances (after s).

Lemma position_of (j : nat) : (j < n)%nat ->
  list_find (fun w => w = path !!! j) path = Some (j, path !!! j).
Proof.
  intros Hj. apply list_find_Some. split; [|split].
  - apply list_lookup_lookup_total_lt. exact Hj.
  - reflexivity.
  - intros j' y Hy Hlt Heq. subst y.
    pose proof (NoDup_lookup _ _ _ _ Hnodup Hy
      (list_lookup_lookup_total_lt path j Hj)). lia.
Qed.

Lemma links_after_at (j : nat) : (j < n)%nat ->
  get (links_after path) (path !!! j) = path !!! Nat.modulo (S j) n.
Proof.
  intros Hj. unfold get, links_after. fold n.
  assert (Hv : (path !!! j < n)%nat).
  { rewrite Forall_lookup in Hnodes. apply (Hnodes j).
    apply list_lookup_lookup_total_lt. exact Hj. }
  rewrite list_lookup_total_alt, list_lookup_fmap, lookup_seq_lt by exact Hv.
  simpl. rewrite position_of by exact Hj. reflexivity.
Qed.

Lemma links_before_at (j : nat) : (j < n)%nat ->
  get (links_before path) (path !!! j) = path !!! Nat.modulo (j + n - 1) n.
Proof.
  intros Hj. unfold get, links_before. fold n.
  assert (Hv : (path !!! j < n)%nat).
  { rewrite Forall_lookup in Hnodes. apply (Hnodes j).
    apply list_lookup_lookup_total_lt. exact Hj. }
  rewrite list_lookup_total_alt, list_lookup_fmap, lookup_seq_lt by exact Hv.
  simpl. rewrite position_of by exact Hj. reflexivity.
Qed.

Lemma n_pos_of (k : Z) : 0 <= k < Z.of_nat n -> (0 < n)%nat.
Proof. lia. Qed.

Lemma after_len : length (after s) = n.
Proof. rewrite Hafter. unfold links_after. rewrite length_map, length_seq. reflexivity. Qed.

Lemma P_lt_after (z : Z) : (0 < n)%nat -> (P z < length (after s))%nat.
Proof. intros Hn. rewrite after_len. apply P_lt, Hn. Qed.

Lemma nat_of_pos_succ (z : Z) : (0 < n)%nat ->
  Nat.modulo (S (Z.to_nat (z mod Z.of_nat n))) n = Z.to_nat ((z + 1) mod Z.of_nat n).
Proof.
  intros Hn. pose proof (Z.mod_pos_bound z (Z.of_nat n) ltac:(lia)) as Hb.
  apply Nat2Z.inj. rewrite Nat2Z.inj_mod, Z2Nat.id
    by (apply Z.mod_pos_bound; lia).
  rewrite Nat2Z.inj_succ, Z2Nat.id by lia.
  rewrite <- Z.add_1_r, Zplus_mod_idemp_l. reflexivity.
Qed.

Lemma nat_of_pos_pred (z : Z) : (0 < n)%nat ->
  Nat.modulo (Z.to_nat (z mod Z.of_nat n) + n - 1) n = Z.to_nat ((z - 1) mod Z.of_nat n).
Proof.
  intros Hn. pose proof (Z.mod_pos_bound z (Z.of_nat n) ltac:(lia)) as Hb.
  apply Nat2Z.inj. rewrite Nat2Z.inj_mod, Z2Nat.id
    by (apply Z.mod_pos_bound; lia).
  rewrite Nat2Z.inj_sub by lia. rewrite Nat2Z.inj_add, Z2Nat.id by lia.
  replace (z mod Z.of_nat n + Z.of_nat n - Z.of_nat 1)
    with (z mod Z.of_nat n + (Z.of_nat n - 1)) by lia.
  rewrite Zplus_mod_idemp_l.
  replace (z + (Z.of_nat n - 1)) with ((z - 1) + 1 * Z.of_nat n) by lia.
  rewrite Z_mod_plus_full. reflexivity.
Qed.

(** The links of the tour, read at position [z]. *)
Lemma after_P (z : Z) : (0 < n)%nat -> get (after s) (P z) = P (z + 1).
Proof.
  intros Hn. unfold P at 1. rewrite Hafter, links_after_at by (apply pos_lt, Hn).
  unfold P. f_equal. apply nat_of_pos_succ, Hn.
Qed.

Lemma before_P (z : Z) : (0 < n)%nat -> get (before s) (P z) = P (z - 1).
Proof.
  intros Hn. unfold P at 1. rewrite Hbefore, links_before_at by (apply pos_lt, Hn).
  unfold P. f_equal. apply nat_of_pos_pred, Hn.
Qed.

Lemma P_shift (z k : Z) : P (z + k) = P (z + (k + Z.of_nat n)).
Proof. rewrite Z.add_assoc, P_add_n. reflexivity. Qed.

Ltac insert_ne := rewrite list_lookup_total_insert_ne by (apply P_offsets_neq; lia).

(** Case (a) of [Swap.swap]: adjacent segments, relinked by the 3-edge
    formula. *)
Lemma relink_adjacent (i a b : Z) :
  1 <= a -> 1 <= b -> a + b < Z.of_nat n ->
  let r := relink distances s (P i, P (i + (a - 1)), P (i + a), P (i + (a + b - 1))) in
  cost r = tour_cost distances (after r).
Proof.
  intros Ha Hb Hab r. assert (Hn : (0 < n)%nat) by lia.
  assert (E0 : get (before s) (P (i + a)) = P (i + (a - 1))).
  { rewrite before_P by exact Hn. f_equal. lia. }
  assert (E1 : get (before s) (P i) = P (i + (Z.of_nat n - 1))).
  { rewrite before_P by exact Hn. rewrite <- (P_add_n (i - 1)). f_equal. lia. }
  assert (E2 : get (after s) (P (i + (a + b - 1))) = P (i + (a + b))).
  { rewrite after_P by exact Hn. f_equal. lia. }
  subst r. unfold relink. cbv beta iota zeta.
  rewrite E0, Nat.eqb_refl, E1, E2. cbn [cost after].
  rewrite !tour_cost_insert by (rewrite ?length_insert; apply P_lt_after, Hn).
  insert_ne. insert_ne. insert_ne.
  unfold get in *. rewrite <- (Z.add_0_r i) in E1 at 1.
  replace (P i) with (P (i + 0)) by (rewrite Z.add_0_r; reflexivity).
  assert (F1 : after s !!! P (i + (Z.of_nat n - 1)) = P (i + 0)).
  { pose proof (after_P (i + (Z.of_nat n - 1)) Hn) as H. unfold get in H.
    rewrite H, <- (P_add_n (i + 0)). f_equal. lia. }
  assert (F2 : after s !!! P (i + (a - 1)) = P (i + a)).
  { pose proof (after_P (i + (a - 1)) Hn) as H. unfold get in H.
    rewrite H. f_equal. lia. }
  rewrite F1, F2, E2, Hcost. lia.
Qed.

(** Case (b) of [Swap.swap]: separated segments, relinked by the 4-edge
    formula. *)
Lemma relink_separate (i a b d : Z) :
  1 <= a -> 1 <= b -> 1 <= d -> a + d + b < Z.of_nat n ->
  let r := relink distances s
             (P i, P (i + (a - 1)), P (i + (a + d)), P (i + (a + d + b - 1))) in
  cost r = tour_cost distances (after r).
Proof.
  intros Ha Hb Hd Hab r. assert (Hn : (0 < n)%nat) by lia.
  assert (E0 : get (before s) (P (i + (a + d))) = P (i + (a + d - 1))).
  { rewrite before_P by exact Hn. f_equal. lia. }
  assert (Hne : P (i + (a - 1)) <> P (i + (a + d - 1))) by (apply P_offsets_neq; lia).
  assert (E1 : get (before s) (P i) = P (i + (Z.of_nat n - 1))).
  { rewrite before_P by exact Hn. rewrite <- (P_add_n (i - 1)). f_equal. lia. }
  assert (E2 : get (after s) (P (i + (a + d + b - 1))) = P (i + (a + d + b))).
  { rewrite after_P by exact Hn. f_equal. lia. }
  assert (E3 : get (after s) (P (i + (a - 1))) = P (i + a)).
  { rewrite after_P by exact Hn. f_equal. lia. }
  subst r. unfold relink. cbv beta iota zeta.
  rewrite E0. apply Nat.eqb_neq in Hne. rewrite Hne, E1, E2, E3. cbn [cost after].
  rewrite !tour_cost_insert by (rewrite ?length_insert; apply P_lt_after, Hn).
  insert_ne. insert_ne. insert_ne. insert_ne. insert_ne. insert_ne.
  unfold get in *.
  replace (P i) with (P (i + 0)) by (rewrite Z.add_0_r; reflexivity).
  assert (F1 : after s !!! P (i + (Z.of_nat n - 1)) = P (i + 0)).
  { pose proof (after_P (i + (Z.of_nat n - 1)) Hn) as H. unfold get in H.
    rewrite H, <- (P_add_n (i + 0)). f_equal. lia. }
  assert (F2 : after s !!! P (i + (a + d - 1)) = P (i + (a + d))).
  { pose proof (after_P (i + (a + d - 1)) Hn) as H. unfold get in H.
    rewrite H. f_equal. lia. }
  rewrite F1, F2, E2, E3, Hcost. lia.
Qed.

Variables first_length second_length : nat.

(** Every enumerated descriptor is made of the nodes at positions
    [i], [i + fl - 1], [i + fl + d] and [i + fl + d + sl - 1] of the tour. *)
Lemma swap_moves_shape (m : move) :
  In m (swap_moves first_length second_length path) ->
  exists i d : Z,
    0 <= i < Z.of_nat n /\
    0 <= d <= Z.of_nat n - Z.of_nat first_length - Z.of_nat second_length /\
    m = (P i, P (i + (Z.of_nat first_length - 1)),
         P (i + (Z.of_nat first_length + d)),
         P (i + (Z.of_nat first_length + d + Z.of_nat second_length - 1))).
Proof.
  unfold swap_moves. fold n. intros Hm.
  apply in_flat_map in Hm as [x [Hx Hm]]. apply in_map_iff in Hm as [d [<- Hd]].
  apply in_seq in Hx, Hd.
  exists (Z.of_nat x), (Z.of_nat d). split; [lia|]. split; [lia|].
  unfold pymod, P.
  assert (Hn : 0 < Z.of_nat n) by lia.
  set (A := Z.of_nat x + Z.of_nat first_length - 1).
  f_equal; [f_equal; [f_equal|] |].
  - rewrite Z.mod_small by lia. reflexivity.
  - do 3 f_equal. subst A. lia.
  - do 2 f_equal.
    replace (A mod Z.of_nat n + Z.of_nat d + 1)
      with (A mod Z.of_nat n + (Z.of_nat d + 1)) by ring.
    rewrite Zplus_mod_idemp_l. f_equal. subst A. lia.
  - do 2 f_equal.
    set (B := (A mod Z.of_nat n + Z.of_nat d + 1) mod Z.of_nat n).
    replace (B + Z.of_nat second_length - 1) with (B + (Z.of_nat second_length - 1))
      by ring.
    subst B. rewrite Zplus_mod_idemp_l.
    replace (A mod Z.of_nat n + Z.of_nat d + 1 + (Z.of_nat second_length - 1))
      with (A mod Z.of_nat n + (Z.of_nat d + Z.of_nat second_length)) by ring.
    rewrite Zplus_mod_idemp_l. f_equal. subst A. lia.
Qed.

(** Incremental cost of every enumerated move, when both segments are
    non-empty and together leave at least one node out. *)
Lemma swap_enumerated_ok (m : move) :
  (1 <= first_length)%nat -> (1 <= second_length)%nat ->
  (first_length + second_length < n)%nat ->
  In m (swap_moves first_length second_length path) ->
  cost (swap distances s m) = tour_cost distances (after (swap distances s m)).
Proof.
  intros Hfl Hsl Hlen Hm.
  destruct (swap_moves_shape m Hm) as (i & d & Hi & Hd & ->).
  assert (Hn : (0 < n)%nat) by lia.
  set (fl := Z.of_nat first_length) in *. set (sl := Z.of_nat second_length) in *.
  assert (Hfl' : 1 <= fl) by lia. assert (Hsl' : 1 <= sl) by lia.
  assert (Hlen' : fl + sl < Z.of_nat n) by lia.
  clearbody fl sl.
  unfold swap, normalize. cbv beta iota zeta.
  rewrite after_P by exact Hn.
  destruct (Z.eq_dec d (Z.of_nat n - fl - sl)) as [Hw|Hw].
  - (* the second segment ends right before the first: roles exchanged *)
    assert (Hq : P (i + (fl + d + sl - 1) + 1) = P i).
    { rewrite <- (P_add_n i). f_equal. lia. }
    rewrite Hq, Nat.eqb_refl.
    set (i' := i + (fl + d)).
    replace (P (i + (fl + d))) with (P i') by reflexivity.
    replace (P (i + (fl + d + sl - 1))) with (P (i' + (sl - 1))) by (f_equal; subst i'; lia).
    replace (P i) with (P (i' + sl))
      by (rewrite <- (P_add_n i); f_equal; subst i'; lia).
    replace (P (i + (fl - 1))) with (P (i' + (sl + fl - 1)))
      by (rewrite <- (P_add_n (i + (fl - 1))); f_equal; subst i'; lia).
    apply relink_adjacent; lia.
  - assert (Hq : P (i + 0) <> P (i + (fl + d + sl - 1) + 1)).
    { rewrite <- Z.add_assoc. apply P_offsets_neq; lia. }
    rewrite Z.add_0_r in Hq. apply Nat.eqb_neq in Hq. rewrite Hq.
    destruct (Z.eq_dec d 0) as [H0|H0].
    + subst d.
      replace (P (i + (fl + 0))) with (P (i + fl)) by (f_equal; lia).
      replace (P (i + (fl + 0 + sl - 1))) with (P (i + (fl + sl - 1))) by (f_equal; lia).
      apply relink_adjacent; lia.
    + replace (P (i + (fl + d + sl - 1))) with (P (i + (fl + d + sl - 1))) by reflexivity.
      apply relink_separate; lia.
Qed.

(** When the two segments cover the whole tour, every enumerated
    descriptor exchanges its roles (lines 42-43) and then takes the
    adjacent branch (lines 45-61): two distinct nodes [u] and [v] get the
    same successor, and the incremental cost is off from the recomputed
    one by [distances u h - distances u w], where [h] is the old successor
    of [v] and [w] the new successor of [u]. *)
Lemma swap_cover_links (m : move) :
  (1 <= first_length)%nat -> (1 <= second_length)%nat ->
  (first_length + second_length = n)%nat ->
  In m (swap_moves first_length second_length path) ->
  let r := swap distances s m in
  exists u v : nat, u <> v /\ (u < n)%nat /\ (v < n)%nat /\
    get (after r) u = get (after r) v /\
    cost r - tour_cost distances (after r)
    = distances u (get (after s) v) - distances u (get (after r) u).
Proof.
  intros Hfl Hsl Hlen Hm r.
  destruct (swap_moves_shape m Hm) as (i & d & Hi & Hd & ->).
  assert (Hn : (0 < n)%nat) by lia.
  set (fl := Z.of_nat first_length) in *. set (sl := Z.of_nat second_length) in *.
  assert (Hfl' : 1 <= fl) by lia. assert (Hsl' : 1 <= sl) by lia.
  assert (Hlen' : fl + sl = Z.of_nat n) by lia.
  assert (Hd0 : d = 0) by lia. subst d. clearbody fl sl.
  assert (A1 : get (after s) (P (i + (fl + 0 + sl - 1))) = P i).
  { rewrite after_P by exact Hn. rewrite <- (P_add_n i). f_equal. lia. }
  assert (A2 : get (before s) (P i) = P (i + (fl + 0 + sl - 1))).
  { rewrite before_P by exact Hn. rewrite <- (P_add_n (i - 1)). f_equal. lia. }
  assert (A3 : get (before s) (P (i + (fl + 0))) = P (i + (fl - 1))).
  { rewrite before_P by exact Hn. f_equal. lia. }
  assert (A4 : get (after s) (P (i + (fl - 1))) = P (i + (fl + 0))).
  { rewrite after_P by exact Hn. f_equal. lia. }
  assert (Huv : P (i + (fl - 1)) <> P (i + (fl + 0 + sl - 1)))
    by (apply P_offsets_neq; lia).
  subst r. unfold swap, normalize. cbv beta iota zeta.
  rewrite A1, Nat.eqb_refl. unfold relink. cbv beta iota zeta.
  rewrite A2, Nat.eqb_refl, A3, A4. cbn [cost after].
  set (h := P i) in *. set (u := P (i + (fl - 1))) in *.
  set (w := P (i + (fl + 0))) in *. set (v := P (i + (fl + 0 + sl - 1))) in *.
  assert (Hu : (u < length (after s))%nat) by (apply P_lt_after, Hn).
  assert (Hv : (v < length (after s))%nat) by (apply P_lt_after, Hn).
  exists u, v. split; [exact Huv|]. split; [apply P_lt, Hn|]. split; [apply P_lt, Hn|].
  unfold get in *.
  rewrite !tour_cost_insert by (rewrite ?length_insert; assumption).
  rewrite ?list_lookup_total_insert, ?length_insert.
  repeat first [ rewrite decide_True by (split; auto)
               | rewrite decide_False by (intros [? _]; congruence) ].
  split; [reflexivity|].
  rewrite A1, A4, Hcost. lia.
Qed.

End Tour.

(** For a tour [path] visiting the nodes [0 .. n-1] once, a solution
    whose links and cost are those of [path], and segment lengths
    [first_length, second_length >= 1] with
    [first_length + second_length < n], every descriptor enumerated by the
    [Swap] neighborhood yields a solution whose incrementally computed cost
    (3-edge formula for adjacent segments, 4-edge formula otherwise) equals
    the full recomputation from its new [after] links. *)
Theorem swap_cost_matches_full_recomputation
    (distances : nat -> nat -> Z) (first_length second_length : nat)
    (path : list nat) (s : PathSolution) (m : move) :
  NoDup path ->
  Forall (fun v => v < length path)%nat path ->
  after s = links_after path ->
  before s = links_before path ->
  cost s = tour_cost distances (after s) ->
  (1 <= first_length)%nat -> (1 <= second_length)%nat ->
  (first_length + second_length < length path)%nat ->
  In m (swap_moves first_length second_length path) ->
  cost (swap distances s m) = tour_cost distances (after (swap distances s m)).
Proof.
  intros Hnd Hnodes Ha Hb Hc Hfl Hsl Hlen Hm.
  exact (swap_enumerated_ok distances path Hnd Hnodes s Ha Hb Hc
           first_length second_length m Hfl Hsl Hlen Hm).
Qed.

Lemma swap_cost_matches_full_recomputation_witness :
  let path := [2; 0; 3; 1; 4]%nat in
  let dist := fun a b : nat => Z.of_nat (a * 7 + b * 3 + a * b * 5) mod 23 in
  let s := mkPathSolution (links_after path) (links_before path)
                          (tour_cost dist (links_after path)) in
  cost (swap dist s (2, 0, 3, 3)%nat) = tour_cost dist (after (swap dist s (2, 0, 3, 3)%nat)).
Proof.
  intros path dist s.
  apply (swap_cost_matches_full_recomputation dist 2 1 path s).
  - apply (bool_decide_unpack _). vm_compute. exact I.
  - apply (bool_decide_unpack _). vm_compute. exact I.
  - reflexivity.
  - reflexivity.
  - reflexivity.
  - lia.
  - lia.
  - vm_compute. lia.
  - vm_compute. left. reflexivity.
Defined.

Lemma swap_after_length (distances : nat -> nat -> Z) (s : PathSolution) (m : move) :
  length (after (swap distances s m)) = length (after s).
Proof.
  destruct m as [[[a b] c] d]. unfold swap, normalize.
  destruct (Nat.eqb a (get (after s) d)); unfold relink; cbv zeta;
    match goal with |- context [if ?t then _ else _] => destruct t end;
    cbn [after]; rewrite ?length_insert; reflexivity.
Qed.

(** Claim C1 fails when the two segments cover the whole tour
    ([first_length + second_length = n]): for a tour [path] visiting the
    nodes [0 .. n-1] once and a solution whose links and cost are those of
    [path], every descriptor enumerated by the [Swap] neighborhood yields
    [after] links that are no longer a permutation (two distinct nodes [u]
    and [v] get the same successor), and an incremental cost that differs
    from the full recomputation from these links by
    [distances u h - distances u w], [h] being the old successor of [v]
    and [w] the new successor of [u]. *)
Theorem swap_breaks_links_segments_cover_tour
    (distances : nat -> nat -> Z) (first_length second_length : nat)
    (path : list nat) (s : PathSolution) (m : move) :
  NoDup path ->
  Forall (fun v => v < length path)%nat path ->
  after s = links_after path ->
  before s = links_before path ->
  cost s = tour_cost distances (after s) ->
  (1 <= first_length)%nat -> (1 <= second_length)%nat ->
  (first_length + second_length = length path)%nat ->
  In m (swap_moves first_length second_length path) ->
  let r := swap distances s m in
  ~ NoDup (after r) /\
  exists u v : nat, u <> v /\ (u < length path)%nat /\ (v < length path)%nat /\
    get (after r) u = get (after r) v /\
    cost r - tour_cost distances (after r)
    = distances u (get (after s) v) - distances u (get (after r) u).
Proof.
  intros Hnd Hnodes Ha Hb Hc Hfl Hsl Hlen Hm r.
  destruct (swap_cover_links distances path Hnd Hnodes s Ha Hb Hc
              first_length second_length m Hfl Hsl Hlen Hm)
    as (u & v & Huv & Hu & Hv & Heq & Hcost').
  split; [|exists u, v; auto].
  assert (Hlr : length (after r) = length path).
  { subst r. rewrite swap_after_length, Ha. unfold links_after.
    rewrite length_map, length_seq. reflexivity. }
  intros Hnd'. apply Huv. unfold get in Heq.
  apply (NoDup_lookup (after r) u v (after r !!! u) Hnd').
  - apply list_lookup_lookup_total_lt. lia.
  - subst r. rewrite Heq. apply list_lookup_lookup_total_lt. lia.
Qed.

Lemma swap_breaks_links_segments_cover_tour_witness :
  let path := [0; 1; 2]%nat in
  let dist := fun a b : nat => Z.of_nat ((a * 3 + b) mod 5) in
  let s := mkPathSolution (links_after path) (links_before path)
                          (tour_cost dist (links_after path)) in
  ~ NoDup (after (swap dist s (0, 0, 1, 2)%nat)).
Proof.
  intros path dist s.
  refine (proj1 (swap_breaks_links_segments_cover_tour dist 1 2 path s (0, 0, 1, 2)%nat
                   _ _ _ _ _ _ _ _ _)).
  - apply (bool_decide_unpack _). vm_compute. exact I.
  - apply (bool_decide_unpack _). vm_compute. exact I.
  - reflexivity.
  - reflexivity.
  - reflexivity.
  - lia.
  - lia.
  - reflexivity.
  - vm_compute. left. reflexivity.
Defined.

End SwapProofs.

(* ================================================================= *)
(** ** Proofs: the sharded search of [Swap.find_best_candidate] *)
(* ================================================================= *)

Module ReduceProofs.
Import Tsp.

Definition omin (a b : option Z) : option Z :=
  match a, b with
  | None, x => x
  | x, None => x
  | Some x, Some y => Some (Z.min x y)
  end.

Definition best_cost (l : list Z) : option Z :=
  foldr (fun x acc => omin (Some x) acc) None l.

Definition ocost (o : option (PathSolution * move)) : option Z :=
  option_map (fun p => cost p.1) o.

(** Modelled from the spec's words: round-robin dealing, as a rule on
    enumeration indices.  [round_robin c t k ms] lists, in order, the
    elements of [ms] whose index [i] satisfies [(t + i) mod c = k]. *)
Fixpoint round_robin (c t k : nat) (ms : list move) : list move :=
  match ms with
  | [] => []
  | m :: ms' => (if Nat.eqb (Nat.modulo t c) k then [m] else []) ++ round_robin c (S t) k ms'
  end.

Lemma omin_assoc a b c : omin a (omin b c) = omin (omin a b) c.
Proof. destruct a, b, c; simpl; f_equal; lia. Qed.

Lemma omin_comm a b : omin a b = omin b a.
Proof. destruct a, b; simpl; f_equal; lia. Qed.

Lemma omin_None_r a : omin a None = a.
Proof. destruct a; reflexivity. Qed.

Lemma best_cost_cons x l : best_cost (x :: l) = omin (Some x) (best_cost l).
Proof. reflexivity. Qed.

Lemma best_cost_app l1 l2 : best_cost (l1 ++ l2) = omin (best_cost l1) (best_cost l2).
Proof.
  induction l1 as [|x l1 IH]; [reflexivity|].
  rewrite <- app_comm_cons, !best_cost_cons, IH, omin_assoc. reflexivity.
Qed.

Lemma best_cost_perm l1 l2 : Permutation l1 l2 -> best_cost l1 = best_cost l2.
Proof.
  induction 1 as [|x l1 l2 _ IH|x y l|l1 l2 l3 _ IH1 _ IH2].
  - reflexivity.
  - rewrite !best_cost_cons, IH. reflexivity.
  - rewrite !best_cost_cons, !omin_assoc, (omin_comm (Some y)). reflexivity.
  - congruence.
Qed.

Lemma best_cost_concat (ls : list (list Z)) :
  best_cost (concat ls) = foldr omin None (map best_cost ls).
Proof.
  induction ls as [|l ls IH]; [reflexivity|].
  cbn [concat map foldr]. rewrite best_cost_app, IH. reflexivity.
Qed.

Section Eval.

Variable eval : move -> PathSolution.

Definition cost_of (m : move) : Z := cost (eval m).

Lemma better_cost (x : PathSolution) (m : move) acc :
  ocost (if better x acc then Some (x, m) else acc) = omin (ocost acc) (Some (cost x)).
Proof.
  destruct acc as [[r mr]|]; simpl; [|reflexivity].
  case_bool_decide; simpl; f_equal; lia.
Qed.

Lemma static_best_fold (data : list move) acc :
  ocost (fold_left (fun acc m =>
           let swapped := eval m in
           if better swapped acc then Some (swapped, m) else acc) data acc)
  = omin (ocost acc) (best_cost (map cost_of data)).
Proof.
  revert acc. induction data as [|m data IH]; intros acc; simpl.
  - rewrite omin_None_r. reflexivity.
  - rewrite IH, better_cost. unfold cost_of.
    destruct (best_cost _), (ocost acc); simpl; f_equal; lia.
Qed.

Lemma static_best_cost (data : list move) :
  ocost (static_best eval data) = best_cost (map cost_of data).
Proof. unfold static_best. rewrite static_best_fold. reflexivity. Qed.

Lemma reduce_fold rs acc :
  ocost (fold_left (fun acc r =>
           match r with
           | None => acc
           | Some (result_temp, min_swap_temp) =>
               if better result_temp acc then Some (result_temp, min_swap_temp) else acc
           end) rs acc)
  = omin (ocost acc) (foldr omin None (map ocost rs)).
Proof.
  revert acc. induction rs as [|[[r mr]|] rs IH]; intros acc; simpl.
  - rewrite omin_None_r. reflexivity.
  - rewrite IH, better_cost.
    destruct (foldr omin None _), (ocost acc); simpl; f_equal; lia.
  - rewrite IH. reflexivity.
Qed.

Lemma reduce_results_cost rs :
  ocost (reduce_results rs) = foldr omin None (map ocost rs).
Proof. unfold reduce_results. rewrite reduce_fold. reflexivity. Qed.

Lemma sequential_fold (ms : list move) (b : PathSolution * move) :
  cost (fold_left (fun best m' =>
          if bool_decide (cost (eval m') < cost best.1) then (eval m', m') else best)
        ms b).1
  = match best_cost (map cost_of ms) with
    | None => cost b.1
    | Some c => Z.min (cost b.1) c
    end.
Proof.
  revert b. induction ms as [|m ms IH]; intros b; simpl; [reflexivity|].
  rewrite IH. unfold best_cost, cost_of in *. simpl.
  destruct (foldr _ None (map _ ms)) as [c|];
    case_bool_decide; simpl; lia.
Qed.

Lemma sequential_best_cost (ms : list move) :
  ocost (sequential_best eval ms) = best_cost (map cost_of ms).
Proof.
  destruct ms as [|m ms]; [reflexivity|]. unfold sequential_best, ocost. simpl.
  rewrite sequential_fold. unfold best_cost, cost_of. simpl.
  destruct (foldr _ None (map _ ms)); reflexivity.
Qed.

(** Whatever the two searches return is one of the evaluated moves. *)
Lemma static_best_fold_mem (Q : PathSolution -> move -> Prop) (data : list move) acc :
  (forall r m, acc = Some (r, m) -> Q r m) ->
  (forall m, In m data -> Q (eval m) m) ->
  forall r m,
  fold_left (fun acc m =>
    let swapped := eval m in
    if better swapped acc then Some (swapped, m) else acc) data acc = Some (r, m) ->
  Q r m.
Proof.
  revert acc. induction data as [|m0 data IH]; intros acc Hacc Hdata; simpl; [exact Hacc|].
  apply IH.
  - intros r m. destruct (better (eval m0) acc).
    + intros [= <- <-]. apply Hdata. left. reflexivity.
    + apply Hacc.
  - intros m Hm. apply Hdata. right. exact Hm.
Qed.

Lemma reduce_fold_mem (Q : PathSolution -> move -> Prop) rs acc :
  (forall r m, acc = Some (r, m) -> Q r m) ->
  (forall r m, In (Some (r, m)) rs -> Q r m) ->
  forall r m,
  fold_left (fun acc r =>
    match r with
    | None => acc
    | Some (result_temp, min_swap_temp) =>
        if better result_temp acc then Some (result_temp, min_swap_temp) else acc
    end) rs acc = Some (r, m) ->
  Q r m.
Proof.
  revert acc. induction rs as [|o rs IH]; intros acc Hacc Hrs; simpl; [exact Hacc|].
  apply IH.
  - intros r m. destruct o as [[r0 m0]|]; [|apply Hacc].
    destruct (better r0 acc).
    + intros [= <- <-]. apply Hrs. left. reflexivity.
    + apply Hacc.
  - intros r m Hm. apply Hrs. right. exact Hm.
Qed.

(** The two loops of [static_find_best_candidate] and of the reduction,
    one step each. *)
Definition opt_step (acc : option (PathSolution * move)) (m : move)
    : option (PathSolution * move) :=
  let swapped := eval m in
  if better swapped acc then Some (swapped, m) else acc.

Definition red_step (acc r : option (PathSolution * move)) : option (PathSolution * move) :=
  match r with
  | None => acc
  | Some (result_temp, min_swap_temp) =>
      if better result_temp acc then Some (result_temp, min_swap_temp) else acc
  end.

Lemma opt_step_red_step acc o m :
  opt_step (red_step acc o) m = red_step acc (opt_step o m).
Proof.
  unfold opt_step, red_step, better.
  destruct o as [[x mx]|], acc as [[y my]|]; simpl;
    repeat (case_bool_decide; simpl); try reflexivity; lia.
Qed.

Lemma fold_opt_red_step (d : list move) acc o :
  fold_left opt_step d (red_step acc o) = red_step acc (fold_left opt_step d o).
Proof.
  revert o. induction d as [|m d IH]; intros o; simpl; [reflexivity|].
  rewrite opt_step_red_step. apply IH.
Qed.

(** Reducing the per-bundle first minima in bundle order is one
    first-minimum search over the bundles laid end to end. *)
Lemma reduce_concat (ls : list (list move)) acc :
  fold_left red_step (map (fun d => fold_left opt_step d None) ls) acc
  = fold_left opt_step (concat ls) acc.
Proof.
  revert acc. induction ls as [|d ls IH]; intros acc; simpl; [reflexivity|].
  rewrite IH, fold_left_app. f_equal.
  rewrite <- (fold_opt_red_step d acc None). reflexivity.
Qed.

Lemma fold_opt_step_Some (ms : list move) (b : PathSolution * move) :
  fold_left opt_step ms (Some b)
  = Some (fold_left (fun best m' =>
            if bool_decide (cost (eval m') < cost best.1) then (eval m', m') else best)
          ms b).
Proof.
  revert b. induction ms as [|m ms IH]; intros [r mr]; simpl; [reflexivity|].
  unfold opt_step at 2, better. simpl. case_bool_decide; apply IH.
Qed.

Lemma static_best_sequential (ms : list move) :
  static_best eval ms = sequential_best eval ms.
Proof.
  destruct ms as [|m ms]; [reflexivity|].
  unfold static_best, sequential_best. simpl.
  apply (fold_opt_step_Some ms (eval m, m)).
Qed.

Lemma reduce_results_sequential (ls : list (list move)) :
  reduce_results (map (static_best eval) ls) = sequential_best eval (concat ls).
Proof.
  rewrite <- static_best_sequential. unfold static_best.
  change (fold_left red_step (map (fun d => fold_left opt_step d None) ls) None
          = fold_left opt_step (concat ls) None).
  apply reduce_concat.
Qed.

End Eval.

(** Round-robin dealing loses and duplicates nothing. *)
Lemma concat_insert_append (args : list (list move)) (j : nat) (m : move) :
  (j < length args)%nat ->
  Permutation (concat (<[j := args !!! j ++ [m]]> args)) (concat args ++ [m]).
Proof.
  intros Hj.
  rewrite insert_take_drop by exact Hj.
  pose proof (take_drop_middle args j (args !!! j)
                (list_lookup_lookup_total_lt _ _ Hj)) as Hmid.
  transitivity (concat (take j args ++ (args !!! j) :: drop (S j) args) ++ [m]);
    [|rewrite Hmid; reflexivity].
  rewrite !concat_app. simpl. rewrite <- !app_assoc.
  apply Permutation_app_head. rewrite <- ?app_assoc.
  apply Permutation_app_head. apply Permutation_app_comm.
Qed.

Lemma deal_perm (c t : nat) (ms : list move) (args : list (list move)) :
  (0 < c)%nat -> length args = c ->
  Permutation (concat (deal c t ms args)) (concat args ++ ms).
Proof.
  intros Hc. revert t args. induction ms as [|m ms IH]; intros t args Hlen; simpl.
  - rewrite app_nil_r. reflexivity.
  - rewrite IH by (rewrite length_insert; exact Hlen).
    rewrite concat_insert_append by (rewrite Hlen; apply Nat.mod_upper_bound; lia).
    rewrite <- app_assoc. reflexivity.
Qed.

Lemma shards_perm (c : nat) (ms : list move) :
  (0 < c)%nat -> Permutation (concat (shards c ms)) ms.
Proof.
  intros Hc. unfold shards. rewrite deal_perm by (try rewrite length_replicate; lia).
  assert (Hnil : forall k, concat (replicate k ([] : list move)) = []).
  { induction k as [|k IH]; [reflexivity|]. simpl. exact IH. }
  rewrite Hnil. reflexivity.
Qed.

Lemma lookup_map_opt {A B} (f : A -> B) (l : list A) (i : nat) :
  map f l !! i = option_map f (l !! i).
Proof. revert i. induction l as [|a l IH]; intros [|i]; simpl; auto. Qed.

(** [deal] puts into bundle [k] exactly the moves of index [i] with
    [(t + i) mod c = k], in order. *)
Lemma deal_round_robin (c t : nat) (ms : list move) (args : list (list move)) :
  (0 < c)%nat -> length args = c ->
  deal c t ms args = imap (fun k a => a ++ round_robin c t k ms) args.
Proof.
  intros Hc. revert t args. induction ms as [|m ms IH]; intros t args Hlen.
  - cbn [deal]. apply list_eq. intros i. rewrite list_lookup_imap.
    destruct (args !! i); simpl; [rewrite app_nil_r|]; reflexivity.
  - cbn [deal]. rewrite IH by (rewrite length_insert; exact Hlen).
    apply list_eq. intros i. rewrite !list_lookup_imap.
    assert (Hj : (Nat.modulo t c < length args)%nat)
      by (rewrite Hlen; apply Nat.mod_upper_bound; lia).
    set (j := Nat.modulo t c) in *.
    destruct (decide (i = j)) as [->|Hij].
    + rewrite list_lookup_insert_eq by exact Hj.
      rewrite (list_lookup_lookup_total_lt args j Hj). simpl. f_equal.
      cbn [round_robin]. fold j. rewrite Nat.eqb_refl, app_assoc. reflexivity.
    + rewrite list_lookup_insert_ne by congruence.
      destruct (args !! i); simpl; [|reflexivity]. f_equal.
      cbn [round_robin]. fold j.
      rewrite (proj2 (Nat.eqb_neq j i)) by congruence. reflexivity.
Qed.

Lemma shards_by_index (c : nat) (ms : list move) :
  (0 < c)%nat -> shards c ms = map (fun k => round_robin c 0 k ms) (seq 0 c).
Proof.
  intros Hc. unfold shards. rewrite deal_round_robin by (rewrite ?length_replicate; lia).
  apply list_eq. intros i. rewrite list_lookup_imap, lookup_map_opt.
  destruct (decide (i < c)%nat) as [Hi|Hi].
  - rewrite lookup_replicate_2 by exact Hi. rewrite lookup_seq_lt by exact Hi.
    reflexivity.
  - rewrite (proj1 (lookup_replicate_None c [] i)) by lia.
    rewrite lookup_seq_ge by lia. reflexivity.
Qed.

Lemma find_best_move_round_robin (distances : nat -> nat -> Z) (fl sl c : nat)
    (path : list nat) (s : PathSolution) :
  (0 < c)%nat ->
  find_best_move distances fl sl c path s
  = sequential_best (swap distances s)
      (concat (map (fun k => round_robin c 0 k (swap_moves fl sl path)) (seq 0 c))).
Proof.
  intros Hc. unfold find_best_move. rewrite shards_by_index by exact Hc.
  apply reduce_results_sequential.
Qed.

Lemma find_best_candidate_fst (distances : nat -> nat -> Z) (fl sl c : nat)
    (path : list nat) (s : PathSolution) (t : TabuMemory) :
  (find_best_candidate distances fl sl c path s t).1
  = option_map fst (find_best_move distances fl sl c path s).
Proof.
  unfold find_best_candidate, find_best_move.
  destruct (reduce_results _) as [[r m]|]; reflexivity.
Qed.

Lemma find_best_move_cost (distances : nat -> nat -> Z) (fl sl c : nat)
    (path : list nat) (s : PathSolution) :
  (0 < c)%nat ->
  ocost (find_best_move distances fl sl c path s)
  = ocost (sequential_best (swap distances s) (swap_moves fl sl path)).
Proof.
  intros Hc. unfold find_best_move.
  rewrite reduce_results_cost, sequential_best_cost, map_map.
  set (ev := swap distances s).
  rewrite (map_ext _ (fun d => best_cost (map (cost_of ev) d)))
    by (intros d; apply static_best_cost).
  rewrite <- (map_map (map (cost_of ev)) best_cost), <- best_cost_concat.
  rewrite <- concat_map.
  apply best_cost_perm, Permutation_map, shards_perm, Hc.
Qed.

Lemma find_best_move_mem (distances : nat -> nat -> Z) (fl sl c : nat)
    (path : list nat) (s : PathSolution) (r : PathSolution) (m : move) :
  (0 < c)%nat ->
  find_best_move distances fl sl c path s = Some (r, m) ->
  In m (swap_moves fl sl path) /\ r = swap distances s m.
Proof.
  intros Hc. unfold find_best_move, reduce_results.
  set (ms := swap_moves fl sl path).
  apply (reduce_fold_mem (fun r m => In m ms /\ r = swap distances s m));
    [discriminate|].
  intros r' m' Hin. apply in_map_iff in Hin as [d [Hd Hdin]].
  revert Hd. unfold static_find_best_candidate, static_best.
  apply (static_best_fold_mem (swap distances s)
           (fun r m => In m ms /\ r = swap distances s m)); [discriminate|].
  intros m0 Hm0. split; [|reflexivity].
  apply (Permutation_in _ (shards_perm c ms Hc)).
  apply in_concat. exists d. split; assumption.
Qed.

(** Claim C2 (as amended).  With [c >= 1] worker slots, bundle [k] of
    [Swap.find_best_candidate] holds the enumerated moves of index
    [i] with [i mod c = k], in enumeration order, and the results are
    reduced in bundle order, as [pool.map] returns them.  The candidate
    and the move added to the tabu memory are exactly those of a
    sequential first-minimum search over the bundles laid end to end: the
    first minimal-cost move of the first bundle holding one.  Its cost is
    the cost a sequential first-minimum search over all enumerated moves
    finds ([None] exactly when there is no move), and the candidate is the
    evaluation of one enumerated move. *)
Theorem find_best_candidate_min_cost (distances : nat -> nat -> Z) (fl sl c : nat)
    (path : list nat) (s : PathSolution) (t : TabuMemory) :
  (0 < c)%nat ->
  option_map cost (find_best_candidate distances fl sl c path s t).1
  = option_map (fun p => cost p.1) (sequential_best (swap distances s) (swap_moves fl sl path))
  /\ (forall r, (find_best_candidate distances fl sl c path s t).1 = Some r ->
        exists m, In m (swap_moves fl sl path) /\ r = swap distances s m)
  /\ find_best_candidate distances fl sl c path s t
     = match sequential_best (swap distances s)
               (concat (map (fun k => round_robin c 0 k (swap_moves fl sl path)) (seq 0 c))) with
       | Some (result, min_swap) => (Some result, add_to_tabu swap_maxlen t min_swap)
       | None => (None, t)
       end.
Proof.
  intros Hc. split; [|split].
  - rewrite find_best_candidate_fst.
    pose proof (find_best_move_cost distances fl sl c path s Hc) as H.
    unfold ocost in H. rewrite <- H.
    destruct (find_best_move _ _ _ _ _ _); reflexivity.
  - rewrite find_best_candidate_fst. intros r Hr.
    destruct (find_best_move distances fl sl c path s) as [[r' m]|] eqn:E;
      [|discriminate].
    injection Hr as <-. exists m.
    exact (find_best_move_mem distances fl sl c path s r' m Hc E).
  - rewrite <- find_best_move_round_robin by exact Hc.
    reflexivity.
Qed.

(** The witness instance is the one of the tie below: with two worker
    slots the candidate is the evaluation of [(3, 3, 1, 1)]. *)
Lemma find_best_candidate_min_cost_witness :
  let path := [0; 1; 2; 3; 4]%nat in
  let dist := fun a b : nat =>
    if Nat.eqb a b then 0 else (Z.of_nat (a + b) * 2 + Z.of_nat (a * b)) mod 7 in
  let s := mkPathSolution (links_after path) (links_before path)
                          (tour_cost dist (links_after path)) in
  (0 < 2)%nat /\
  find_best_candidate dist 1 1 2 path s empty_tabu
  = match sequential_best (swap dist s)
            (concat (map (fun k => round_robin 2 0 k (swap_moves 1 1 path)) (seq 0 2))) with
    | Some (result, min_swap) => (Some result, add_to_tabu swap_maxlen empty_tabu min_swap)
    | None => (None, empty_tabu)
    end /\
  option_map snd (sequential_best (swap dist s)
            (concat (map (fun k => round_robin 2 0 k (swap_moves 1 1 path)) (seq 0 2))))
  = Some (3, 3, 1, 1)%nat.
Proof.
  intros path dist s. split; [lia|]. split.
  - exact (proj2 (proj2 (find_best_candidate_min_cost dist 1 1 2 path s empty_tabu
                           ltac:(lia)))).
  - vm_compute. reflexivity.
Defined.

(** Claim C2, as stated, fails: on the 5-node tour [0 1 2 3 4] with the
    distances below and two worker slots, the sharded search adopts the
    move [(3, 3, 1, 1)] (enumerated 15th, in bundle 0), while the
    sequential first-minimum search picks [(0, 0, 4, 4)] (enumerated 4th,
    in bundle 1); both have the minimal cost, but the two candidates are
    different tours, and with one worker slot the sharded search agrees
    with the sequential one, so the result depends on the sharding. *)
Lemma find_best_candidate_tie_depends_on_sharding :
  let path := [0; 1; 2; 3; 4]%nat in
  let dist := fun a b : nat =>
    if Nat.eqb a b then 0 else (Z.of_nat (a + b) * 2 + Z.of_nat (a * b)) mod 7 in
  let s := mkPathSolution (links_after path) (links_before path)
                          (tour_cost dist (links_after path)) in
  option_map snd (find_best_move dist 1 1 2 path s) = Some (3, 3, 1, 1)%nat /\
  option_map snd (sequential_best (swap dist s) (swap_moves 1 1 path)) = Some (0, 0, 4, 4)%nat /\
  option_map snd (find_best_move dist 1 1 1 path s) = Some (0, 0, 4, 4)%nat /\
  (find_best_candidate dist 1 1 2 path s empty_tabu).1
  <> option_map fst (sequential_best (swap dist s) (swap_moves 1 1 path)).
Proof.
  intros path dist s. vm_compute.
  split; [reflexivity|]. split; [reflexivity|]. split; [reflexivity|].
  discriminate.
Qed.

End ReduceProofs.

(* ================================================================= *)
(** ** Proofs: the tabu memory of [Swap] *)
(* ================================================================= *)

Module TabuProofs.
Import Tsp.

Lemma drop_app_single (k : nat) (xs : list move) (x : move) :
  (k <= length xs)%nat -> drop k (xs ++ [x]) = drop k xs ++ [x].
Proof. intros Hk. apply drop_app_le. exact Hk. Qed.

Lemma tabu_step (maxlen : nat) (xs : list move) (x : move) (t : TabuMemory) :
  NoDup (xs ++ [x]) ->
  tabu_list t = drop (length xs - maxlen) xs ->
  (forall y, y ∈ tabu_set t <-> y ∈ tabu_list t) ->
  tabu_list (add_to_tabu maxlen t x) = drop (length (xs ++ [x]) - maxlen) (xs ++ [x]) /\
  (forall y, y ∈ tabu_set (add_to_tabu maxlen t x) <-> y ∈ tabu_list (add_to_tabu maxlen t x)).
Proof.
  intros Hnd Hl Hs. rewrite length_app. simpl.
  assert (Hnd' : NoDup (tabu_list t ++ [x])).
  { rewrite Hl, <- drop_app_single by lia. pose proof Hnd as Hnd0.
    rewrite <- (take_drop (length xs - maxlen) (xs ++ [x])) in Hnd0.
    apply NoDup_app in Hnd0 as (_ & _ & Hd). exact Hd. }
  unfold add_to_tabu.
  destruct (decide (maxlen < length (tabu_list t ++ [x]))%nat) as [Hlt|Hge].
  - assert (Hlen : length (tabu_list t ++ [x])
                   = (length xs - (length xs - maxlen) + 1)%nat)
      by (rewrite length_app, Hl, length_drop; reflexivity).
    destruct (tabu_list t ++ [x]) as [|y l'] eqn:E; [simpl in Hlt; lia|].
    simpl in Hlt, Hlen. simpl. split.
    + rewrite Hl in E.
      replace (length xs + 1 - maxlen)%nat with (length xs - maxlen + 1)%nat by lia.
      rewrite <- drop_drop, drop_app_single by lia. rewrite E. reflexivity.
    + intros z. rewrite elem_of_difference, elem_of_union, !elem_of_singleton, Hs.
      apply NoDup_cons in Hnd' as [Hy Hl'].
      assert (Hz : z ∈ tabu_list t ++ [x] <-> z = y \/ z ∈ l').
      { rewrite E. rewrite elem_of_cons. tauto. }
      rewrite elem_of_app, list_elem_of_singleton in Hz.
      split.
      * intros [[-> | Hin] Hne]; destruct Hz as [Hz _]; destruct Hz; tauto.
      * intros Hin. split; [destruct Hz as [_ Hz]; destruct Hz; tauto|].
        intros ->. contradiction.
  - simpl. rewrite length_app, Hl, length_drop in Hge. simpl in Hge. split.
    + rewrite Hl.
      replace (length xs - maxlen)%nat with 0%nat by lia.
      replace (length xs + 1 - maxlen)%nat with 0%nat by lia. reflexivity.
    + intros z. rewrite elem_of_union, elem_of_singleton, Hs,
        elem_of_app, list_elem_of_singleton. tauto.
Qed.

Lemma tabu_invariant (maxlen : nat) (xs : list move) :
  NoDup xs ->
  let t := fold_left (add_to_tabu maxlen) xs empty_tabu in
  tabu_list t = drop (length xs - maxlen) xs /\
  (forall y, y ∈ tabu_set t <-> y ∈ tabu_list t).
Proof.
  induction xs as [|x xs IH] using rev_ind; intros Hnd t.
  - subst t. simpl. split; [reflexivity|]. intros y.
    rewrite elem_of_empty, elem_of_nil. tauto.
  - subst t. rewrite fold_left_app. simpl.
    destruct (IH (proj1 (proj1 (NoDup_app _ _) Hnd))) as [Hl Hs].
    apply tabu_step; assumption.
Qed.

(** Claim C5 (spec-modelled).  After inserting the distinct descriptors
    [xs] in order into the empty tabu memory of capacity [maxlen], the
    deque holds exactly the last [maxlen] of them (all of them when there
    are fewer), the set holds the same elements as the deque, and every
    evicted (older) descriptor is no longer a member of the set. *)
Theorem tabu_memory_keeps_most_recent (maxlen : nat) (xs : list move) :
  NoDup xs ->
  let t := fold_left (add_to_tabu maxlen) xs empty_tabu in
  tabu_list t = drop (length xs - maxlen) xs /\
  (forall y, y ∈ tabu_set t <-> y ∈ tabu_list t) /\
  (forall y, y ∈ take (length xs - maxlen) xs -> y ∉ tabu_set t).
Proof.
  intros Hnd t. destruct (tabu_invariant maxlen xs Hnd) as [Hl Hs].
  fold t in Hl, Hs. split; [exact Hl|]. split; [exact Hs|].
  intros y Hy Hin. apply Hs in Hin. rewrite Hl in Hin.
  rewrite <- (take_drop (length xs - maxlen) xs) in Hnd.
  apply NoDup_app in Hnd as (_ & Hdisj & _).
  exact (Hdisj y Hy Hin).
Qed.

Lemma tabu_memory_keeps_most_recent_witness :
  let xs := [(1, 1, 2, 2); (2, 2, 3, 3); (3, 3, 4, 4)]%nat in
  NoDup xs /\
  let t := fold_left (add_to_tabu 2) xs empty_tabu in
  tabu_list t = drop (length xs - 2) xs /\
  (forall y, y ∈ tabu_set t <-> y ∈ tabu_list t) /\
  (forall y, y ∈ take (length xs - 2) xs -> y ∉ tabu_set t).
Proof.
  intros xs. split.
  - apply (bool_decide_unpack _). vm_compute. exact I.
  - apply (tabu_memory_keeps_most_recent 2 xs).
    apply (bool_decide_unpack _). vm_compute. exact I.
Defined.

End TabuProofs.

(* ================================================================= *)
(** ** Proofs: [BaseSolution] *)
(* ================================================================= *)

Module BaseProofs.
Import Base.

Section Compare.

Variable Sol : Type.
Variable class_of : Sol -> nat.
Variable cost : Sol -> Z.
Variable hash_of_cost : Z -> Z.

(** Claim C9.  For two solutions of the same class, [a == b] holds iff
    their costs are equal and [a < b] iff [cost a < cost b]; a solution
    whose cost equals that of a member of a set is not added to it (the
    set keeps one element per cost). *)
Theorem eq_lt_by_cost (a b : Sol) (st : list Sol) :
  class_of a = class_of b ->
  (py_eq Sol class_of cost a b = Some true <-> cost a = cost b) /\
  (py_lt Sol class_of cost a b = Some true <-> cost a < cost b) /\
  (In a st -> cost a = cost b -> set_add Sol class_of cost hash_of_cost b st = st).
Proof.
  intros Hcls. unfold py_eq, py_lt. rewrite Hcls, Nat.eqb_refl. split; [|split].
  - split; [intros [= H]; apply Z.eqb_eq, H|intros H; rewrite (proj2 (Z.eqb_eq _ _) H); reflexivity].
  - split; [intros [= H]; apply Z.ltb_lt, H|intros H; rewrite (proj2 (Z.ltb_lt _ _) H); reflexivity].
  - intros Hin Hc. unfold set_add.
    replace (existsb _ st) with true; [reflexivity|]. symmetry.
    apply existsb_exists. exists a. split; [exact Hin|].
    unfold py_hash, py_eq. rewrite Hc, Z.eqb_refl, Hcls, Nat.eqb_refl, Z.eqb_refl.
    reflexivity.
Qed.

End Compare.

(** Two path encodings of equal cost. *)
Lemma eq_lt_by_cost_witness :
  let cls := fun _ : list nat * Z => 0%nat in
  let c := fun x : list nat * Z => x.2 in
  let a := ([0; 1; 2]%nat, 5) in
  let b := ([0; 2; 1]%nat, 5) in
  cls a = cls b /\
  ((py_eq (list nat * Z) cls c a b = Some true <-> c a = c b) /\
   (py_lt (list nat * Z) cls c a b = Some true <-> c a < c b) /\
   (In a [a] -> c a = c b -> set_add (list nat * Z) cls c (fun z => z) b [a] = [a])).
Proof.
  intros cls c a b. split; [reflexivity|].
  apply (eq_lt_by_cost (list nat * Z) cls c (fun z => z) a b [a]). reflexivity.
Defined.

Section Driver.

Variable Sol : Type.
Variable cost : Sol -> Z.
Variable neighborhoods_count : nat.
Variable find_best_candidate : nat -> nat -> Sol -> option Sol.
Variable shuffle : nat -> Sol -> Sol.
Variable shuffle_after : Z.

Let loop := search_loop Sol cost neighborhoods_count find_best_candidate shuffle shuffle_after.

Definition best_of (init : Sol) (st : DriverState Sol) (seen : list Sol) : Prop :=
  In (result Sol st) (init :: seen) /\
  forall x, In x (init :: seen) -> cost (result Sol st) <= cost x.

Lemma py_min_cases (a b : Sol) :
  (py_min Sol cost a b = a /\ cost a <= cost b) \/
  (py_min Sol cost a b = b /\ cost b < cost a).
Proof.
  unfold py_min, lt. destruct (Z.ltb (cost b) (cost a)) eqn:E.
  - right. apply Z.ltb_lt in E. auto.
  - left. apply Z.ltb_ge in E. auto.
Qed.

Lemma search_loop_best (init : Sol) (fuel iteration : nat) (st : DriverState Sol)
    (seen : list Sol) :
  best_of init st seen ->
  let '(st', seen') := loop fuel iteration st seen in best_of init st' seen'.
Proof.
  revert iteration st seen. induction fuel as [|fuel IH]; intros iteration st seen Hb;
    [exact Hb|].
  simpl. destruct (find_best_candidate _ _ _) as [c|]; [|exact Hb].
  set (p := if lt Sol cost c (current Sol st) then (c, iteration)
            else (current Sol st, last_improved Sol st)).
  destruct p as [current1 last_improved1].
  apply IH. destruct Hb as [Hin Hle]. unfold best_of. simpl.
  destruct (py_min_cases (result Sol st) current1) as [[-> H]|[-> H]].
  - split.
    + destruct Hin as [Hin|Hin]; [left; exact Hin|right; apply in_or_app; left; exact Hin].
    + intros x [Hx|Hx]; [apply Hle; left; exact Hx|].
      apply in_app_or in Hx as [Hx|[Hx|[]]]; [apply Hle; right; exact Hx|subst; exact H].
  - split.
    + right. apply in_or_app. right. left. reflexivity.
    + intros x [Hx|Hx].
      * subst. specialize (Hle x (or_introl eq_refl)). lia.
      * apply in_app_or in Hx as [Hx|[Hx|[]]]; [|subst; lia].
        specialize (Hle x (or_intror Hx)). lia.
Qed.

(** One iteration's [result] does not depend on the shuffle. *)
Lemma search_loop_result_ignores_shuffle (shuffle' : nat -> Sol -> Sol)
    (iteration : nat) (st : DriverState Sol) (seen : list Sol) :
  result Sol (loop 1 iteration st seen).1
  = result Sol (search_loop Sol cost neighborhoods_count find_best_candidate shuffle'
                  shuffle_after 1 iteration st seen).1.
Proof.
  unfold loop. simpl. destruct (find_best_candidate _ _ _) as [c|]; [|reflexivity].
  destruct (if lt Sol cost c (current Sol st) then _ else _). reflexivity.
Qed.

Variable initial : Sol.
Variable post_optimization : Sol -> Sol.

(** Claim C4 (as amended).  [result] is always one of the initial
    solution and the values of [current] compared by
    [result = min(result, current)], and its cost is at most each of
    theirs; the iteration's [result] does not depend on the shuffle; the
    search returns [post_optimization] of that [result] (or raises
    [StopIteration] when the neighborhood list is empty). *)
Theorem tabu_search_keeps_best_seen (iterations_count : nat) :
  let '(st, seen) := loop iterations_count 0 (mkDriverState Sol initial initial 0) [] in
  In (result Sol st) (initial :: seen) /\
  (forall x, In x (initial :: seen) -> cost (result Sol st) <= cost x) /\
  (forall (shuffle' : nat -> Sol -> Sol) iteration st0 seen0,
     result Sol (loop 1 iteration st0 seen0).1
     = result Sol (search_loop Sol cost neighborhoods_count find_best_candidate shuffle'
                     shuffle_after 1 iteration st0 seen0).1) /\
  (tabu_search Sol cost initial neighborhoods_count find_best_candidate shuffle
     post_optimization shuffle_after iterations_count = None \/
   tabu_search Sol cost initial neighborhoods_count find_best_candidate shuffle
     post_optimization shuffle_after iterations_count
   = Some (post_optimization (result Sol st))).
Proof.
  pose proof (search_loop_best initial iterations_count 0
                (mkDriverState Sol initial initial 0) [])
    as Hb.
  assert (H0 : best_of initial (mkDriverState Sol initial initial 0) []).
  { split; [left; reflexivity|]. intros x [<-|[]]. simpl. lia. }
  specialize (Hb H0). clear H0.
  unfold tabu_search. fold loop in Hb |- *.
  destruct (loop iterations_count 0 _ []) as [st seen].
  destruct Hb as [Hin Hle].
  split; [exact Hin|]. split; [exact Hle|]. split.
  - intros. apply search_loop_result_ignores_shuffle.
  - destruct (Nat.eqb neighborhoods_count 0 && negb (Nat.eqb iterations_count 0));
      [left|right]; reflexivity.
Qed.

End Driver.

(** Claim C4, as stated, fails: a shuffle may produce a better solution
    than [result], and [result] only catches up at the next iteration.
    Costs are the solutions themselves; the initial solution costs 5, the
    only candidate costs 7 (no improvement), [shuffle_after = 0], and the
    shuffle returns a solution of cost 1.  After the single iteration,
    [result] costs 5 and [current] costs 1, and the search returns 5. *)
Lemma tabu_search_shuffle_beats_result :
  let find := fun (_ _ : nat) (_ : Z) => Some 7 in
  let shf := fun (_ : nat) (_ : Z) => 1 in
  let '(st, _) := search_loop Z (fun x => x) 1 find shf 0 1 0 (mkDriverState Z 5 5 0) [] in
  result Z st = 5 /\ current Z st = 1 /\ ~ (result Z st <= current Z st) /\
  tabu_search Z (fun x => x) 5 1 find shf (fun x => x) 0 1 = Some 5.
Proof. vm_compute. split; [reflexivity|]. split; [reflexivity|]. split; [intro H; apply H; reflexivity|reflexivity]. Qed.

End BaseProofs.

(* ================================================================= *)
(** ** Proofs: a neighborhood without moves *)
(* ================================================================= *)

Module EmptyProofs.
Import Tsp Base.

Lemma reduce_results_all_none (k : nat) :
  fold_left (fun acc (r : option (PathSolution * move)) =>
    match r with
    | None => acc
    | Some (result_temp, min_swap_temp) =>
        if better result_temp acc then Some (result_temp, min_swap_temp) else acc
    end) (replicate k None) None = None.
Proof. induction k as [|k IH]; [reflexivity|]. exact IH. Qed.

Lemma find_best_candidate_no_moves (distances : nat -> nat -> Z)
    (first_length second_length concurrency : nat) (path : list nat)
    (s : PathSolution) (t : TabuMemory) :
  swap_moves first_length second_length path = [] ->
  find_best_candidate distances first_length second_length concurrency path s t = (None, t).
Proof.
  intros Hm. unfold find_best_candidate. rewrite Hm. unfold shards. simpl.
  replace (map (static_find_best_candidate distances s) (replicate concurrency []))
    with (replicate concurrency (@None (PathSolution * move))).
  - unfold reduce_results. rewrite reduce_results_all_none. reflexivity.
  - induction concurrency as [|k IH]; [reflexivity|]. simpl. rewrite <- IH. reflexivity.
Qed.

Section Driver.

Variable Sol : Type.
Variable cost : Sol -> Z.
Variable initial : Sol.
Variable neighborhoods_count : nat.
Variable find : nat -> nat -> Sol -> option Sol.
Variable shuffle : nat -> Sol -> Sol.
Variable post_optimization : Sol -> Sol.
Variable shuffle_after : Z.

(** Claim C8.  When the Swap moves of [path] are none,
    [Swap.find_best_candidate] returns [None] (and leaves the tabu memory
    as it was); when the neighborhood of an iteration returns no
    candidate, the loop of [BaseSolution.tabu_search] stops there with its
    state unchanged, and the search returns [post_optimization] of its
    [result]. *)
Theorem no_candidate_ends_search (distances : nat -> nat -> Z)
    (first_length second_length concurrency : nat) (path : list nat)
    (s : PathSolution) (t : TabuMemory)
    (fuel iteration : nat) (st : DriverState Sol) (seen : list Sol)
    (iterations_count : nat) :
  swap_moves first_length second_length path = [] ->
  find_best_candidate distances first_length second_length concurrency path s t = (None, t) /\
  (find (Nat.modulo iteration neighborhoods_count) iteration (current Sol st) = None ->
   search_loop Sol cost neighborhoods_count find shuffle shuffle_after (S fuel) iteration st seen
   = (st, seen)) /\
  ((0 < neighborhoods_count)%nat ->
   tabu_search Sol cost initial neighborhoods_count find shuffle post_optimization
     shuffle_after iterations_count
   = Some (post_optimization (result Sol (search_loop Sol cost neighborhoods_count find
       shuffle shuffle_after iterations_count 0 (mkDriverState Sol initial initial 0) []).1))).
Proof.
  intros Hm. split; [apply find_best_candidate_no_moves; exact Hm|]. split.
  - intros Hn. simpl. rewrite Hn. reflexivity.
  - intros Hc. unfold tabu_search.
    replace (Nat.eqb neighborhoods_count 0) with false by (symmetry; apply Nat.eqb_neq; lia).
    simpl. destruct (search_loop _ _ _ _ _ _ _ _ _ _). reflexivity.
Qed.

End Driver.

(** A tour of two nodes has no Swap move for segments of length 2; a
    driver whose neighborhood never answers stops at once. *)
Lemma no_candidate_ends_search_witness :
  swap_moves 2 2 [0; 1]%nat = [] /\
  (find_best_candidate (fun _ _ => 1) 2 2 4 [0; 1]%nat (mkPathSolution [1; 0]%nat [1; 0]%nat 2)
     empty_tabu = (None, empty_tabu) /\
   ((fun (_ _ : nat) (_ : Z) => @None Z) (Nat.modulo 0 1) 0%nat
      (current Z (mkDriverState Z 5 5 0)) = None ->
    search_loop Z (fun x => x) 1 (fun _ _ _ => None) (fun _ x => x) 0 1 0
      (mkDriverState Z 5 5 0) [] = (mkDriverState Z 5 5 0, [])) /\
   ((0 < 1)%nat ->
    tabu_search Z (fun x => x) 5 1 (fun _ _ _ => None) (fun _ x => x) (fun x => x) 0 3
    = Some ((fun x => x) (result Z (search_loop Z (fun x => x) 1 (fun _ _ _ => None)
        (fun _ x => x) 0 3 0 (mkDriverState Z 5 5 0 ) []).1)))).
Proof.
  split; [reflexivity|].
  apply (no_candidate_ends_search Z (fun x => x) 5 1 (fun _ _ _ => None) (fun _ x => x)
           (fun x => x) 0 (fun _ _ => 1) 2 2 4 [0; 1]%nat
           (mkPathSolution [1; 0]%nat [1; 0]%nat 2) empty_tabu 0 0
           (mkDriverState Z 5 5 0) [] 3).
  reflexivity.
Defined.

End EmptyProofs.

(* ================================================================= *)
(** ** Proofs: [MultiObjectiveSolution.tabu_search] *)
(* ================================================================= *)

Module MultiObProofs.
Import MultiOb.

(** Claim C3.  The arity check of line 86 does not look at
    [plot_pareto_front]: a cost vector of any length other than 2 raises
    [ValueError] also when no plot is requested. *)
Theorem prologue_rejects_arity_without_plot (initial_cost : list Z) :
  length initial_cost <> 2%nat ->
  prologue initial_cost false
  = PrologueError "Cannot plot the Pareto front when the number of objectives is not 2".
Proof.
  intros Hlen. unfold prologue.
  destruct (Nat.eqb (length initial_cost) 2) eqn:E; [apply Nat.eqb_eq in E; lia|].
  reflexivity.
Qed.

(** Three objectives, no plot. *)
Lemma prologue_rejects_arity_without_plot_witness :
  length [1; 2; 3] <> 2%nat /\
  prologue [1; 2; 3] false
  = PrologueError "Cannot plot the Pareto front when the number of objectives is not 2".
Proof.
  split; [simpl; lia|]. apply (prologue_rejects_arity_without_plot [1; 2; 3]). simpl. lia.
Defined.

Section Iteration.

Variable Sol : Type.
Variable eqb : Sol -> Sol -> bool.
Variable hash : Sol -> Z.
Variable candidates_of : nat -> Sol -> list Sol.
Variable add_to_pareto_set : Sol -> list Sol -> bool * list Sol.
Variable propagation_predicate : Sol -> list Sol -> bool.
Variable max_propagation : option (list Sol -> Z).
Variable sample : nat -> list Sol -> Z -> list Sol.
Variable shuffle : nat -> Sol -> Sol.
Variable shuffle_after : Z.

Lemma propagate_all_eq (iteration : nat) (propagate current : list Sol) (li : nat) :
  propagate_all Sol eqb hash iteration propagate current li
  = (fold_left (fun c x => set_add Sol eqb hash x c) propagate current,
     match propagate with [] => li | _ => iteration end).
Proof.
  unfold propagate_all. revert current li.
  induction propagate as [|x p IH]; intros current li; [reflexivity|].
  simpl. rewrite IH. destruct p; reflexivity.
Qed.

(** Claim C7 (as amended).  In an iteration, [last_improved] becomes the
    iteration exactly when at least one candidate was staged (whether or
    not adding it made [current] grow) and is kept otherwise; [current] is
    the previous one with the staged candidates added, trimmed to
    [max_propagation], and then replaced by the set of the shuffles of its
    members when the iteration minus that [last_improved] reaches
    [shuffle_after]. *)
Theorem iterate_resets_on_staging (iteration : nat) (st : MultiState Sol) :
  let '(propagate, results1) :=
    stage Sol candidates_of add_to_pareto_set propagation_predicate iteration st in
  let li1 := match propagate with [] => last_improved Sol st | _ => iteration end in
  let current2 :=
    trim Sol eqb hash max_propagation sample iteration results1
      (fold_left (fun c x => set_add Sol eqb hash x c) propagate (current Sol st)) in
  let st' := iterate Sol eqb hash candidates_of add_to_pareto_set propagation_predicate
               max_propagation sample shuffle shuffle_after iteration st in
  results Sol st' = results1 /\
  last_improved Sol st' = li1 /\
  current Sol st'
  = if Z.geb (Z.of_nat iteration - Z.of_nat li1) shuffle_after
    then set_of Sol eqb hash (map (shuffle iteration) current2)
    else current2.
Proof.
  unfold iterate.
  destruct (stage _ _ _ _ _ _) as [propagate results1].
  rewrite propagate_all_eq. simpl. split; [reflexivity|]. split; [reflexivity|].
  unfold stagnate. reflexivity.
Qed.

End Iteration.

(** Claim C7, as stated, fails: a staged candidate that equals a member of
    [current] resets [last_improved] although [current] does not grow, and
    the shuffle, due by the iterations since [current] last grew, does not
    happen.  Solutions are cost vectors compared for equality; the only
    candidate is the member [[1; 2]] itself, accepted by the default
    predicate; [shuffle_after = 2], iteration 3, [current] last grew at
    iteration 0. *)
Lemma iterate_resets_without_growth :
  let st' := iterate (list Z) (fun a b => bool_decide (a = b)) (fun _ => 0)
               (fun _ _ => [[1; 2]]) (fun _ r => (false, r)) (fun _ _ => true)
               None (fun _ _ _ => []) (fun _ s => map Z.succ s) 2
               3 (mkMultiState (list Z) [[1; 2]] [[1; 2]] 0) in
  current (list Z) st' = [[1; 2]] /\ last_improved (list Z) st' = 3%nat /\
  set_of (list Z) (fun a b => bool_decide (a = b)) (fun _ => 0)
    (map (map Z.succ) [[1; 2]]) = [[2; 3]].
Proof. vm_compute. split; [reflexivity|]. split; reflexivity. Qed.

End MultiObProofs.

(* ================================================================= *)
(** ** Proofs: [D2DPathSolution.import_problem] *)
(* ================================================================= *)

Module ImportProofs.
Import D2D.

Lemma set_config_imported_id (st : ProblemState) :
  config_imported st = true -> set_config_imported st = st.
Proof. destruct st; simpl; intros ->; reflexivity. Qed.

(** Decoding a [repr] body: the inverse of [repr_body]. *)
Definition unhex (h : Ascii.ascii) : nat :=
  let n := Ascii.nat_of_ascii h in if Nat.leb n 57 then n - 48 else n - 87.

Fixpoint unrepr (s : string) : string :=
  match s with
  | EmptyString => EmptyString
  | String c rest =>
      if Ascii.eqb c backslash then
        match rest with
        | EmptyString => EmptyString
        | String d rest' =>
            let k := Ascii.nat_of_ascii d in
            if Nat.eqb k 120 then
              match rest' with
              | String h1 (String h2 rest'') =>
                  String (Ascii.ascii_of_nat (unhex h1 * 16 + unhex h2)) (unrepr rest'')
              | _ => EmptyString
              end
            else if Nat.eqb k 116 then String (Ascii.ascii_of_nat 9) (unrepr rest')
            else if Nat.eqb k 110 then String (Ascii.ascii_of_nat 10) (unrepr rest')
            else if Nat.eqb k 114 then String (Ascii.ascii_of_nat 13) (unrepr rest')
            else String d (unrepr rest')
        end
      else String c (unrepr rest)
  end.

Lemma string_app_assoc (a b c : string) : (a +:+ b) +:+ c = a +:+ (b +:+ c).
Proof. induction a as [|x a IH]; [reflexivity|]. exact (f_equal (String x) IH). Qed.

Lemma unrepr_char (q c : Ascii.ascii) (t : string) :
  q = sq \/ q = dq -> unrepr (repr_char q c +:+ t) = String c (unrepr t).
Proof.
  intros [-> | ->]; destruct c as [[] [] [] [] [] [] [] []]; reflexivity.
Qed.

Lemma unrepr_body (q : Ascii.ascii) (s t : string) :
  q = sq \/ q = dq -> unrepr (repr_body q s +:+ t) = s +:+ unrepr t.
Proof.
  intros Hq. induction s as [|c s IH]; [reflexivity|]. cbn [repr_body].
  rewrite string_app_assoc, unrepr_char by exact Hq. rewrite IH. reflexivity.
Qed.

Lemma unrepr_quote (q : Ascii.ascii) :
  q = sq \/ q = dq -> unrepr (String q EmptyString) = String q EmptyString.
Proof. intros [-> | ->]; reflexivity. Qed.

Lemma string_app_last_inj (a b : string) (q : Ascii.ascii) :
  a +:+ String q EmptyString = b +:+ String q EmptyString -> a = b.
Proof.
  revert b. induction a as [|x a IH]; intros [|y b]; simpl; intros H.
  - reflexivity.
  - injection H as _ H. destruct b; discriminate H.
  - injection H as _ H. destruct a; discriminate H.
  - injection H as -> H. f_equal. apply IH, H.
Qed.

Lemma py_repr_quote (s : string) :
  (if string_has sq s && negb (string_has dq s) then dq else sq) = sq
  \/ (if string_has sq s && negb (string_has dq s) then dq else sq) = dq.
Proof. destruct (_ && _); auto. Qed.

(** Two identifiers with the same [repr] are equal. *)
Lemma py_repr_inj (a b : string) : py_repr a = py_repr b -> a = b.
Proof.
  unfold py_repr. intros H. injection H as Hq Hbody.
  apply (f_equal unrepr) in Hbody.
  rewrite !unrepr_body in Hbody by (apply py_repr_quote).
  rewrite <- Hq in Hbody. rewrite unrepr_quote in Hbody by (apply py_repr_quote).
  exact (string_app_last_inj a b _ Hbody).
Qed.

Lemma exception_message_inj (p p' : string) :
  exception_message (ImportException p') = exception_message (ImportException p) -> p' = p.
Proof.
  intros H. apply py_repr_inj.
  apply (inj (String.append "Unable to import problem ")).
  unfold exception_message in H. congruence.
Qed.

(** Claim C6 (as amended).  If the configuration is not imported and
    [import_config] fails, [import_problem] raises that exception (not an
    [ImportException]) and leaves the problem state as it was.  Otherwise
    it raises nothing or [ImportException problem]; if the problem file
    cannot be opened the problem state is left as it was, apart from the
    configuration flag; once the file is read, [problem] is set to the
    identifier whatever happens next.  The message of
    [ImportException problem] is ["Unable to import problem " + repr(problem)],
    and it determines [problem]. *)
Theorem import_problem_failure (import_config_ok : bool)
    (read_file : string -> option string) (parse_rows : string -> option (list Row))
    (p : string) (mode : DroneEnergyConsumptionMode) (st : ProblemState) :
  let '(st', e) := import_problem import_config_ok read_file parse_rows p mode st in
  (config_imported st = false -> import_config_ok = false ->
     st' = st /\ e = Some ConfigException) /\
  (config_imported st = true \/ import_config_ok = true ->
     (e = None \/ e = Some (ImportException p)) /\
     (read_file (problem_path p) = None -> st' = set_config_imported st) /\
     (forall data, read_file (problem_path p) = Some data -> problem st' = Some p)) /\
  exception_message (ImportException p) = Some ("Unable to import problem " +:+ py_repr p) /\
  (forall p', exception_message (ImportException p') = exception_message (ImportException p) ->
     p' = p).
Proof.
  unfold import_problem.
  destruct (config_imported st) eqn:Ec; [|destruct import_config_ok].
  3: { split; [intros _ _; split; reflexivity|].
       split; [intros [H|H]; discriminate H|].
       split; [reflexivity|intros p'; apply exception_message_inj]. }
  all: try rewrite (set_config_imported_id st Ec).
  all: destruct (read_file (problem_path p)) as [data|] eqn:Hread;
       repeat match goal with
              | |- context [match ?m with Some _ => _ | None => _ end] => destruct m
              end.
  all: split; [first [intros H1; discriminate H1 | intros H1 H2; discriminate H2]|].
  all: split; [|split; [reflexivity|intros p'; apply exception_message_inj]].
  all: intros _; split; [first [left; reflexivity|right; reflexivity]|].
  all: split; [first [intros H; discriminate H|intros _; reflexivity]|].
  all: intros d Hd; first [reflexivity|discriminate Hd].
Qed.

(** An identifier holding a quote: the problem file cannot be opened, and
    [repr] switches to double quotes. *)
Lemma import_problem_failure_witness :
  let st := mkProblemState false None 0 0 0 0 [] [] [] [] [] [] LINEAR in
  py_repr "it's" = String dq ("it's" +:+ String dq EmptyString) /\
  let '(st', e) := import_problem true (fun _ => None) (fun _ => Some []) "it's" LINEAR st in
  (config_imported st = false -> true = false ->
     st' = st /\ e = Some ConfigException) /\
  (config_imported st = true \/ true = true ->
     (e = None \/ e = Some (ImportException "it's")) /\
     (@None string = None -> st' = set_config_imported st) /\
     (forall data, @None string = Some data -> problem st' = Some "it's")) /\
  exception_message (ImportException "it's")
  = Some ("Unable to import problem " +:+ py_repr "it's") /\
  (forall p', exception_message (ImportException p')
              = exception_message (ImportException "it's") -> p' = "it's").
Proof.
  intros st. split; [reflexivity|].
  exact (import_problem_failure true (fun _ => None) (fun _ => Some []) "it's" LINEAR st).
Defined.

(** Claim C6, as stated, fails: a file with the customer and drone counts
    but without the flight-time line raises [ImportException "p"] after
    [problem], [customers_count], [drones_count] and [technicians_count]
    were overwritten. *)
Lemma import_problem_partial_state :
  let st := mkProblemState true (Some "old") 0 0 0 0 [] [] [] [] [] [] LINEAR in
  let '(st', e) := import_problem true (fun _ => Some "Customers 10 number_drone 2")
                     (fun _ => Some []) "p" LINEAR st in
  e = Some (ImportException "p") /\ problem st' = Some "p" /\ problem st = Some "old" /\
  customers_count st' = 10 /\ drones_count st' = 2 /\ technicians_count st' = 2 /\
  st' <> st.
Proof.
  vm_compute. split; [reflexivity|]. split; [reflexivity|]. split; [reflexivity|].
  split; [reflexivity|]. split; [reflexivity|]. split; [reflexivity|].
  intros H. discriminate H.
Qed.

End ImportProofs.

(* ================================================================= *)
(** ** Proofs: [D2DPathSolution.initial] *)
(* ================================================================= *)

Module InitialProofs.
Import D2D.

(** The customers of a list of indices: the entries other than the
    depot [0]. *)
Definition nz (l : list nat) : list nat := List.filter (fun e => negb (Nat.eqb e 0)) l.

(** A path that leaves the depot and comes back to it. *)
Definition depot_path (p : list nat) : Prop := exists mid, p = 0%nat :: mid ++ [0%nat].

(** The trips of a drone: closed trips, then one open trip that has left
    the depot. *)
Definition drone_ok (paths : list (list nat)) : Prop :=
  exists cl op, paths = cl ++ [0%nat :: op] /\ Forall depot_path cl.

Lemma nz_app (l1 l2 : list nat) : nz (l1 ++ l2) = nz l1 ++ nz l2.
Proof.
  induction l1 as [|a l1 IH]; [reflexivity|]. unfold nz in *. simpl.
  destruct (negb (Nat.eqb a 0)); simpl; rewrite IH; reflexivity.
Qed.

Lemma nz_cons_customer (e : nat) (l : list nat) : e <> 0%nat -> nz (e :: l) = e :: nz l.
Proof.
  intros He. unfold nz. simpl. destruct (Nat.eqb e 0) eqn:E; [apply Nat.eqb_eq in E; lia|].
  reflexivity.
Qed.

Lemma nz_depot (l : list nat) : nz (0%nat :: l) = nz l.
Proof. reflexivity. Qed.

Lemma min_by_fold_in {A} (key : A -> option Q) (P : A -> Prop) (l : list A)
    (acc : option (A * Q)) (p : A * Q) :
  (forall q, acc = Some q -> P q.1) -> Forall P l ->
  fold_left (min_by_step key) l acc = Some p -> P p.1.
Proof.
  revert acc. induction l as [|b l IH]; intros acc Hacc Hl Hf; simpl in Hf.
  - apply Hacc. exact Hf.
  - apply Forall_cons in Hl as [Hb Hl].
    refine (IH _ _ Hl Hf). intros q Hq. unfold min_by_step in Hq.
    destruct acc as [best|]; [|discriminate]. simpl in Hq.
    destruct (key b) as [kb|]; [|discriminate]. simpl in Hq.
    destruct (Qle_bool best.2 kb); injection Hq as <-; [apply Hacc; reflexivity|exact Hb].
Qed.

Lemma min_by_in {A} (key : A -> option Q) (l : list A) (a : A) :
  min_by key l = Some a -> In a l.
Proof.
  destruct l as [|a0 l']; [discriminate|]. simpl.
  destruct (key a0) as [ka|]; [|discriminate]. simpl.
  destruct (fold_left (min_by_step key) l' (Some (a0, ka))) as [best|] eqn:E;
    [|discriminate]. simpl. intros [= <-].
  apply (min_by_fold_in key (fun b => In b (a0 :: l')) l' (Some (a0, ka)) best); [|
    |exact E].
  - intros q [= <-]. left. reflexivity.
  - apply List.Forall_forall. intros b Hb. right. exact Hb.
Qed.

Lemma remove_index_notin (i : nat) (l : list nat) :
  ~ In i l -> remove_index i l = l.
Proof.
  induction l as [|a l IH]; intros Hi; [reflexivity|]. unfold remove_index in *. simpl.
  destruct (Nat.eqb a i) eqn:E.
  - apply Nat.eqb_eq in E. subst. exfalso. apply Hi. left. reflexivity.
  - simpl. rewrite IH; [reflexivity|]. intros H. apply Hi. right. exact H.
Qed.

Lemma remove_index_perm (i : nat) (l : list nat) :
  In i l -> List.NoDup l -> Permutation l (i :: remove_index i l).
Proof.
  induction l as [|a l IH]; intros Hi Hnd; [destruct Hi|].
  inversion Hnd as [|? ? Ha Hnd']; subst.
  unfold remove_index. simpl. destruct (Nat.eqb a i) eqn:E.
  - apply Nat.eqb_eq in E. subst. simpl. fold (remove_index i l).
    rewrite remove_index_notin by exact Ha. reflexivity.
  - simpl. fold (remove_index i l). destruct Hi as [Hi|Hi].
    + subst. rewrite Nat.eqb_refl in E. discriminate.
    + rewrite (IH Hi Hnd') at 1. apply perm_swap.
Qed.

Lemma remove_index_in (i e : nat) (l : list nat) : In e (remove_index i l) -> In e l.
Proof. unfold remove_index. intros H. apply filter_In in H. apply H. Qed.

Lemma remove_index_nodup (i : nat) (l : list nat) :
  List.NoDup l -> List.NoDup (remove_index i l).
Proof. apply List.NoDup_filter. Qed.

Lemma insert_split {A} `{Inhabited A} (ls : list A) (j : nat) (x : A) :
  (j < length ls)%nat ->
  exists pre suf, ls = pre ++ ls !!! j :: suf /\ <[j := x]> ls = pre ++ x :: suf.
Proof.
  intros Hj. exists (take j ls), (drop (S j) ls). split.
  - symmetry. apply take_drop_middle. apply list_lookup_lookup_total_lt. exact Hj.
  - apply insert_take_drop. exact Hj.
Qed.

Lemma append_last_snoc (cl : list (list nat)) (op : list nat) (v : nat) :
  append_last (cl ++ [op]) v = cl ++ [op ++ [v]].
Proof.
  unfold append_last. destruct (cl ++ [op]) eqn:E; [destruct cl; discriminate|].
  rewrite <- E, length_app. simpl. replace (length cl + 1 - 1)%nat with (length cl) by lia.
  rewrite take_app_length, drop_app_length. reflexivity.
Qed.

Lemma insert_before_last_depot (mid : list nat) (v : nat) :
  insert_before_last (0%nat :: mid ++ [0%nat]) v = 0%nat :: (mid ++ [v]) ++ [0%nat].
Proof.
  unfold insert_before_last. simpl. rewrite length_app. simpl.
  replace (length mid + 1 - 0)%nat with (S (length mid)) by lia.
  replace (length mid + 1)%nat with (S (length mid)) by lia. simpl.
  rewrite take_app_length, drop_app_length. rewrite <- !app_assoc. reflexivity.
Qed.

Lemma select_sound (cond : nat -> option bool) (l r : list nat) :
  select cond l = Some r ->
  (forall e, In e r -> In e l /\ cond e = Some true) /\ (List.NoDup l -> List.NoDup r).
Proof.
  revert r. induction l as [|a l IH]; intros r H; simpl in H.
  - injection H as <-. split; [intros e []|intros _; constructor].
  - destruct (cond a) as [b|] eqn:Ea; [|discriminate]. simpl in H.
    destruct (select cond l) as [rest|]; [|discriminate]. simpl in H.
    injection H as <-. destruct (IH rest eq_refl) as [Hin Hnd].
    destruct b; split.
    + intros e [<-|He]; [split; [left; reflexivity|exact Ea]|].
      destruct (Hin e He). split; [right|]; assumption.
    + intros Hl. inversion Hl as [|? ? Ha Hl']; subst. constructor; [|exact (Hnd Hl')].
      intros He. apply Ha. apply (Hin a He).
    + intros e He. destruct (Hin e He). split; [right|]; assumption.
    + intros Hl. inversion Hl; subst. apply Hnd. assumption.
Qed.

Lemma select_partition (f : nat -> option bool) (l t d : list nat) :
  select (fun e => negb <$> f e) l = Some t -> select f l = Some d ->
  Permutation (t ++ d) l.
Proof.
  revert t d. induction l as [|a l IH]; intros t d Ht Hd; simpl in Ht, Hd.
  - injection Ht as <-. injection Hd as <-. reflexivity.
  - destruct (f a) as [b|]; [|discriminate]. simpl in Ht, Hd.
    destruct (select (fun e => negb <$> f e) l) as [t'|]; [|discriminate].
    destruct (select f l) as [d'|]; [|discriminate]. simpl in Ht, Hd.
    injection Ht as <-. injection Hd as <-. specialize (IH t' d' eq_refl eq_refl).
    destruct b; simpl.
    + rewrite <- Permutation_middle. constructor. exact IH.
    + constructor. exact IH.
Qed.

Section Technicians.

Variable distance : nat -> nat -> Q.

Lemma assign_technicians_ok (fuel k : nat) (paths : list (list nat)) (todo : list nat)
    (paths' : list (list nat)) :
  assign_technicians distance fuel k paths todo = Some paths' ->
  Forall (fun p => exists rest, p = 0%nat :: rest) paths ->
  List.NoDup todo -> Forall (fun e => e <> 0%nat) todo ->
  Forall (fun p => exists rest, p = 0%nat :: rest) paths' /\
  Permutation (nz (concat paths')) (nz (concat paths) ++ todo).
Proof.
  revert k paths todo. induction fuel as [|fuel IH]; intros k paths todo H Hp Hnd Hnz;
    (destruct todo as [|t0 todo0]; cbn -[min_by py_last remove_index] in H;
     [injection H as <-; split; [exact Hp|rewrite app_nil_r; reflexivity]|]).
  - discriminate.
  - destruct (Nat.eqb (length paths) 0) eqn:Elen; [discriminate|].
    apply Nat.eqb_neq in Elen.
    set (j := Nat.modulo k (length paths)) in H.
    assert (Hj : (j < length paths)%nat) by (apply Nat.mod_upper_bound; exact Elen).
    destruct (py_last (paths !!! j)) as [l|]; [|discriminate]. cbn -[min_by remove_index] in H.
    destruct (min_by (fun e => Some (distance l e)) (t0 :: todo0)) as [index|] eqn:Emin;
      [|discriminate]. cbn -[remove_index] in H.
    apply min_by_in in Emin.
    destruct (insert_split paths j (paths !!! j ++ [index]) Hj) as (pre & suf & E1 & E2).
    rewrite E2 in H.
    assert (Hpj : exists rest, paths !!! j = 0%nat :: rest).
    { rewrite E1 in Hp. apply Forall_app in Hp as [_ Hp]. apply Forall_cons in Hp as [Hp _].
      exact Hp. }
    assert (Hidx : index <> 0%nat) by (apply (proj1 (List.Forall_forall _ _) Hnz); exact Emin).
    destruct (IH (S k) _ _ H) as [Hp' Hperm].
    + rewrite E1 in Hp. apply Forall_app in Hp as [Hpre Hp]. apply Forall_cons in Hp as [_ Hsuf].
      apply Forall_app. split; [exact Hpre|]. apply Forall_cons. split; [|exact Hsuf].
      destruct Hpj as [rest ->]. exists (rest ++ [index]). reflexivity.
    + apply remove_index_nodup. exact Hnd.
    + apply List.Forall_forall. intros e He. apply remove_index_in in He.
      apply (proj1 (List.Forall_forall _ _) Hnz). exact He.
    + split; [exact Hp'|]. rewrite Hperm.
      transitivity (nz (concat paths) ++ index :: remove_index index (t0 :: todo0));
        [|apply Permutation_app_head; symmetry; apply remove_index_perm; assumption].
      set (P := paths !!! j) in *. rewrite E1.
      rewrite !concat_app. cbn [concat]. rewrite !nz_app.
      rewrite (nz_cons_customer index [] Hidx). cbn [nz List.filter].
      rewrite <- !app_assoc. cbn [app].
      apply Permutation_app_head. apply Permutation_app_head.
      apply Permutation_middle.
Qed.

End Technicians.

Lemma insert_concat {A} `{Inhabited A} (ls : list (list A)) (j : nat) (x : list A) :
  (j < length ls)%nat ->
  exists pre suf, concat ls = pre ++ ls !!! j ++ suf /\ concat (<[j := x]> ls) = pre ++ x ++ suf.
Proof.
  intros Hj. destruct (insert_split ls j x Hj) as (pre & suf & E1 & E2).
  exists (concat pre), (concat suf). rewrite E2. split.
  - rewrite E1 at 1. rewrite concat_app. reflexivity.
  - rewrite concat_app. reflexivity.
Qed.

Section Drones.

Variable drones_count : nat.
Variable demands : list Q.
Variable drones_flight_duration : Q.
Variable energy_mode : DroneEnergyConsumptionMode.
Variables drone_linear_config drone_nonlinear_config : list DroneConfig.
Variable distance : nat -> nat -> Q.
Variable D : list nat.

Lemma assign_drones_ok (fuel k : nat) (dp : list (list (list nat))) (w t e : list Q)
    (tp : list (list nat)) (todo : list nat) (dp' : list (list (list nat)))
    (tp' : list (list nat)) :
  assign_drones drones_count demands drones_flight_duration energy_mode
    drone_linear_config drone_nonlinear_config distance fuel k dp w t e tp todo
  = Some (dp', tp') ->
  length dp = drones_count -> Forall drone_ok dp -> Forall depot_path tp ->
  List.NoDup todo -> Forall (fun x => x <> 0%nat) todo -> (forall x, In x todo -> In x D) ->
  (forall x, In x (concat (concat dp)) -> x = 0%nat \/ In x D) ->
  Forall drone_ok dp' /\ Forall depot_path tp' /\
  (forall x, In x (concat (concat dp')) -> x = 0%nat \/ In x D) /\
  Permutation (nz (concat (concat dp')) ++ nz (concat tp'))
    (nz (concat (concat dp)) ++ nz (concat tp) ++ todo).
Proof.
  revert k dp w t e tp todo.
  induction fuel as [|fuel IH]; intros k dp w t e tp todo H Hlen Hdp Htp Hnd Hnz HD Hel;
    (destruct todo as [|t0 todo0];
     cbn -[min_by py_last remove_index drone_config append_last insert_before_last
           py_second_last py_div] in H;
     [injection H as <- <-; split; [exact Hdp|]; split; [exact Htp|]; split; [exact Hel|];
      rewrite !app_nil_r; reflexivity|]).
  - discriminate.
  - destruct (Nat.eqb drones_count 0) eqn:Edc; [discriminate|].
    apply Nat.eqb_neq in Edc.
    set (drone := Nat.modulo k drones_count) in H.
    assert (Hd : (drone < length dp)%nat) by (rewrite Hlen; apply Nat.mod_upper_bound; exact Edc).
    destruct (drone_config _ _ _ drone) as [config|]; [|discriminate]. cbn -[min_by py_last
      remove_index append_last insert_before_last py_second_last py_div] in H.
    set (P := dp !!! drone) in *.
    destruct (insert_split dp drone [] Hd) as (pre & suf & E1 & _).
    assert (HP : drone_ok P).
    { rewrite E1 in Hdp. apply Forall_app in Hdp as [_ Hdp].
      apply Forall_cons in Hdp as [Hdp _]. exact Hdp. }
    destruct HP as (cl & op & EP & Hcl).
    destruct (last P) as [lastpath|]; [|discriminate]. cbn -[min_by py_last
      remove_index append_last insert_before_last py_second_last py_div] in H.
    destruct (py_last lastpath) as [l|]; [|discriminate]. cbn -[min_by
      remove_index append_last insert_before_last py_second_last py_div] in H.
    destruct (min_by (fun e => Some (distance l e)) (t0 :: todo0)) as [index|] eqn:Emin;
      [|discriminate]. cbn -[min_by
      remove_index append_last insert_before_last py_second_last py_div] in H.
    apply min_by_in in Emin.
    assert (Hidx : index <> 0%nat) by (apply (proj1 (List.Forall_forall _ _) Hnz); exact Emin).
    assert (HidxD : In index D) by (apply HD; exact Emin).
    assert (Hrem_nd : List.NoDup (remove_index index (t0 :: todo0)))
      by (apply remove_index_nodup; exact Hnd).
    assert (Hrem_nz : Forall (fun x => x <> 0%nat) (remove_index index (t0 :: todo0))).
    { apply List.Forall_forall. intros x Hx. apply remove_index_in in Hx.
      apply (proj1 (List.Forall_forall _ _) Hnz). exact Hx. }
    assert (Hrem_D : forall x, In x (remove_index index (t0 :: todo0)) -> In x D).
    { intros x Hx. apply HD. apply (remove_index_in index). exact Hx. }
    assert (Hperm_todo := remove_index_perm index (t0 :: todo0) Emin Hnd).
    destruct (demands !! index) as [dw|]; [|discriminate]. cbn -[min_by
      remove_index append_last insert_before_last py_second_last py_div] in H.
    destruct (py_div _ (takeoff_speed config)) as [takeoff_dt|]; [|discriminate].
    cbn -[min_by remove_index append_last insert_before_last py_second_last py_div] in H.
    destruct (py_div _ (landing_speed config)) as [landing_dt|]; [|discriminate].
    cbn -[min_by remove_index append_last insert_before_last py_second_last py_div] in H.
    destruct (py_div _ (cruise_speed config)) as [cruise_dt|]; [|discriminate].
    cbn -[min_by remove_index append_last insert_before_last py_second_last py_div] in H.
    destruct (_ && _ && _).
    + (* the customer joins the open trip *)
      destruct (insert_concat dp drone (append_last P index) Hd) as (pre2 & suf2 & F1 & F2).
      assert (F1' : concat (concat dp) = concat pre2 ++ concat P ++ concat suf2)
        by (rewrite F1, !concat_app; reflexivity).
      assert (F2' : concat (concat (<[drone := append_last P index]> dp))
                    = concat pre2 ++ concat (append_last P index) ++ concat suf2)
        by (rewrite F2, !concat_app; reflexivity).
      assert (HX : append_last P index = cl ++ [0%nat :: op ++ [index]]).
      { rewrite EP, append_last_snoc. reflexivity. }
      edestruct (IH (S k) _ _ _ _ _ _ H) as (Hdp' & Htp' & Hel' & Hperm).
      * rewrite length_insert. exact Hlen.
      * apply Forall_insert; [exact Hdp|]. rewrite HX. exists cl, (op ++ [index]).
        split; [reflexivity|exact Hcl].
      * exact Htp.
      * exact Hrem_nd.
      * exact Hrem_nz.
      * exact Hrem_D.
      * intros x Hx. rewrite F2', HX, concat_app in Hx. cbn [concat] in Hx.
        rewrite app_nil_r in Hx.
        assert (Hx' : In x (concat pre2 ++ (concat cl ++ 0%nat :: op) ++ concat suf2)
                      \/ x = index).
        { rewrite !in_app_iff in Hx |- *. simpl in Hx |- *. rewrite ?in_app_iff in Hx.
          simpl in Hx. rewrite ?in_app_iff in Hx. simpl in Hx. intuition (subst; auto). }
        destruct Hx' as [Hx' | ->]; [|right; exact HidxD].
        apply Hel. rewrite F1', EP, concat_app. cbn [concat]. rewrite app_nil_r. exact Hx'.
      * split; [exact Hdp'|]. split; [exact Htp'|]. split; [exact Hel'|].
        rewrite Hperm. rewrite Hperm_todo at 2. rewrite F1', F2', HX, EP.
        rewrite !concat_app. cbn [concat]. rewrite !app_nil_r, !nz_app.
        rewrite !nz_depot, !nz_app. rewrite (nz_cons_customer index [] Hidx).
        cbn [nz List.filter]. solve_Permutation.
    + (* the trip is closed and the customer goes to a technician *)
      destruct (min_by _ (seq 0 (length tp))) as [j|] eqn:Ej; [|discriminate].
      cbn -[remove_index append_last insert_before_last] in H.
      apply min_by_in, in_seq in Ej. assert (Hj : (j < length tp)%nat) by lia.
      set (T := tp !!! j) in *.
      assert (HT : depot_path T).
      { destruct (insert_split tp j [] Hj) as (tpre & tsuf & G1 & _).
        rewrite G1 in Htp. apply Forall_app in Htp as [_ Htp].
        apply Forall_cons in Htp as [Htp _]. exact Htp. }
      destruct HT as [mid EM].
      set (X := append_last P 0 ++ [[0%nat]]) in H.
      assert (HX : X = (cl ++ [0%nat :: op ++ [0%nat]]) ++ [[0%nat]]).
      { unfold X. rewrite EP, append_last_snoc. reflexivity. }
      destruct (insert_concat dp drone X Hd) as (pre2 & suf2 & F1 & F2).
      assert (F1' : concat (concat dp) = concat pre2 ++ concat P ++ concat suf2)
        by (rewrite F1, !concat_app; reflexivity).
      assert (F2' : concat (concat (<[drone := X]> dp))
                    = concat pre2 ++ concat X ++ concat suf2)
        by (rewrite F2, !concat_app; reflexivity).
      destruct (insert_concat tp j (insert_before_last T index) Hj)
        as (tpre & tsuf & G1 & G2).
      change (tp !!! j) with T in G1.
      assert (HY : insert_before_last T index = 0%nat :: (mid ++ [index]) ++ [0%nat]).
      { rewrite EM. apply insert_before_last_depot. }
      edestruct (IH (S k) _ _ _ _ _ _ H) as (Hdp' & Htp' & Hel' & Hperm).
      * rewrite length_insert. exact Hlen.
      * apply Forall_insert; [exact Hdp|]. rewrite HX.
        exists (cl ++ [0%nat :: op ++ [0%nat]]), []. split; [reflexivity|].
        apply Forall_app. split; [exact Hcl|]. apply Forall_cons. split; [|constructor].
        exists op. reflexivity.
      * apply Forall_insert; [exact Htp|]. rewrite HY. eexists. reflexivity.
      * exact Hrem_nd.
      * exact Hrem_nz.
      * exact Hrem_D.
      * intros x Hx. rewrite F2', HX, !concat_app in Hx. cbn [concat] in Hx.
        rewrite !app_nil_r in Hx.
        assert (Hx' : In x (concat pre2 ++ (concat cl ++ 0%nat :: op) ++ concat suf2)
                      \/ x = 0%nat).
        { rewrite !in_app_iff in Hx |- *. simpl in Hx |- *. rewrite ?in_app_iff in Hx.
          simpl in Hx. rewrite ?in_app_iff in Hx. simpl in Hx. intuition (subst; auto). }
        destruct Hx' as [Hx' | ->]; [|left; reflexivity].
        apply Hel. rewrite F1', EP, concat_app. cbn [concat]. rewrite app_nil_r. exact Hx'.
      * split; [exact Hdp'|]. split; [exact Htp'|]. split; [exact Hel'|].
        rewrite Hperm. rewrite Hperm_todo at 2. rewrite F1', F2', HX, EP, G1, G2, HY, EM.
        rewrite !concat_app. cbn [concat]. rewrite !app_nil_r, !nz_app.
        rewrite !nz_depot, !nz_app. rewrite (nz_cons_customer index [] Hidx).
        cbn [nz List.filter Nat.eqb negb]. solve_Permutation.
Qed.

End Drones.

Lemma depot_path_ends (p : list nat) : depot_path p -> head p = Some 0%nat /\ last p = Some 0%nat.
Proof.
  intros [mid ->]. split; [reflexivity|]. rewrite app_comm_cons. apply last_snoc.
Qed.

Lemma nz_concat_replicate_depot (n : nat) : nz (concat (replicate n [0%nat])) = [].
Proof. induction n as [|n IH]; [reflexivity|]. exact IH. Qed.

Lemma concat_concat_replicate_trip (n : nat) :
  concat (concat (replicate n [[0%nat]])) = replicate n 0%nat.
Proof. induction n as [|n IH]; [reflexivity|]. simpl. rewrite IH. reflexivity. Qed.

Lemma nz_replicate_depot (n : nat) : nz (replicate n 0%nat) = [].
Proof. induction n as [|n IH]; [reflexivity|]. exact IH. Qed.

Lemma close_technician_paths (tp : list (list nat)) :
  Forall (fun p => exists rest, p = 0%nat :: rest) tp ->
  Forall depot_path (map (fun p => p ++ [0%nat]) tp) /\
  nz (concat (map (fun p => p ++ [0%nat]) tp)) = nz (concat tp).
Proof.
  induction tp as [|p tp IH]; intros Hf; [split; [constructor|reflexivity]|].
  apply Forall_cons in Hf as [[rest ->] Hf]. destruct (IH Hf) as [H1 H2]. split.
  - apply Forall_cons. split; [exists rest; reflexivity|exact H1].
  - cbn [map concat]. rewrite !nz_app, H2. change (nz [0%nat]) with (@nil nat).
    rewrite app_nil_r. reflexivity.
Qed.

Lemma close_drone_paths (dp : list (list (list nat))) :
  Forall drone_ok dp ->
  (forall paths p, In paths (map (fun paths => append_last paths 0) dp) -> In p paths ->
     depot_path p) /\
  (forall x, In x (concat (concat (map (fun paths => append_last paths 0) dp))) ->
     x = 0%nat \/ In x (concat (concat dp))) /\
  nz (concat (concat (map (fun paths => append_last paths 0) dp))) = nz (concat (concat dp)).
Proof.
  induction dp as [|paths dp IH]; intros Hf.
  - split; [intros ? ? []|]. split; [intros ? []|reflexivity].
  - apply Forall_cons in Hf as [(cl & op & -> & Hcl) Hf].
    destruct (IH Hf) as (H1 & H2 & H3). cbn [map]. rewrite append_last_snoc.
    split; [|split].
    + intros paths p [<-|Hin] Hp; [|exact (H1 paths p Hin Hp)].
      apply in_app_iff in Hp as [Hp|[<-|[]]].
      * apply (proj1 (List.Forall_forall _ _) Hcl). exact Hp.
      * exists op. reflexivity.
    + intros x Hx. cbn [concat] in Hx |- *. rewrite !concat_app in Hx |- *.
      cbn [concat] in Hx |- *. rewrite !app_nil_r in Hx |- *. rewrite !in_app_iff in Hx |- *.
      destruct Hx as [[Hx|Hx]|Hx].
      * right. left. left. exact Hx.
      * destruct Hx as [<-|Hx]; [left; reflexivity|].
        apply in_app_iff in Hx as [Hx|[<-|[]]]; [|left; reflexivity].
        right. left. right. right. exact Hx.
      * destruct (H2 x Hx) as [->|Hx']; [left; reflexivity|]. right. right. exact Hx'.
    + cbn [concat]. rewrite !concat_app. cbn [concat]. rewrite !app_nil_r, !nz_app, H3.
      change (nz [0%nat]) with (@nil nat). rewrite app_nil_r. reflexivity.
Qed.

Lemma drop_short_paths (tp : list (list nat)) :
  Forall depot_path tp ->
  nz (concat (List.filter (fun p => Nat.ltb 2 (length p)) tp)) = nz (concat tp).
Proof.
  induction tp as [|p tp IH]; intros Hf; [reflexivity|].
  apply Forall_cons in Hf as [[mid ->] Hf]. simpl.
  destruct (Nat.ltb 2 (S (length (mid ++ [0%nat])))) eqn:E.
  - simpl. rewrite !nz_app, IH by exact Hf. reflexivity.
  - rewrite IH by exact Hf. apply Nat.ltb_ge in E. rewrite length_app in E. simpl in E.
    destruct mid; [|simpl in E; lia]. reflexivity.
Qed.

Lemma seq_customers (e : nat) (n : nat) : In e (seq 1 n) -> e <> 0%nat.
Proof. intros H. apply in_seq in H. lia. Qed.

(** Claim C10.  [initial()] places every customer [1 .. customers_count]
    exactly once over all the paths (the entries other than the depot are
    a permutation of them), every technician-only customer on a
    technician path; every drone trip and every kept technician path
    starts and ends at the depot [0]. *)
Theorem initial_places_every_customer_once (customers_count drones_count technicians_count : nat)
    (dronable : list bool) (demands : list Q) (drones_flight_duration : Q)
    (energy_mode : DroneEnergyConsumptionMode)
    (drone_linear_config drone_nonlinear_config : list DroneConfig)
    (distance : nat -> nat -> Q)
    (drone_paths : list (list (list nat))) (technician_paths : list (list nat)) :
  initial customers_count drones_count technicians_count dronable demands
    drones_flight_duration energy_mode drone_linear_config drone_nonlinear_config distance
  = Some (drone_paths, technician_paths) ->
  Permutation (nz (concat (concat drone_paths) ++ concat technician_paths))
    (seq 1 customers_count) /\
  (forall e, In e (seq 1 customers_count) -> dronable !! e = Some false ->
     exists p, In p technician_paths /\ In e p) /\
  (forall paths p, In paths drone_paths -> In p paths ->
     head p = Some 0%nat /\ last p = Some 0%nat) /\
  (forall p, In p technician_paths -> head p = Some 0%nat /\ last p = Some 0%nat).
Proof.
  intros H. unfold initial in H.
  destruct (select (fun e => negb <$> dronable !! e) (seq 1 customers_count))
    as [T|] eqn:ET; [|discriminate]. cbn -[select assign_technicians assign_drones] in H.
  destruct (assign_technicians distance (length T) 0 (replicate technicians_count [0%nat]) T)
    as [tp1|] eqn:Etech; [|discriminate]. cbn -[select assign_technicians assign_drones] in H.
  destruct (select (fun e => dronable !! e) (seq 1 customers_count))
    as [Dl|] eqn:ED; [|discriminate]. cbn -[select assign_technicians assign_drones] in H.
  set (tp2 := map (fun p => p ++ [0%nat]) tp1) in H.
  destruct (assign_drones drones_count demands drones_flight_duration energy_mode
              drone_linear_config drone_nonlinear_config distance (length Dl) 0
              (replicate drones_count [[0%nat]]) (replicate drones_count 0%Q)
              (replicate drones_count 0%Q) (replicate drones_count 0%Q) tp2 Dl)
    as [[dp1 tp3]|] eqn:Edr; [|discriminate].
  cbn -[select assign_technicians assign_drones] in H. injection H as <- <-.
  destruct (select_sound _ _ _ ET) as [HTin HTnd].
  destruct (select_sound _ _ _ ED) as [HDin HDnd].
  specialize (HTnd (seq_NoDup _ _)). specialize (HDnd (seq_NoDup _ _)).
  pose proof (select_partition _ _ _ _ ET ED) as Hpart.
  (* technicians *)
  destruct (assign_technicians_ok distance _ _ _ _ _ Etech) as [Htp1 Hperm1].
  { apply Forall_replicate. exists []. reflexivity. }
  { exact HTnd. }
  { apply List.Forall_forall. intros e He. apply (seq_customers e customers_count).
    apply (HTin e He). }
  rewrite nz_concat_replicate_depot in Hperm1.
  destruct (close_technician_paths tp1 Htp1) as [Htp2 Hnz2]. fold tp2 in Htp2, Hnz2.
  (* drones *)
  destruct (assign_drones_ok _ _ _ _ _ _ _ Dl _ _ _ _ _ _ _ _ _ _ Edr)
    as (Hdp1 & Htp3 & Hel1 & Hperm2).
  { apply length_replicate. }
  { apply Forall_replicate. exists [], []. split; [reflexivity|constructor]. }
  { exact Htp2. }
  { exact HDnd. }
  { apply List.Forall_forall. intros e He. apply (seq_customers e customers_count).
    apply (HDin e He). }
  { intros x Hx. exact Hx. }
  { intros x Hx. rewrite concat_concat_replicate_trip in Hx. left.
    apply list_elem_of_In, elem_of_replicate in Hx. apply Hx. }
  rewrite concat_concat_replicate_trip, nz_replicate_depot, Hnz2 in Hperm2.
  destruct (close_drone_paths dp1 Hdp1) as (Hends & Hel & Hnzd).
  assert (Hperm : Permutation (nz (concat (concat (map (fun paths => append_last paths 0) dp1))
                                ++ concat (List.filter (fun p => Nat.ltb 2 (length p)) tp3)))
                    (seq 1 customers_count)).
  { rewrite nz_app, Hnzd, drop_short_paths by exact Htp3. rewrite Hperm2. simpl.
    rewrite Hperm1. simpl. exact Hpart. }
  split; [exact Hperm|]. split; [|split].
  - intros e He Hfalse.
    assert (Hin : In e (nz (concat (concat (map (fun paths => append_last paths 0) dp1))
                          ++ concat (List.filter (fun p => Nat.ltb 2 (length p)) tp3))))
      by (apply (Permutation_in _ (Permutation_sym Hperm)); exact He).
    unfold nz in Hin. apply filter_In in Hin as [Hin _].
    apply in_app_iff in Hin as [Hin|Hin].
    + exfalso. destruct (Hel e Hin) as [->|Hin']; [exact (seq_customers 0 _ He eq_refl)|].
      destruct (Hel1 e Hin') as [->|HinD]; [exact (seq_customers 0 _ He eq_refl)|].
      destruct (HDin e HinD) as [_ Htrue]. rewrite Htrue in Hfalse. discriminate.
    + apply in_concat in Hin. exact Hin.
  - intros paths p Hpaths Hp. apply depot_path_ends. exact (Hends paths p Hpaths Hp).
  - intros p Hp. apply filter_In in Hp as [Hp _]. apply depot_path_ends.
    apply (proj1 (List.Forall_forall _ _) Htp3). exact Hp.
Qed.

(** Witness for C10: five customers (2, 3 and 5 dronable, the
    [dronable] list being indexed from the depot), one drone of capacity 2
    and two technicians;
    [initial] returns and its paths cover the customers once. *)
Lemma initial_places_every_customer_once_witness :
  initial 5 1 2 [true; false; true; true; false; true] (repeat 1%Q 6) 100%Q LINEAR
    [mkDroneConfig 1 1 1 1 2 100 (fun _ => 1%Q) (fun _ => 1%Q) (fun _ => 1%Q)]
    [mkDroneConfig 1 1 1 1 2 100 (fun _ => 1%Q) (fun _ => 1%Q) (fun _ => 1%Q)]
    (fun a b => inject_Z (Z.abs (Z.of_nat a - Z.of_nat b)))
  = Some ([[[0; 2; 3; 0]; [0; 0]]], [[0; 1; 0]; [0; 4; 5; 0]])%nat /\
  Permutation (nz (concat (concat [[[0; 2; 3; 0]; [0; 0]]]) ++ concat [[0; 1; 0]; [0; 4; 5; 0]]))%nat
    (seq 1 5).
Proof.
  assert (E : initial 5 1 2 [true; false; true; true; false; true] (repeat 1%Q 6) 100%Q LINEAR
    [mkDroneConfig 1 1 1 1 2 100 (fun _ => 1%Q) (fun _ => 1%Q) (fun _ => 1%Q)]
    [mkDroneConfig 1 1 1 1 2 100 (fun _ => 1%Q) (fun _ => 1%Q) (fun _ => 1%Q)]
    (fun a b => inject_Z (Z.abs (Z.of_nat a - Z.of_nat b)))
    = Some ([[[0; 2; 3; 0]; [0; 0]]], [[0; 1; 0]; [0; 4; 5; 0]])%nat)
    by (vm_compute; reflexivity).
  split; [exact E|].
  exact (proj1 (initial_places_every_customer_once _ _ _ _ _ _ _ _ _ _ _ _ E)).
Defined.

End InitialProofs.

(* ================================================================= *)
(** ** Proofs: [D2DPathSolution.import_problem], continued *)
(* ================================================================= *)

Module ImportExtra.
Import D2D.

Ltac import_cases :=
  repeat match goal with
  | H : context [match ?m with _ => _ end] |- _ => let E := fresh "E" in destruct m eqn:E
  | |- context [match ?m with _ => _ end] => let E := fresh "E" in destruct m eqn:E
  | H : context [if ?b then _ else _] |- _ => let E := fresh "E" in destruct b eqn:E
  end.

(** [import_problem] reads [technicians_count] with the same pattern as
    [drones_count] (["number_drone (\d+)"]): after a successful import the
    two counts are always equal. *)
Theorem import_problem_technicians_count_is_drones_count (import_config_ok : bool)
    (read_file : string -> option string) (parse_rows : string -> option (list Row))
    (p : string) (mode : DroneEnergyConsumptionMode) (st st' : ProblemState) :
  import_problem import_config_ok read_file parse_rows p mode st = (st', None) ->
  technicians_count st' = drones_count st'.
Proof.
  unfold import_problem. intros H. import_cases; try discriminate;
  injection H as <-; reflexivity.
Qed.

(** A successful import of a problem sets every field of the problem
    state: two successful imports of the same problem, from any prior
    states, leave the same state. *)
Theorem import_problem_success_overwrites (ok1 ok2 : bool)
    (read_file : string -> option string) (parse_rows : string -> option (list Row))
    (p : string) (mode : DroneEnergyConsumptionMode) (st1 st2 st1' st2' : ProblemState) :
  import_problem ok1 read_file parse_rows p mode st1 = (st1', None) ->
  import_problem ok2 read_file parse_rows p mode st2 = (st2', None) ->
  st1' = st2'.
Proof.
  unfold import_problem. intros H1 H2. import_cases; try discriminate;
  injection H1 as <-; injection H2 as <-;
  repeat match goal with H : Some _ = Some _ |- _ => injection H as <- end;
  destruct st1, st2; simpl in *; subst; reflexivity.
Qed.

(** A file with all three counts read twice, from a state whose
    configuration was not yet imported. *)
Lemma import_problem_technicians_count_is_drones_count_witness :
  let st := mkProblemState false None 0 0 0 0 [] [] [] [] [] [] LINEAR in
  let rf := fun _ : string =>
    Some "Customers 3 number_drone 2 droneLimitationFightTime(s) 1800" in
  let pr := fun _ : string => Some (@nil Row) in
  import_problem true rf pr "p" LINEAR st
  = (fst (import_problem true rf pr "p" LINEAR st), None) /\
  technicians_count (fst (import_problem true rf pr "p" LINEAR st))
  = drones_count (fst (import_problem true rf pr "p" LINEAR st)).
Proof.
  intros st rf pr.
  assert (H : import_problem true rf pr "p" LINEAR st
              = (fst (import_problem true rf pr "p" LINEAR st), None))
    by (vm_compute; reflexivity).
  split; [exact H|].
  exact (import_problem_technicians_count_is_drones_count true rf pr "p" LINEAR st _ H).
Defined.

(** Two different prior states, one with the configuration still to
    import, give the same state after the same successful import. *)
Lemma import_problem_success_overwrites_witness :
  let st1 := mkProblemState false None 0 0 0 0 [] [] [] [] [] [] LINEAR in
  let st2 := mkProblemState true (Some "q") 7 7 7 7 [1] [1] [1] [false] [1] [1] NON_LINEAR in
  let rf := fun _ : string =>
    Some "Customers 3 number_drone 2 droneLimitationFightTime(s) 1800" in
  let pr := fun _ : string => Some [mkRow 1 2 3 "0" 4 5] in
  import_problem true rf pr "p" LINEAR st1
  = (fst (import_problem true rf pr "p" LINEAR st1), None) /\
  import_problem false rf pr "p" LINEAR st2
  = (fst (import_problem false rf pr "p" LINEAR st2), None) /\
  fst (import_problem true rf pr "p" LINEAR st1) = fst (import_problem false rf pr "p" LINEAR st2).
Proof.
  intros st1 st2 rf pr.
  assert (H1 : import_problem true rf pr "p" LINEAR st1
               = (fst (import_problem true rf pr "p" LINEAR st1), None))
    by (vm_compute; reflexivity).
  assert (H2 : import_problem false rf pr "p" LINEAR st2
               = (fst (import_problem false rf pr "p" LINEAR st2), None))
    by (vm_compute; reflexivity).
  split; [exact H1|]. split; [exact H2|].
  exact (import_problem_success_overwrites true false rf pr "p" LINEAR st1 st2 _ _ H1 H2).
Defined.

End ImportExtra.

(* ================================================================= *)
(** ** Proofs: [D2DPathSolution.drone_arrival_timestamps] *)
(* ================================================================= *)

Module MetricsProofs.
Import D2D D2DMetrics.

Lemma StronglySorted_app {A} (R : A -> A -> Prop) (l1 l2 : list A) :
  StronglySorted R l1 -> StronglySorted R l2 ->
  (forall a b, In a l1 -> In b l2 -> R a b) -> StronglySorted R (l1 ++ l2).
Proof.
  induction l1 as [|a l1 IH]; intros H1 H2 H12; simpl; [exact H2|].
  inversion H1 as [|? ? Hs Hf]; subst. constructor.
  - apply IH; [exact Hs|exact H2|]. intros x y Hx Hy. apply H12; [right|]; assumption.
  - apply List.Forall_forall. intros y Hy. apply in_app_or in Hy as [Hy|Hy].
    + exact (proj1 (List.Forall_forall _ _) Hf y Hy).
    + apply H12; [left; reflexivity|exact Hy].
Qed.

Lemma py_div_nonneg (a b c : Q) : (0 <= a)%Q -> (0 < b)%Q -> py_div a b = Some c -> (0 <= c)%Q.
Proof.
  intros Ha Hb. unfold py_div. destruct (Qeq_bool b 0); [discriminate|].
  intros [= <-]. apply Qle_shift_div_l; [exact Hb|]. rewrite Qmult_0_l. exact Ha.
Qed.

Section Drone.

Variable distance : nat -> nat -> Q.
Variable drone_service_time : list Q.
Hypothesis Hdist : forall a b, (0 <= distance a b)%Q.
Hypothesis Hservice : Forall (fun s => 0 <= s)%Q drone_service_time.
Variable config : DroneConfig.
Hypothesis Hcruise : (0 < cruise_speed config)%Q.
Variable vertical_time : Q.
Hypothesis Hvt : (0 <= vertical_time)%Q.

Lemma path_arrivals_ok (path : list nat) (t : Q) (last : option nat)
    (arr : list Q) (t' : Q) (last' : option nat) :
  path_arrivals distance drone_service_time config vertical_time path t last
  = Some (arr, t', last') ->
  length arr = length path /\ StronglySorted Qle arr /\
  Forall (fun a => t <= a /\ a <= t')%Q arr /\ (t <= t')%Q /\
  (last = None -> arr = [] \/ head arr = Some t) /\
  (last = None -> arr = [] -> last' = None /\ t' = t).
Proof.
  revert t last arr. induction path as [|index path IH]; intros t last arr H; simpl in H.
  - injection H as <- <- <-. split; [reflexivity|]. split; [constructor|].
    split; [constructor|]. split; [apply Qle_refl|]. split; [left; reflexivity|auto].
  - destruct (match last with None => Some t | Some l => _ end) as [t1|] eqn:E1;
      [|discriminate]. simpl in H.
    assert (Ht1 : (t <= t1)%Q).
    { destruct last as [l|].
      - destruct (py_div (distance l index) (cruise_speed config)) as [c|] eqn:Ec;
          [|discriminate]. simpl in E1. injection E1 as <-.
        pose proof (py_div_nonneg _ _ _ (Hdist l index) Hcruise Ec).
        rewrite <- (Qplus_0_r t) at 1. apply Qplus_le_compat; [apply Qle_refl|].
        rewrite <- (Qplus_0_r 0). apply Qplus_le_compat; assumption.
      - injection E1 as <-. apply Qle_refl. }
    destruct (drone_service_time !! index) as [sv|] eqn:Es; [|discriminate]. simpl in H.
    assert (Hsv : (0 <= sv)%Q).
    { apply list_elem_of_lookup_2 in Es. rewrite Forall_forall in Hservice.
      apply Hservice. exact Es. }
    destruct (path_arrivals _ _ _ _ path (t1 + sv)%Q (Some index)) as [[[arr1 t2] l2]|] eqn:Er;
      [|discriminate]. simpl in H. injection H as <- <- <-.
    destruct (IH _ _ _ Er) as (Hlen & Hsort & Hbnd & Hle & _ & _).
    assert (Hts : (t1 <= t1 + sv)%Q).
    { rewrite <- (Qplus_0_r t1) at 1. apply Qplus_le_compat; [apply Qle_refl|exact Hsv]. }
    split; [simpl; rewrite Hlen; reflexivity|]. split.
    { constructor; [exact Hsort|]. apply List.Forall_forall. intros a Ha.
      apply (proj1 (List.Forall_forall _ _) Hbnd) in Ha as [Ha _].
      apply (Qle_trans _ _ _ Hts Ha). }
    split.
    { constructor.
      - split; [exact Ht1|]. apply (Qle_trans _ _ _ Hts Hle).
      - apply List.Forall_forall. intros a Ha.
        apply (proj1 (List.Forall_forall _ _) Hbnd) in Ha as [Ha1 Ha2].
        split; [|exact Ha2]. apply (Qle_trans _ _ _ Ht1 (Qle_trans _ _ _ Hts Ha1)). }
    split; [apply (Qle_trans _ _ _ Ht1 (Qle_trans _ _ _ Hts Hle))|].
    split.
    + intros ->. right. injection E1 as <-. reflexivity.
    + intros _ Hc. discriminate Hc.
Qed.

Lemma paths_arrivals_ok (paths : list (list nat)) (t : Q) (last : option nat)
    (arrs : list (list Q)) :
  paths_arrivals distance drone_service_time config vertical_time paths t last = Some arrs ->
  Forall2 (fun path arrival => length arrival = length path) paths arrs /\
  StronglySorted Qle (concat arrs) /\ Forall (fun a => t <= a)%Q (concat arrs) /\
  (last = None -> concat arrs = [] \/ head (concat arrs) = Some t).
Proof.
  revert t last arrs. induction paths as [|path paths IH]; intros t last arrs H; simpl in H.
  - injection H as <-. split; [constructor|]. split; [constructor|].
    split; [constructor|]. intros _. left. reflexivity.
  - destruct (path_arrivals _ _ _ _ path t last) as [[[arr t1] l1]|] eqn:E; [|discriminate].
    simpl in H.
    destruct (paths_arrivals _ _ _ _ paths t1 l1) as [rest|] eqn:Er; [|discriminate].
    simpl in H. injection H as <-.
    destruct (path_arrivals_ok _ _ _ _ _ _ E) as (Hlen & Hsort & Hbnd & Hle & Hhead & Hempty).
    destruct (IH _ _ _ Er) as (Hf2 & Hsort2 & Hbnd2 & Hhead2).
    split; [constructor; assumption|]. simpl. split.
    { apply StronglySorted_app; [exact Hsort|exact Hsort2|].
      intros a b Ha Hb.
      apply (proj1 (List.Forall_forall _ _) Hbnd) in Ha as [_ Ha].
      apply (proj1 (List.Forall_forall _ _) Hbnd2) in Hb.
      apply (Qle_trans _ _ _ Ha Hb). }
    split.
    { apply List.Forall_app. split.
      - apply List.Forall_forall. intros a Ha.
        exact (proj1 (proj1 (List.Forall_forall _ _) Hbnd a Ha)).
      - apply List.Forall_forall. intros a Ha.
        apply (Qle_trans _ _ _ Hle (proj1 (List.Forall_forall _ _) Hbnd2 a Ha)). }
    intros Hl. destruct (Hhead Hl) as [->|Hh].
    + destruct (Hempty Hl eq_refl) as [-> ->]. simpl. apply Hhead2. reflexivity.
    + right. destruct arr as [|a arr]; [discriminate|]. exact Hh.
Qed.

End Drone.

Lemma vertical_time_nonneg (config : DroneConfig) (a b : Q) :
  (0 <= altitude config)%Q -> (0 < takeoff_speed config)%Q -> (0 < landing_speed config)%Q ->
  py_div 1 (takeoff_speed config) = Some a -> py_div 1 (landing_speed config) = Some b ->
  (0 <= altitude config * (a + b))%Q.
Proof.
  intros Halt Ht Hl Ha Hb.
  pose proof (py_div_nonneg 1 _ _ ltac:(unfold Qle; simpl; lia) Ht Ha).
  pose proof (py_div_nonneg 1 _ _ ltac:(unfold Qle; simpl; lia) Hl Hb).
  apply Qmult_le_0_compat; [exact Halt|]. rewrite <- (Qplus_0_r 0).
  apply Qplus_le_compat; assumption.
Qed.

Definition config_ok (c : DroneConfig) : Prop :=
  (0 <= altitude c /\ 0 < takeoff_speed c /\ 0 < landing_speed c /\ 0 < cruise_speed c)%Q.

(** With non-negative distances and service times and drone
    configurations of positive speeds and non-negative altitude, the
    computed drone arrival timestamps have one entry per visited index of
    each path, and for each drone the timestamps of all its paths, read in
    order, never decrease and start at 0. *)
Theorem drone_arrivals_nondecreasing (energy_mode : DroneEnergyConsumptionMode)
    (drone_linear_config drone_nonlinear_config : list DroneConfig)
    (distance : nat -> nat -> Q) (drone_service_time : list Q)
    (drone_paths : list (list (list nat))) (ts : list (list (list Q))) :
  (forall a b, 0 <= distance a b)%Q ->
  Forall (fun s => 0 <= s)%Q drone_service_time ->
  Forall config_ok drone_linear_config -> Forall config_ok drone_nonlinear_config ->
  drone_arrival_timestamps energy_mode drone_linear_config drone_nonlinear_config distance
    drone_service_time drone_paths = Some ts ->
  Forall2 (Forall2 (fun path arrival => length arrival = length path)) drone_paths ts /\
  Forall (fun arrivals => StronglySorted Qle (concat arrivals) /\
            (concat arrivals = [] \/ head (concat arrivals) = Some 0%Q)) ts.
Proof.
  intros Hdist Hserv Hlin Hnon. unfold drone_arrival_timestamps.
  generalize 0%nat as drone. revert ts.
  induction drone_paths as [|paths dps IH]; intros ts drone H; simpl in H.
  - injection H as <-. split; constructor.
  - destruct (drone_config _ _ _ drone) as [config|] eqn:Ec; [|discriminate]. simpl in H.
    assert (Hok : config_ok config).
    { unfold drone_config in Ec. destruct energy_mode;
        apply list_elem_of_lookup_2 in Ec; apply list_elem_of_In in Ec.
      - exact (proj1 (List.Forall_forall _ _) Hlin _ Ec).
      - exact (proj1 (List.Forall_forall _ _) Hnon _ Ec). }
    destruct Hok as (Halt & Ht & Hl & Hc).
    destruct (py_div 1 (takeoff_speed config)) as [a|] eqn:Ea; [|discriminate]. simpl in H.
    destruct (py_div 1 (landing_speed config)) as [b|] eqn:Eb; [|discriminate]. simpl in H.
    destruct (paths_arrivals _ _ _ _ paths 0 None) as [arrs|] eqn:Ep; [|discriminate].
    simpl in H.
    destruct (drone_arrivals_from _ _ _ _ _ _ dps) as [rest|] eqn:Er; [|discriminate].
    simpl in H. injection H as <-.
    destruct (IH _ _ Er) as [Hf Hs].
    pose proof (vertical_time_nonneg config a b Halt Ht Hl Ea Eb) as Hvt.
    destruct (paths_arrivals_ok distance drone_service_time Hdist Hserv config Hc _ Hvt
                _ _ _ _ Ep) as (Hshape & Hsort & _ & Hhead).
    split; constructor; try assumption. split; [exact Hsort|]. apply Hhead. reflexivity.
Qed.

(** One drone flying the trip [0 -> 1 -> 2 -> 0] on the line metric. *)
Lemma drone_arrivals_nondecreasing_witness :
  let c := mkDroneConfig 1 2 2 4 10 100 (fun _ => 1%Q) (fun _ => 1%Q) (fun _ => 1%Q) in
  let dist := fun a b : nat => inject_Z (Z.abs (Z.of_nat a - Z.of_nat b)) in
  let ts := default [] (drone_arrival_timestamps LINEAR [c] [c] dist [0; 1; 1]%Q
                          [[[0; 1; 2; 0]]]%nat) in
  drone_arrival_timestamps LINEAR [c] [c] dist [0; 1; 1]%Q [[[0; 1; 2; 0]]]%nat = Some ts /\
  Forall2 (Forall2 (fun path arrival => length arrival = length path)) [[[0; 1; 2; 0]]]%nat ts /\
  Forall (fun arrivals => StronglySorted Qle (concat arrivals) /\
            (concat arrivals = [] \/ head (concat arrivals) = Some 0%Q)) ts.
Proof.
  intros c dist ts.
  assert (H : drone_arrival_timestamps LINEAR [c] [c] dist [0; 1; 1]%Q [[[0; 1; 2; 0]]]%nat
              = Some ts) by (vm_compute; reflexivity).
  assert (Hc : Forall config_ok [c])
    by (repeat constructor; unfold Qle, Qlt; simpl; lia).
  split; [exact H|].
  apply (drone_arrivals_nondecreasing LINEAR [c] [c] dist [0; 1; 1]%Q _ ts);
    [intros a b; unfold dist, Qle; simpl; lia
    |repeat constructor; unfold Qle; simpl; lia
    |exact Hc|exact Hc|exact H].
Defined.

End MetricsProofs.

(* ================================================================= *)
(** ** Proofs: [D2DPathSolution.drone_energy_consumption] *)
(* ================================================================= *)

Module EnergyProofs.
Import D2D D2DMetrics MetricsProofs.

Definition power_ok (c : DroneConfig) : Prop :=
  forall w, (0 <= takeoff_power c w /\ 0 <= landing_power c w /\ 0 <= cruise_power c w)%Q.

Section Trip.

Variable distance : nat -> nat -> Q.
Variable demands : list Q.
Hypothesis Hdist : forall a b, (0 <= distance a b)%Q.
Variable config : DroneConfig.
Hypothesis Hcruise : (0 < cruise_speed config)%Q.
Hypothesis Hpower : power_ok config.
Variables takeoff_time landing_time : Q.
Hypothesis Htt : (0 <= takeoff_time)%Q.
Hypothesis Hlt : (0 <= landing_time)%Q.

Lemma trip_consumption_ok (last : nat) (rest : list nat) (weight acc : Q) (r : list Q) :
  trip_consumption distance demands config takeoff_time landing_time last rest weight acc
  = Some r ->
  length r = length rest /\ StronglySorted Qle r /\ Forall (fun e => acc <= e)%Q r.
Proof.
  revert last weight acc r. induction rest as [|index rest IH]; intros last weight acc r H;
    simpl in H.
  - injection H as <-. split; [reflexivity|]. split; constructor.
  - destruct (demands !! last) as [dl|]; [|discriminate]. simpl in H.
    destruct (py_div (distance last index) (cruise_speed config)) as [ct|] eqn:Ec;
      [|discriminate]. simpl in H.
    set (w1 := (weight + dl)%Q) in H.
    set (energy := (takeoff_time * takeoff_power config w1 + landing_time * landing_power config w1
                    + ct * cruise_power config w1)%Q) in H.
    destruct (trip_consumption _ _ _ _ _ index rest w1 (acc + energy)) as [r1|] eqn:Er;
      [|discriminate]. simpl in H. injection H as <-.
    assert (He : (0 <= energy)%Q).
    { pose proof (py_div_nonneg _ _ _ (Hdist last index) Hcruise Ec) as Hct.
      destruct (Hpower w1) as (P1 & P2 & P3). subst energy.
      rewrite <- (Qplus_0_r 0), <- (Qplus_0_r (0 + 0)).
      apply Qplus_le_compat; [apply Qplus_le_compat|]; apply Qmult_le_0_compat; assumption. }
    assert (Hacc : (acc <= acc + energy)%Q).
    { rewrite <- (Qplus_0_r acc) at 1. apply Qplus_le_compat; [apply Qle_refl|exact He]. }
    destruct (IH _ _ _ _ Er) as (Hlen & Hsort & Hbnd).
    split; [simpl; rewrite Hlen; reflexivity|]. split.
    + constructor; assumption.
    + constructor; [exact Hacc|]. apply List.Forall_forall. intros e He'.
      exact (Qle_trans _ _ _ Hacc (proj1 (List.Forall_forall _ _) Hbnd e He')).
Qed.

Lemma path_consumption_ok (path : list nat) (c : list Q) :
  path_consumption distance demands config takeoff_time landing_time path = Some c ->
  length c = Nat.max 1 (length path) /\ head c = Some 0%Q /\ StronglySorted Qle c.
Proof.
  destruct path as [|first rest]; simpl.
  - intros [= <-]. split; [reflexivity|]. split; [reflexivity|]. repeat constructor.
  - destruct (trip_consumption _ _ _ _ _ first rest 0 0) as [r|] eqn:E; [|discriminate].
    simpl. intros [= <-].
    destruct (trip_consumption_ok _ _ _ _ _ E) as (Hlen & Hsort & Hbnd).
    split; [simpl; rewrite Hlen; lia|]. split; [reflexivity|]. constructor; assumption.
Qed.

End Trip.

(** With non-negative distances, positive speeds, non-negative altitude
    and non-negative power functions, the energy consumption of each drone
    path is a list with one entry per index of the path (one for an empty
    path), starting at 0 and never decreasing. *)
Theorem drone_energy_consumption_shape (energy_mode : DroneEnergyConsumptionMode)
    (drone_linear_config drone_nonlinear_config : list DroneConfig)
    (distance : nat -> nat -> Q) (demands : list Q)
    (drone_paths : list (list (list nat))) (es : list (list (list Q))) :
  (forall a b, 0 <= distance a b)%Q ->
  Forall (fun c => config_ok c /\ power_ok c) drone_linear_config ->
  Forall (fun c => config_ok c /\ power_ok c) drone_nonlinear_config ->
  drone_energy_consumption energy_mode drone_linear_config drone_nonlinear_config distance
    demands drone_paths = Some es ->
  Forall2 (Forall2 (fun path c =>
             length c = Nat.max 1 (length path) /\ head c = Some 0%Q /\
             StronglySorted Qle c)) drone_paths es.
Proof.
  intros Hdist Hlin Hnon. unfold drone_energy_consumption. revert es.
  generalize 0%nat at 1 as drone. intros drone es. revert drone es.
  induction drone_paths as [|paths dps IH]; intros drone es H; simpl in H.
  - injection H as <-. constructor.
  - destruct (drone_config _ _ _ drone) as [config|] eqn:Ec; [|discriminate]. simpl in H.
    assert (Hok : config_ok config /\ power_ok config).
    { unfold drone_config in Ec. destruct energy_mode;
        apply list_elem_of_lookup_2 in Ec; apply list_elem_of_In in Ec.
      - exact (proj1 (List.Forall_forall _ _) Hlin _ Ec).
      - exact (proj1 (List.Forall_forall _ _) Hnon _ Ec). }
    destruct Hok as [(Halt & Ht & Hl & Hc) Hp].
    destruct (py_div (altitude config) (takeoff_speed config)) as [tt|] eqn:Et;
      [|discriminate]. simpl in H.
    destruct (py_div (altitude config) (landing_speed config)) as [lt|] eqn:El;
      [|discriminate]. simpl in H.
    destruct (mapM _ paths) as [r|] eqn:Em; [|discriminate]. simpl in H.
    destruct (drone_energy_from _ _ _ _ _ _ dps) as [rest|] eqn:Er; [|discriminate].
    simpl in H. injection H as <-.
    constructor; [|exact (IH _ _ Er)].
    apply mapM_Some in Em. eapply Forall2_impl; [exact Em|].
    intros path c Hpc.
    exact (path_consumption_ok distance demands Hdist config Hc Hp tt lt
             (py_div_nonneg _ _ _ Halt Ht Et) (py_div_nonneg _ _ _ Halt Hl El) path c Hpc).
Qed.

(** One drone flying two trips, one of them empty, on the line metric. *)
Lemma drone_energy_consumption_shape_witness :
  let c := mkDroneConfig 1 2 2 4 10 100 (fun _ => 1%Q) (fun _ => 1%Q) (fun _ => 1%Q) in
  let dist := fun a b : nat => inject_Z (Z.abs (Z.of_nat a - Z.of_nat b)) in
  let es := default [] (drone_energy_consumption NON_LINEAR [c] [c] dist [0; 2; 3]%Q
                          [[[0; 1; 2; 0]; []]]%nat) in
  drone_energy_consumption NON_LINEAR [c] [c] dist [0; 2; 3]%Q [[[0; 1; 2; 0]; []]]%nat
  = Some es /\
  Forall2 (Forall2 (fun path c =>
             length c = Nat.max 1 (length path) /\ head c = Some 0%Q /\
             StronglySorted Qle c)) [[[0; 1; 2; 0]; []]]%nat es.
Proof.
  intros c dist es.
  assert (H : drone_energy_consumption NON_LINEAR [c] [c] dist [0; 2; 3]%Q
                [[[0; 1; 2; 0]; []]]%nat = Some es) by (vm_compute; reflexivity).
  assert (Hc : Forall (fun c => config_ok c /\ power_ok c) [c]).
  { repeat constructor; unfold Qle, Qlt; simpl; lia. }
  split; [exact H|].
  apply (drone_energy_consumption_shape NON_LINEAR [c] [c] dist [0; 2; 3]%Q _ es);
    [intros a b; unfold dist, Qle; simpl; lia|exact Hc|exact Hc|exact H].
Defined.

End EnergyProofs.

(* ================================================================= *)
(** ** Proofs: the [timespan] of [D2DPathSolution.__init__] *)
(* ================================================================= *)

Module TimespanProofs.
Import D2D D2DMetrics.

Lemma py_max_ge (a b : Q) : (a <= py_max a b /\ b <= py_max a b)%Q /\ (py_max a b = a \/ py_max a b = b).
Proof.
  unfold py_max. destruct (Qle_bool b a) eqn:E.
  - apply Qle_bool_imp_le in E. split; [split; [apply Qle_refl|exact E]|left; reflexivity].
  - split; [|right; reflexivity]. split; [|apply Qle_refl].
    apply Qlt_le_weak, Qnot_le_lt. intros H. apply Qle_bool_iff in H. congruence.
Qed.

(** [fold_left py_max l a] is at least [a] and every element of [l], and
    is one of them. *)
Lemma fold_py_max (l : list Q) (a : Q) :
  (a <= fold_left py_max l a)%Q /\ (forall b, In b l -> b <= fold_left py_max l a)%Q /\
  In (fold_left py_max l a) (a :: l).
Proof.
  revert a. induction l as [|b l IH]; intros a; simpl.
  - split; [apply Qle_refl|]. split; [intros _ []|left; reflexivity].
  - destruct (IH (py_max a b)) as (H1 & H2 & H3).
    destruct (py_max_ge a b) as [[Ha Hb] Hab].
    split; [exact (Qle_trans _ _ _ Ha H1)|]. split.
    + intros c [<-|Hc]; [exact (Qle_trans _ _ _ Hb H1)|exact (H2 c Hc)].
    + destruct H3 as [H3|H3]; [|right; right; exact H3].
      rewrite <- H3. destruct Hab as [-> | ->]; [left|right; left]; reflexivity.
Qed.

Definition drone_end (dts : list (list (list Q))) (e : Q) : Prop :=
  exists paths path, In paths dts /\ In path paths /\ last path = Some e.

Definition technician_end (tts : list (list Q)) (e : Q) : Prop :=
  exists path, In path tts /\ last path = Some e.

Lemma timespan_technicians_ok (tts : list (list Q)) (t0 t : Q) :
  timespan_technicians t0 tts = Some t ->
  (t0 <= t)%Q /\ (forall e, technician_end tts e -> e <= t)%Q /\
  (t = t0 \/ technician_end tts t).
Proof.
  revert t0. induction tts as [|path tts IH]; intros t0 H; simpl in H.
  - injection H as <-. split; [apply Qle_refl|]. split; [|left; reflexivity].
    intros e (p & [] & _).
  - destruct (last path) as [e0|] eqn:E; [|discriminate]. simpl in H.
    destruct (IH _ H) as (H1 & H2 & H3). destruct (py_max_ge t0 e0) as [[Ha Hb] Hab].
    split; [exact (Qle_trans _ _ _ Ha H1)|]. split.
    + intros e (p & [<-|Hp] & He).
      * rewrite E in He. injection He as <-. exact (Qle_trans _ _ _ Hb H1).
      * apply H2. exists p. split; assumption.
    + destruct H3 as [->|(p & Hp & He)].
      * destruct Hab as [-> | ->]; [left; reflexivity|]. right. exists path.
        split; [left; reflexivity|exact E].
      * right. exists p. split; [right; exact Hp|exact He].
Qed.

Lemma timespan_drones_ok (dts : list (list (list Q))) (t0 t : Q) :
  timespan_drones t0 dts = Some t ->
  (t0 <= t)%Q /\ (forall e, drone_end dts e -> e <= t)%Q /\
  (t = t0 \/ drone_end dts t).
Proof.
  revert t0. induction dts as [|paths dts IH]; intros t0 H; simpl in H.
  - injection H as <-. split; [apply Qle_refl|]. split; [|left; reflexivity].
    intros e (ps & p & [] & _).
  - destruct (mapM last paths) as [ends|] eqn:Em; [|discriminate]. simpl in H.
    destruct ends as [|m0 ends]; [discriminate|]. simpl in H.
    apply mapM_Some in Em.
    destruct (IH _ H) as (H1 & H2 & H3).
    set (m := fold_left py_max ends m0) in *.
    destruct (fold_py_max ends m0) as (F1 & F2 & F3). fold m in F1, F2, F3.
    destruct (py_max_ge t0 m) as [[Ha Hb] Hab].
    assert (Hends : forall path e, In path paths -> last path = Some e -> In e (m0 :: ends)).
    { clear -Em. revert ends m0 Em. induction paths as [|p paths IH]; intros ends m0 Em path e Hin He;
        [destruct Hin|].
      inversion Em as [|? ? ? ? Hp Hrest]; subst.
      destruct Hin as [<-|Hin].
      - rewrite He in Hp. injection Hp as <-. left. reflexivity.
      - destruct ends as [|m1 ends]; [inversion Hrest; subst; destruct Hin|].
        right. exact (IH _ _ Hrest path e Hin He). }
    assert (Hin : forall e, In e (m0 :: ends) -> exists path, In path paths /\ last path = Some e).
    { clear -Em. revert ends m0 Em. induction paths as [|p paths IH]; intros ends m0 Em e He;
        [inversion Em|].
      inversion Em as [|? ? ? ? Hp Hrest]; subst.
      destruct He as [<-|He]; [exists p; split; [left; reflexivity|exact Hp]|].
      destruct ends as [|m1 ends]; [destruct He|].
      destruct (IH _ _ Hrest e He) as (q & Hq & Hqe). exists q. split; [right; exact Hq|exact Hqe]. }
    split; [exact (Qle_trans _ _ _ Ha H1)|]. split.
    + intros e (ps & p & [<-|Hps] & Hp & He).
      * apply (Hends p e Hp) in He.
        assert (Hem : (e <= m)%Q) by (destruct He as [<-|He]; [exact F1|exact (F2 e He)]).
        exact (Qle_trans _ _ _ (Qle_trans _ _ _ Hem Hb) H1).
      * apply H2. exists ps, p. auto.
    + destruct H3 as [->|(ps & p & Hps & Hp & He)].
      * destruct Hab as [-> | ->]; [left; reflexivity|]. right.
        destruct (Hin m F3) as (p & Hp & He). exists paths, p. split; [left; reflexivity|auto].
      * right. exists ps, p. split; [right; exact Hps|auto].
Qed.

(** The [timespan] computed by [D2DPathSolution.__init__] is
    non-negative, at least the last arrival of every drone path and every
    technician path, and is 0 or one of those last arrivals. *)
Theorem init_timespan_bounds (dts : list (list (list Q))) (tts : list (list Q)) (t : Q) :
  init_timespan dts tts = Some t ->
  (0 <= t)%Q /\
  (forall e, drone_end dts e -> e <= t)%Q /\
  (forall e, technician_end tts e -> e <= t)%Q /\
  (t = 0%Q \/ drone_end dts t \/ technician_end tts t).
Proof.
  unfold init_timespan. destruct (timespan_drones 0 dts) as [t1|] eqn:E1; [|discriminate].
  simpl. intros H.
  destruct (timespan_drones_ok _ _ _ E1) as (D1 & D2 & D3).
  destruct (timespan_technicians_ok _ _ _ H) as (T1 & T2 & T3).
  split; [exact (Qle_trans _ _ _ D1 T1)|]. split.
  - intros e He. exact (Qle_trans _ _ _ (D2 e He) T1).
  - split; [exact T2|]. destruct T3 as [->|T3]; [|right; right; exact T3].
    destruct D3 as [->|D3]; [left; reflexivity|right; left; exact D3].
Qed.

(** Two drones (the second with two paths) and two technicians. *)
Lemma init_timespan_bounds_witness :
  let dts := [[[0; 5; 9]]; [[0; 2]; [3; 7]]]%Q in
  let tts := [[0; 4]; [0; 12]]%Q in
  let t := default 0%Q (init_timespan dts tts) in
  init_timespan dts tts = Some t /\
  (0 <= t)%Q /\
  (forall e, drone_end dts e -> e <= t)%Q /\
  (forall e, technician_end tts e -> e <= t)%Q /\
  (t = 0%Q \/ drone_end dts t \/ technician_end tts t).
Proof.
  intros dts tts t.
  assert (H : init_timespan dts tts = Some t) by (vm_compute; reflexivity).
  split; [exact H|]. exact (init_timespan_bounds dts tts t H).
Defined.

End TimespanProofs.

(* ================================================================= *)
(** ** Proofs: [D2DPathSolution.distance] *)
(* ================================================================= *)

Module GeometryProofs.
Import D2DGeometry.
Local Open Scope R_scope.

Lemma distance_dist_euc (x y : list R) (i j : nat) (xi xj yi yj : R) :
  x !! i = Some xi -> x !! j = Some xj -> y !! i = Some yi -> y !! j = Some yj ->
  distance x y i j = Some (dist_euc xi yi xj yj).
Proof.
  intros Hxi Hxj Hyi Hyj. unfold distance. rewrite Hxi, Hxj, Hyi, Hyj. simpl.
  unfold dist_euc, Rsqr. f_equal. f_equal. ring.
Qed.

(** For indices within both coordinate tables, [distance] returns a
    value and is a metric on them: symmetric, non-negative, zero from an
    index to itself, and satisfying the triangle inequality. *)
Theorem distance_is_metric (x y : list R) (i j k : nat) :
  (i < length x)%nat -> (j < length x)%nat -> (k < length x)%nat ->
  (i < length y)%nat -> (j < length y)%nat -> (k < length y)%nat ->
  exists dij dji dik dkj dii,
    distance x y i j = Some dij /\ distance x y j i = Some dji /\
    distance x y i k = Some dik /\ distance x y k j = Some dkj /\
    distance x y i i = Some dii /\
    dij = dji /\ 0 <= dij /\ dii = 0 /\ dij <= dik + dkj.
Proof.
  intros Hxi Hxj Hxk Hyi Hyj Hyk.
  destruct (lookup_lt_is_Some_2 x i Hxi) as [xi Exi].
  destruct (lookup_lt_is_Some_2 x j Hxj) as [xj Exj].
  destruct (lookup_lt_is_Some_2 x k Hxk) as [xk Exk].
  destruct (lookup_lt_is_Some_2 y i Hyi) as [yi Eyi].
  destruct (lookup_lt_is_Some_2 y j Hyj) as [yj Eyj].
  destruct (lookup_lt_is_Some_2 y k Hyk) as [yk Eyk].
  exists (dist_euc xi yi xj yj), (dist_euc xj yj xi yi), (dist_euc xi yi xk yk),
    (dist_euc xk yk xj yj), (dist_euc xi yi xi yi).
  rewrite !(distance_dist_euc x y _ _ _ _ _ _) by eassumption.
  repeat split.
  - apply distance_symm.
  - apply sqrt_pos.
  - apply distance_refl.
  - apply triangle.
Qed.

(** The points (0, 0) and (3, 4) of a two-customer instance. *)
Lemma distance_is_metric_witness :
  exists dij dji dik dkj dii,
    distance [0; 3] [0; 4] 0 1 = Some dij /\ distance [0; 3] [0; 4] 1 0 = Some dji /\
    distance [0; 3] [0; 4] 0 1 = Some dik /\ distance [0; 3] [0; 4] 1 1 = Some dkj /\
    distance [0; 3] [0; 4] 0 0 = Some dii /\
    dij = dji /\ 0 <= dij /\ dii = 0 /\ dij <= dik + dkj.
Proof.
  apply (distance_is_metric [0; 3] [0; 4] 0 1 1); simpl; lia.
Defined.

End GeometryProofs.

(* ================================================================= *)
(** ** Proofs: the bundles of [Swap.find_best_candidate] *)
(* ================================================================= *)

Module ShardProofs.
Import Tsp.

(** The moves at the positions [j] of [ms] with [(t + j) mod c = i]. *)
Fixpoint dealt_to (c i t : nat) (ms : list move) : list move :=
  match ms with
  | [] => []
  | m :: ms' => (if Nat.eqb (Nat.modulo t c) i then [m] else []) ++ dealt_to c i (S t) ms'
  end.

Lemma deal_lookup (c t : nat) (ms : list move) (args : list (list move)) (i : nat) :
  (0 < c)%nat -> length args = c -> (i < c)%nat ->
  deal c t ms args !! i = Some (args !!! i ++ dealt_to c i t ms).
Proof.
  intros Hc. revert t args. induction ms as [|m ms IH]; intros t args Hlen Hi; simpl.
  - rewrite app_nil_r. apply list_lookup_lookup_total_lt. lia.
  - rewrite IH by (rewrite ?length_insert; lia).
    assert (Ht : (Nat.modulo t c < length args)%nat) by (rewrite Hlen; apply Nat.mod_upper_bound; lia).
    destruct (Nat.eqb (Nat.modulo t c) i) eqn:E.
    + apply Nat.eqb_eq in E. subst i.
      rewrite list_lookup_total_insert by exact Ht. rewrite decide_True by auto. rewrite <- app_assoc. reflexivity.
    + apply Nat.eqb_neq in E.
      rewrite list_lookup_total_insert_ne by exact E. reflexivity.
Qed.

Lemma dealt_to_filter (c i t : nat) (ms : list move) :
  dealt_to c i t ms
  = map (fun j => ms !!! j)
      (List.filter (fun j => Nat.eqb (Nat.modulo (t + j) c) i) (seq 0 (length ms))).
Proof.
  revert t. induction ms as [|m ms IH]; intros t; [reflexivity|].
  cbn [dealt_to length]. rewrite IH.
  cbn [seq]. rewrite <- seq_shift. cbn [List.filter]. rewrite Nat.add_0_r.
  assert (G : forall l : list nat,
    map (fun j => ms !!! j) (List.filter (fun j => Nat.eqb (Nat.modulo (S t + j) c) i) l)
    = map (fun j => (m :: ms) !!! j)
        (List.filter (fun j => Nat.eqb (Nat.modulo (t + j) c) i) (map S l))).
  { induction l as [|j l IHl]; [reflexivity|]. cbn [map List.filter].
    replace (t + S j)%nat with (S t + j)%nat by lia.
    destruct (Nat.eqb _ i); cbn [map]; rewrite IHl; reflexivity. }
  rewrite G. destruct (Nat.eqb (Nat.modulo t c) i); reflexivity.
Qed.

(** For a positive [concurrency], the moves are dealt round-robin: there
    are [concurrency] bundles and bundle [i] holds the moves at the
    positions [j] with [j mod concurrency = i], in their order. *)
Theorem shards_round_robin (c : nat) (ms : list move) (i : nat) :
  (0 < c)%nat -> (i < c)%nat ->
  length (shards c ms) = c /\
  shards c ms !! i
  = Some (map (fun j => ms !!! j)
            (List.filter (fun j => Nat.eqb (Nat.modulo j c) i) (seq 0 (length ms)))).
Proof.
  intros Hc Hi. split.
  - unfold shards. assert (G : forall t args, length (deal c t ms args) = length args).
    { induction ms as [|m ms IH]; intros t args; [reflexivity|]. simpl.
      rewrite IH, length_insert. reflexivity. }
    rewrite G, length_replicate. reflexivity.
  - unfold shards. rewrite deal_lookup by (rewrite ?length_replicate; lia).
    rewrite lookup_total_replicate_2 by lia. simpl. rewrite dealt_to_filter. reflexivity.
Qed.

(** Five moves dealt to two workers; the second gets the 2nd and 4th. *)
Lemma shards_round_robin_witness :
  let ms : list move := [(0, 0, 1, 1); (0, 0, 2, 2); (1, 1, 2, 2); (1, 1, 3, 3); (2, 2, 3, 3)]%nat in
  (0 < 2)%nat /\ (1 < 2)%nat /\
  length (shards 2 ms) = 2%nat /\
  shards 2 ms !! 1%nat
  = Some (map (fun j => ms !!! j)
            (List.filter (fun j => Nat.eqb (Nat.modulo j 2) 1) (seq 0 (length ms)))).
Proof.
  intros ms. split; [lia|]. split; [lia|].
  apply (shards_round_robin 2 ms 1); lia.
Defined.

End ShardProofs.

(* ================================================================= *)
(** ** Proofs: the result of [Swap.find_best_candidate] *)
(* ================================================================= *)

Module FindBestProofs.
Import Tsp.

Lemma sequential_best_None (eval : move -> PathSolution) (ms : list move) :
  sequential_best eval ms = None -> ms = [].
Proof. destruct ms; [reflexivity|discriminate]. Qed.

(** [Swap.find_best_candidate] returns a solution only as the result of
    one of the enumerated moves, and then records that move in the tabu
    memory; it returns nothing, with the tabu memory unchanged, only when
    no move is enumerated. *)
Theorem find_best_candidate_tabu (distances : nat -> nat -> Z) (fl sl c : nat)
    (path : list nat) (s : PathSolution) (t : TabuMemory) :
  (0 < c)%nat ->
  match find_best_candidate distances fl sl c path s t with
  | (Some r, t') => exists m, In m (swap_moves fl sl path) /\ r = swap distances s m /\
                              t' = add_to_tabu swap_maxlen t m
  | (None, t') => t' = t /\ swap_moves fl sl path = []
  end.
Proof.
  intros Hc.
  pose proof (ReduceProofs.find_best_move_cost distances fl sl c path s Hc) as Hcost.
  unfold find_best_candidate.
  destruct (reduce_results _) as [[r m]|] eqn:E.
  - exists m. destruct (ReduceProofs.find_best_move_mem distances fl sl c path s r m Hc E)
      as [Hin ->].
    split; [exact Hin|]. split; reflexivity.
  - split; [reflexivity|]. unfold find_best_move in Hcost. rewrite E in Hcost.
    apply (sequential_best_None (swap distances s)).
    destruct (sequential_best _ _); [discriminate|reflexivity].
Qed.

(** The enumeration of [Swap.find_best_candidate] yields
    [n * (n + 1 - first_length - second_length)] moves for a path of [n]
    nodes (none when the two segments do not fit). *)
Theorem swap_moves_length (first_length second_length : nat) (path : list nat) :
  length (swap_moves first_length second_length path)
  = (length path * (length path + 1 - first_length - second_length))%nat.
Proof.
  unfold swap_moves. rewrite length_flat_map.
  set (k := Z.to_nat _).
  assert (Hk : k = (length path + 1 - first_length - second_length)%nat) by (subst k; lia).
  rewrite (map_ext _ (fun _ => k)) by (intros x; rewrite length_map, length_seq; reflexivity).
  rewrite <- Hk. generalize (length path). intros n.
  assert (G : forall a, list_sum (map (fun _ : nat => k) (seq a n)) = (n * k)%nat).
  { induction n as [|n IH]; intros a; [reflexivity|]. simpl. rewrite IH. lia. }
  apply G.
Qed.

(** A five-node tour searched with two worker slots. *)
Lemma find_best_candidate_tabu_witness :
  let path := [0; 1; 2; 3; 4]%nat in
  let dist := fun a b : nat => Z.of_nat (a * b + 1) in
  let s := mkPathSolution (links_after path) (links_before path)
                          (tour_cost dist (links_after path)) in
  (0 < 2)%nat /\
  match find_best_candidate dist 1 1 2 path s empty_tabu with
  | (Some r, t') => exists m, In m (swap_moves 1 1 path) /\ r = swap dist s m /\
                              t' = add_to_tabu swap_maxlen empty_tabu m
  | (None, t') => t' = empty_tabu /\ swap_moves 1 1 path = []
  end.
Proof.
  intros path dist s. split; [lia|].
  apply (find_best_candidate_tabu dist 1 1 2 path s empty_tabu). lia.
Defined.

End FindBestProofs.

(* ================================================================= *)
(** ** Proofs: [Swap.swap] keeps the links of a tour *)
(* ================================================================= *)

Module SwapLinkProofs.
Import Tsp.

(** [after] and [before] are mutually inverse maps of the nodes [0 .. n-1]. *)
Definition links_ok (n : nat) (succ pred : list nat) : Prop :=
  length succ = n /\ length pred = n /\
  forall v, (v < n)%nat ->
    (succ !!! v < n)%nat /\ pred !!! (succ !!! v) = v /\
    (pred !!! v < n)%nat /\ succ !!! (pred !!! v) = v.

(** A sequence of list assignments [l[k] = v]. *)
Definition upd (l : list nat) (kvs : list (nat * nat)) : list nat :=
  fold_left (fun l kv => <[kv.1 := kv.2]> l) kvs l.

Definition flip_pairs (kvs : list (nat * nat)) : list (nat * nat) :=
  map (fun kv => (kv.2, kv.1)) kvs.

Lemma upd_length l kvs : length (upd l kvs) = length l.
Proof.
  revert l. induction kvs as [|[k v] kvs IH]; intros l; [reflexivity|].
  simpl. rewrite IH, length_insert. reflexivity.
Qed.

Lemma upd_notin l kvs k : ~ In k (map fst kvs) -> upd l kvs !!! k = l !!! k.
Proof.
  revert l. induction kvs as [|[k0 v0] kvs IH]; intros l Hk; [reflexivity|].
  simpl in *. rewrite IH by tauto. apply list_lookup_total_insert_ne. intros ->. tauto.
Qed.

Lemma upd_in l kvs k v :
  (k < length l)%nat -> NoDup (map fst kvs) -> In (k, v) kvs -> upd l kvs !!! k = v.
Proof.
  revert l. induction kvs as [|[k0 v0] kvs IH]; intros l Hk Hnd Hin; [destruct Hin|].
  simpl in *. apply NoDup_cons in Hnd as [Hnot Hnd].
  destruct Hin as [Heq|Hin].
  - injection Heq as <- <-. rewrite upd_notin.
    + rewrite list_lookup_total_insert by exact Hk. apply decide_True. auto.
    + intros Hin. apply Hnot, list_elem_of_In, Hin.
  - apply IH; [rewrite length_insert; exact Hk|exact Hnd|exact Hin].
Qed.

Lemma in_keys (kvs : list (nat * nat)) (k : nat) : In k (map fst kvs) -> exists v, In (k, v) kvs.
Proof.
  intros Hk. apply in_map_iff in Hk as [[k' v] [Hk Hin]]. simpl in Hk. subst k'.
  exists v. exact Hin.
Qed.

Lemma flip_pairs_fst kvs : map fst (flip_pairs kvs) = map snd kvs.
Proof. unfold flip_pairs. rewrite map_map. reflexivity. Qed.

Lemma in_flip_pairs kvs k v : In (k, v) kvs -> In (v, k) (flip_pairs kvs).
Proof. intros H. unfold flip_pairs. apply in_map_iff. exists (k, v). auto. Qed.

(** Reassigning the successors of the keys [K] to values [V] that are the
    old successors of [K] in another order, and the predecessors of [V]
    accordingly, keeps [after] and [before] mutually inverse. *)
Lemma upd_links_ok n succ pred kvs :
  links_ok n succ pred ->
  NoDup (map fst kvs) -> NoDup (map snd kvs) ->
  Forall (fun kv => kv.1 < n /\ kv.2 < n)%nat kvs ->
  (forall w, In w (map snd kvs) <-> In w (map (fun kv => succ !!! kv.1) kvs)) ->
  links_ok n (upd succ kvs) (upd pred (flip_pairs kvs)).
Proof.
  intros (Hls & Hlp & Hinv) HK HV Hb Hset.
  rewrite List.Forall_forall in Hb.
  assert (HV' : NoDup (map fst (flip_pairs kvs))) by (rewrite flip_pairs_fst; exact HV).
  split; [rewrite upd_length; exact Hls|].
  split; [rewrite upd_length; exact Hlp|].
  intros v Hv.
  assert (Fwd : (upd succ kvs !!! v < n)%nat /\
                upd pred (flip_pairs kvs) !!! (upd succ kvs !!! v) = v).
  { destruct (in_dec Nat.eq_dec v (map fst kvs)) as [Hk|Hk].
    - destruct (in_keys kvs v Hk) as [w Hw].
      rewrite (upd_in succ kvs v w) by (try rewrite Hls; assumption).
      destruct (Hb _ Hw) as [_ Hwn]. simpl in Hwn. split; [exact Hwn|].
      apply upd_in; [rewrite Hlp; exact Hwn|exact HV'|].
      apply in_flip_pairs, Hw.
    - rewrite upd_notin by exact Hk.
      destruct (Hinv v Hv) as (Hfv & Hgfv & _).
      split; [exact Hfv|].
      rewrite upd_notin; [exact Hgfv|].
      rewrite flip_pairs_fst, Hset. intros Hin.
      apply in_map_iff in Hin as [[k w] [Hkw Hin]]. simpl in Hkw.
      assert (Hkn : (k < n)%nat) by apply (Hb _ Hin).
      destruct (Hinv k Hkn) as (_ & Hgfk & _).
      apply Hk. rewrite <- Hgfv, <- Hkw, Hgfk.
      apply in_map_iff. exists (k, w). auto. }
  destruct Fwd as [F1 F2]. split; [exact F1|]. split; [exact F2|].
  destruct (in_dec Nat.eq_dec v (map snd kvs)) as [Hw|Hw].
  - apply in_map_iff in Hw as [[k w] [Hkw Hin]]. simpl in Hkw. subst w.
    rewrite (upd_in pred (flip_pairs kvs) v k)
      by (try rewrite Hlp; try assumption; apply in_flip_pairs, Hin).
    destruct (Hb _ Hin) as [Hkn _]. simpl in Hkn. split; [exact Hkn|].
    apply upd_in; [rewrite Hls; exact Hkn|exact HK|exact Hin].
  - rewrite upd_notin by (rewrite flip_pairs_fst; exact Hw).
    destruct (Hinv v Hv) as (_ & _ & Hgv & Hfgv).
    split; [exact Hgv|].
    rewrite upd_notin; [exact Hfgv|].
    intros Hin. apply in_keys in Hin as [w Hin].
    apply Hw. apply Hset. apply in_map_iff. exists (pred !!! v, w). simpl.
    split; [exact Hfgv|exact Hin].
Qed.

Section Tour.

Variable distances : nat -> nat -> Z.
Variable path : list nat.
Let n := length path.
Hypothesis Hnodup : NoDup path.
Hypothesis Hnodes : Forall (fun v => v < n)%nat path.

Let P (z : Z) : nat := path !!! Z.to_nat (z mod Z.of_nat n).

Variable s : PathSolution.
Hypothesis Hafter : after s = links_after path.
Hypothesis Hbefore : before s = links_before path.

Lemma after_P' (z : Z) : (0 < n)%nat -> after s !!! P z = P (z + 1).
Proof. intros Hn. exact (SwapProofs.after_P path Hnodup Hnodes s Hafter z Hn). Qed.

Lemma before_P' (z : Z) : (0 < n)%nat -> before s !!! P z = P (z - 1).
Proof. intros Hn. exact (SwapProofs.before_P path Hnodup Hnodes s Hbefore z Hn). Qed.

Lemma P_neq (i a b : Z) :
  (0 <= a < Z.of_nat n) -> (0 <= b < Z.of_nat n) -> a <> b -> P (i + a) <> P (i + b).
Proof. exact (SwapProofs.P_offsets_neq path Hnodup i a b). Qed.

Lemma P_lt' (z : Z) : (0 < n)%nat -> (P z < n)%nat.
Proof. exact (SwapProofs.P_lt path Hnodes z). Qed.

Lemma P_wrap (z : Z) : P (z + Z.of_nat n) = P z.
Proof. exact (SwapProofs.P_add_n path z). Qed.

(** Every node [0 .. n-1] is on the tour. *)
Lemma node_at (v : nat) : (v < n)%nat -> exists z, P z = v.
Proof.
  intros Hv.
  assert (Hincl : incl (seq 0 n) path).
  { apply (NoDup_length_incl (l:=path) (l':=seq 0 n)).
    - apply NoDup_ListNoDup, Hnodup.
    - rewrite length_seq. reflexivity.
    - intros x Hx. apply in_seq. split; [lia|].
      rewrite List.Forall_forall in Hnodes. apply (Hnodes x). exact Hx. }
  assert (Hin : In v path) by (apply Hincl, in_seq; lia).
  apply list_elem_of_In, list_elem_of_lookup_1 in Hin as [j Hj].
  assert (Hjn : (j < n)%nat) by (apply lookup_lt_Some in Hj; exact Hj).
  exists (Z.of_nat j). unfold P. rewrite Z.mod_small by lia. rewrite Nat2Z.id.
  apply list_lookup_total_correct, Hj.
Qed.

Lemma tour_links_ok : links_ok n (after s) (before s).
Proof.
  split; [rewrite Hafter; unfold links_after; rewrite length_map, length_seq; reflexivity|].
  split; [rewrite Hbefore; unfold links_before; rewrite length_map, length_seq; reflexivity|].
  intros v Hv. assert (Hn : (0 < n)%nat) by lia.
  destruct (node_at v Hv) as [z <-].
  rewrite (after_P' z Hn), (before_P' (z + 1) Hn).
  replace (z + 1 - 1) with z by lia.
  rewrite (before_P' z Hn), (after_P' (z - 1) Hn).
  replace (z - 1 + 1) with z by lia.
  split; [apply P_lt', Hn|]. split; [reflexivity|].
  split; [apply P_lt', Hn|]. reflexivity.
Qed.

Ltac distinct := repeat (apply NoDup_cons; split);
  [rewrite ?not_elem_of_cons; repeat split; try apply not_elem_of_nil;
   apply P_neq; lia ..|apply NoDup_nil_2].

Lemma relink_adjacent_links (i a b : Z) :
  1 <= a -> 1 <= b -> a + b < Z.of_nat n ->
  let r := relink distances s (P i, P (i + (a - 1)), P (i + a), P (i + (a + b - 1))) in
  links_ok n (after r) (before r).
Proof.
  intros Ha Hb Hab r. assert (Hn : (0 < n)%nat) by lia.
  assert (E0 : get (before s) (P (i + a)) = P (i + (a - 1))).
  { unfold get. rewrite before_P' by exact Hn. f_equal. lia. }
  assert (E1 : get (before s) (P i) = P (i + (Z.of_nat n - 1))).
  { unfold get. rewrite before_P' by exact Hn. rewrite <- (P_wrap (i - 1)). f_equal. lia. }
  assert (E2 : get (after s) (P (i + (a + b - 1))) = P (i + (a + b))).
  { unfold get. rewrite after_P' by exact Hn. f_equal. lia. }
  subst r. unfold relink. cbv beta iota zeta.
  rewrite E0, Nat.eqb_refl, E1, E2. cbn [after before].
  replace (P i) with (P (i + 0)) by (rewrite Z.add_0_r; reflexivity).
  apply (upd_links_ok n (after s) (before s)
    [(P (i + (Z.of_nat n - 1)), P (i + a)); (P (i + (a + b - 1)), P (i + 0));
     (P (i + (a - 1)), P (i + (a + b)))]).
  - apply tour_links_ok.
  - simpl. distinct.
  - simpl. distinct.
  - repeat constructor; apply P_lt', Hn.
  - simpl. rewrite !after_P' by exact Hn.
    replace (P (i + (Z.of_nat n - 1) + 1)) with (P (i + 0))
      by (rewrite <- (P_wrap (i + 0)); f_equal; lia).
    replace (P (i + (a + b - 1) + 1)) with (P (i + (a + b))) by (f_equal; lia).
    replace (P (i + (a - 1) + 1)) with (P (i + a)) by (f_equal; lia).
    intros w. tauto.
Qed.

Lemma relink_separate_links (i a b d : Z) :
  1 <= a -> 1 <= b -> 1 <= d -> a + d + b < Z.of_nat n ->
  let r := relink distances s
             (P i, P (i + (a - 1)), P (i + (a + d)), P (i + (a + d + b - 1))) in
  links_ok n (after r) (before r).
Proof.
  intros Ha Hb Hd Hab r. assert (Hn : (0 < n)%nat) by lia.
  assert (E0 : get (before s) (P (i + (a + d))) = P (i + (a + d - 1))).
  { unfold get. rewrite before_P' by exact Hn. f_equal. lia. }
  assert (Hne : P (i + (a - 1)) <> P (i + (a + d - 1))) by (apply P_neq; lia).
  assert (E1 : get (before s) (P i) = P (i + (Z.of_nat n - 1))).
  { unfold get. rewrite before_P' by exact Hn. rewrite <- (P_wrap (i - 1)). f_equal. lia. }
  assert (E2 : get (after s) (P (i + (a + d + b - 1))) = P (i + (a + d + b))).
  { unfold get. rewrite after_P' by exact Hn. f_equal. lia. }
  assert (E3 : get (after s) (P (i + (a - 1))) = P (i + a)).
  { unfold get. rewrite after_P' by exact Hn. f_equal. lia. }
  subst r. unfold relink. cbv beta iota zeta.
  rewrite E0. apply Nat.eqb_neq in Hne. rewrite Hne, E1, E2, E3. cbn [after before].
  replace (P i) with (P (i + 0)) by (rewrite Z.add_0_r; reflexivity).
  apply (upd_links_ok n (after s) (before s)
    [(P (i + (Z.of_nat n - 1)), P (i + (a + d))); (P (i + (a + d - 1)), P (i + 0));
     (P (i + (a + d + b - 1)), P (i + a)); (P (i + (a - 1)), P (i + (a + d + b)))]).
  - apply tour_links_ok.
  - simpl. distinct.
  - simpl. distinct.
  - repeat constructor; apply P_lt', Hn.
  - simpl. rewrite !after_P' by exact Hn.
    replace (P (i + (Z.of_nat n - 1) + 1)) with (P (i + 0))
      by (rewrite <- (P_wrap (i + 0)); f_equal; lia).
    replace (P (i + (a + d - 1) + 1)) with (P (i + (a + d))) by (f_equal; lia).
    replace (P (i + (a + d + b - 1) + 1)) with (P (i + (a + d + b))) by (f_equal; lia).
    replace (P (i + (a - 1) + 1)) with (P (i + a)) by (f_equal; lia).
    intros w. tauto.
Qed.

Variables first_length second_length : nat.

Lemma swap_moves_shape' (m : move) :
  In m (swap_moves first_length second_length path) ->
  exists i d : Z,
    0 <= i < Z.of_nat n /\
    0 <= d <= Z.of_nat n - Z.of_nat first_length - Z.of_nat second_length /\
    m = (P i, P (i + (Z.of_nat first_length - 1)),
         P (i + (Z.of_nat first_length + d)),
         P (i + (Z.of_nat first_length + d + Z.of_nat second_length - 1))).
Proof. exact (SwapProofs.swap_moves_shape path first_length second_length m). Qed.

Lemma swap_enumerated_links (m : move) :
  (1 <= first_length)%nat -> (1 <= second_length)%nat ->
  (first_length + second_length < n)%nat ->
  In m (swap_moves first_length second_length path) ->
  links_ok n (after (swap distances s m)) (before (swap distances s m)).
Proof.
  intros Hfl Hsl Hlen Hm.
  destruct (swap_moves_shape' m Hm) as (i & d & Hi & Hd & ->).
  assert (Hn : (0 < n)%nat) by lia.
  set (fl := Z.of_nat first_length) in *. set (sl := Z.of_nat second_length) in *.
  assert (Hfl' : 1 <= fl) by lia. assert (Hsl' : 1 <= sl) by lia.
  assert (Hlen' : fl + sl < Z.of_nat n) by lia.
  clearbody fl sl.
  unfold swap, normalize. cbv beta iota zeta.
  unfold get. rewrite after_P' by exact Hn.
  destruct (Z.eq_dec d (Z.of_nat n - fl - sl)) as [Hw|Hw].
  - assert (Hq : P (i + (fl + d + sl - 1) + 1) = P i).
    { rewrite <- (P_wrap i). f_equal. lia. }
    rewrite Hq, Nat.eqb_refl.
    set (i' := i + (fl + d)).
    replace (P (i + (fl + d))) with (P i') by reflexivity.
    replace (P (i + (fl + d + sl - 1))) with (P (i' + (sl - 1))) by (f_equal; subst i'; lia).
    replace (P i) with (P (i' + sl))
      by (rewrite <- (P_wrap i); f_equal; subst i'; lia).
    replace (P (i + (fl - 1))) with (P (i' + (sl + fl - 1)))
      by (rewrite <- (P_wrap (i + (fl - 1))); f_equal; subst i'; lia).
    apply relink_adjacent_links; lia.
  - assert (Hq : P (i + 0) <> P (i + (fl + d + sl - 1) + 1)).
    { rewrite <- Z.add_assoc. apply P_neq; lia. }
    rewrite Z.add_0_r in Hq. apply Nat.eqb_neq in Hq. rewrite Hq.
    destruct (Z.eq_dec d 0) as [H0|H0].
    + subst d.
      replace (P (i + (fl + 0))) with (P (i + fl)) by (f_equal; lia).
      replace (P (i + (fl + 0 + sl - 1))) with (P (i + (fl + sl - 1))) by (f_equal; lia).
      apply relink_adjacent_links; lia.
    + apply relink_separate_links; lia.
Qed.

End Tour.

(** After any enumerated swap of two non-empty segments that together
    leave a node out, the new [after] and [before] lists still have one
    entry per node and are mutually inverse: [before[after[v]] = v] and
    [after[before[v]] = v] for every node [v], all links staying in
    [0 .. n-1]. *)
Theorem swap_keeps_links_inverse (distances : nat -> nat -> Z)
    (first_length second_length : nat) (path : list nat) (s : PathSolution) (m : move) :
  NoDup path ->
  Forall (fun v => v < length path)%nat path ->
  after s = links_after path ->
  before s = links_before path ->
  (1 <= first_length)%nat -> (1 <= second_length)%nat ->
  (first_length + second_length < length path)%nat ->
  In m (swap_moves first_length second_length path) ->
  let r := swap distances s m in
  length (after r) = length path /\ length (before r) = length path /\
  forall v, (v < length path)%nat ->
    (get (after r) v < length path)%nat /\ get (before r) (get (after r) v) = v /\
    (get (before r) v < length path)%nat /\ get (after r) (get (before r) v) = v.
Proof.
  intros Hnd Hnodes Ha Hb Hfl Hsl Hlen Hm r.
  exact (swap_enumerated_links distances path Hnd Hnodes s Ha Hb
           first_length second_length m Hfl Hsl Hlen Hm).
Qed.

Lemma swap_keeps_links_inverse_witness :
  let path := [2; 0; 3; 1; 4]%nat in
  let dist := fun a b : nat => Z.of_nat (a + b) in
  let s := mkPathSolution (links_after path) (links_before path)
                          (tour_cost dist (links_after path)) in
  let r := swap dist s (2, 0, 3, 3)%nat in
  length (after r) = length path /\ length (before r) = length path /\
  forall v, (v < length path)%nat ->
    (get (after r) v < length path)%nat /\ get (before r) (get (after r) v) = v /\
    (get (before r) v < length path)%nat /\ get (after r) (get (before r) v) = v.
Proof.
  intros path dist s.
  apply (swap_keeps_links_inverse dist 2 1 path s).
  - apply (bool_decide_unpack _). vm_compute. exact I.
  - apply (bool_decide_unpack _). vm_compute. exact I.
  - reflexivity.
  - reflexivity.
  - lia.
  - lia.
  - vm_compute. lia.
  - vm_compute. left. reflexivity.
Defined.

End SwapLinkProofs.

(* ================================================================= *)
(** ** Proofs: [BaseSolution.tabu_search] without shuffles *)
(* ================================================================= *)

Module DescentProofs.
Import Base.

Section Driver.

Variable Sol : Type.
Variable cost : Sol -> Z.
Variable initial : Sol.
Variable neighborhoods_count : nat.
Variable find_best_candidate : nat -> nat -> Sol -> option Sol.
Variable shuffle : nat -> Sol -> Sol.
Variable post_optimization : Sol -> Sol.
Variable shuffle_after : Z.

(** [b] is no worse than [a]. *)
Definition no_worse (a b : Sol) : Prop := cost b <= cost a.

Lemma search_loop_descent (fuel iteration : nat) (st : DriverState Sol) (seen : list Sol)
    (st' : DriverState Sol) (seen' : list Sol) :
  search_loop Sol cost neighborhoods_count find_best_candidate shuffle shuffle_after
    fuel iteration st seen = (st', seen') ->
  result Sol st = current Sol st ->
  (last_improved Sol st <= iteration)%nat ->
  Z.of_nat (iteration + fuel) <= shuffle_after ->
  result Sol st' = current Sol st' /\
  exists ext, seen' = seen ++ ext /\ Sorted no_worse (current Sol st :: ext) /\
              last (current Sol st :: ext) = Some (current Sol st').
Proof.
  revert iteration st seen. induction fuel as [|fuel IH];
    intros iteration st seen H Hrc Hli Hfuel; simpl in H.
  - injection H as <- <-. split; [exact Hrc|]. exists []. rewrite app_nil_r.
    split; [reflexivity|]. split; [repeat constructor|reflexivity].
  - destruct (find_best_candidate _ _ _) as [best|];
      [|injection H as <- <-; split; [exact Hrc|]; exists []; rewrite app_nil_r;
        split; [reflexivity|]; split; [repeat constructor|reflexivity]].
    destruct (lt Sol cost best (current Sol st)) eqn:Elt.
    + (* an improving candidate becomes [current] and [result] *)
      assert (Hpm : py_min Sol cost (result Sol st) best = best).
      { unfold py_min. rewrite Hrc, Elt. reflexivity. }
      rewrite Hpm in H.
      replace (Z.of_nat iteration - Z.of_nat iteration >=? shuffle_after) with false in H
        by (symmetry; rewrite Z.geb_leb; apply Z.leb_gt; lia).
      apply IH in H as [Hr' (ext & Hseen & Hsorted & Hlast)];
        [|reflexivity|simpl; lia|lia].
      split; [exact Hr'|]. exists (best :: ext). split; [rewrite Hseen, <- app_assoc; reflexivity|].
      simpl in Hsorted, Hlast. split.
      * constructor; [exact Hsorted|]. constructor. unfold no_worse.
        unfold lt in Elt. apply Z.ltb_lt in Elt. lia.
      * simpl. destruct ext; exact Hlast.
    + (* [current] stays *)
      assert (Hpm : py_min Sol cost (result Sol st) (current Sol st) = current Sol st).
      { unfold py_min. rewrite Hrc. unfold lt. rewrite Z.ltb_irrefl. reflexivity. }
      rewrite Hpm in H.
      replace (Z.of_nat iteration - Z.of_nat (last_improved Sol st) >=? shuffle_after)
        with false in H by (symmetry; rewrite Z.geb_leb; apply Z.leb_gt; lia).
      apply IH in H as [Hr' (ext & Hseen & Hsorted & Hlast)];
        [|reflexivity|simpl; lia|lia].
      split; [exact Hr'|]. exists (current Sol st :: ext).
      split; [rewrite Hseen, <- app_assoc; reflexivity|].
      simpl in Hsorted, Hlast. split.
      * constructor; [exact Hsorted|]. constructor. unfold no_worse. lia.
      * simpl. destruct ext; exact Hlast.
Qed.

(** When the run is too short for [shuffle_after] to trigger a shuffle,
    [BaseSolution.tabu_search] is a pure descent: the values taken by
    [current] never get worse, [result] is always [current], and the
    returned solution is the post-optimization of the last [current]. *)
Theorem tabu_search_descent_without_shuffle (iterations_count : nat) (st : DriverState Sol)
    (seen : list Sol) :
  Z.of_nat iterations_count <= shuffle_after ->
  search_loop Sol cost neighborhoods_count find_best_candidate shuffle shuffle_after
    iterations_count 0 (mkDriverState Sol initial initial 0) [] = (st, seen) ->
  Sorted no_worse (initial :: seen) /\
  last (initial :: seen) = Some (current Sol st) /\
  result Sol st = current Sol st /\
  (neighborhoods_count <> 0%nat \/ iterations_count = 0%nat ->
   tabu_search Sol cost initial neighborhoods_count find_best_candidate shuffle
     post_optimization shuffle_after iterations_count
   = Some (post_optimization (current Sol st))).
Proof.
  intros Hshuf H.
  destruct (search_loop_descent iterations_count 0 _ [] st seen H eq_refl ltac:(simpl; lia)
              ltac:(lia)) as [Hrc (ext & Hseen & Hsorted & Hlast)].
  simpl in Hseen. subst ext. simpl in Hsorted, Hlast.
  split; [exact Hsorted|]. split; [exact Hlast|]. split; [exact Hrc|].
  intros Hcase. unfold tabu_search.
  replace (Nat.eqb neighborhoods_count 0 && negb (Nat.eqb iterations_count 0)) with false
    by (destruct Hcase as [Hc|Hc];
        [apply Nat.eqb_neq in Hc; rewrite Hc; reflexivity
        |subst; rewrite andb_false_r; reflexivity]).
  rewrite H, Hrc. reflexivity.
Qed.

End Driver.

(** A neighborhood that lowers the cost by 3 at each of three iterations,
    with [shuffle_after = 5]. *)
Lemma tabu_search_descent_without_shuffle_witness :
  let fbc := fun (_ _ : nat) (c : Z) => Some (c - 3) in
  let shuffle := fun (_ : nat) (c : Z) => c + 100 in
  let post := fun c : Z => 2 * c in
  Z.of_nat 3 <= 5 /\
  search_loop Z (fun c => c) 1 fbc shuffle 5 3 0 (mkDriverState Z 10 10 0) []
  = (mkDriverState Z 1 1 2, [7; 4; 1]) /\
  Sorted (no_worse Z (fun c => c)) [10; 7; 4; 1] /\
  last [10; 7; 4; 1] = Some (current Z (mkDriverState Z 1 1 2)) /\
  result Z (mkDriverState Z 1 1 2) = current Z (mkDriverState Z 1 1 2) /\
  (1%nat <> 0%nat \/ 3%nat = 0%nat ->
   tabu_search Z (fun c => c) 10 1 fbc shuffle post 5 3
   = Some (post (current Z (mkDriverState Z 1 1 2)))).
Proof.
  intros fbc shuffle post.
  assert (H : search_loop Z (fun c => c) 1 fbc shuffle 5 3 0 (mkDriverState Z 10 10 0) []
              = (mkDriverState Z 1 1 2, [7; 4; 1])) by reflexivity.
  split; [lia|]. split; [exact H|].
  exact (tabu_search_descent_without_shuffle Z (fun c => c) 10 1 fbc shuffle post 5 3
           (mkDriverState Z 1 1 2) [7; 4; 1] ltac:(lia) H).
Defined.

End DescentProofs.

(* ================================================================= *)
(** ** Proofs: the trim step of [MultiObjectiveSolution.tabu_search] *)
(* ================================================================= *)

Module TrimProofs.
Import MultiOb.

Section Iteration.

Variable Sol : Type.
Variable eqb : Sol -> Sol -> bool.
Variable hash : Sol -> Z.
Hypothesis eqb_refl : forall x, eqb x x = true.

(** A Python set of solutions: no duplicate entry, and two members that
    compare equal (same hash, [==]) are the same entry. *)
Definition set_ok (c : list Sol) : Prop :=
  NoDup c /\
  forall x y, x ∈ c -> y ∈ c -> Z.eqb (hash y) (hash x) && eqb y x = true -> y = x.

Lemma set_remove_member (x : Sol) (c : list Sol) :
  set_ok c -> x ∈ c -> c ≡ₚ x :: set_remove Sol eqb hash x c.
Proof.
  intros [Hnd Heq]. induction c as [|y c IH]; intros Hx; [inversion Hx|].
  simpl. destruct (Z.eqb (hash y) (hash x) && eqb y x) eqn:E.
  - apply Heq in E; [subst y; reflexivity|exact Hx|left].
  - apply elem_of_cons in Hx as [->|Hx].
    + rewrite Z.eqb_refl, eqb_refl in E. discriminate.
    + apply NoDup_cons in Hnd as [Hy Hnd].
      etransitivity; [apply perm_skip, IH|apply perm_swap].
      * exact Hnd.
      * intros a b Ha Hb. apply Heq; right; assumption.
      * exact Hx.
Qed.

Lemma set_ok_sub (c c' : list Sol) : set_ok c -> c' ⊆+ c -> set_ok c'.
Proof.
  intros [Hnd Heq] Hsub. split.
  - destruct (submseteq_Permutation _ _ Hsub) as [k Hk].
    rewrite Hk in Hnd. apply NoDup_app in Hnd as [Hnd _]. exact Hnd.
  - intros x y Hx Hy. apply Heq; eapply elem_of_submseteq; eassumption.
Qed.

Lemma remove_all (sel c : list Sol) :
  set_ok c -> sel ⊆+ c ->
  c ≡ₚ sel ++ fold_left (fun c x => set_remove Sol eqb hash x c) sel c.
Proof.
  revert c. induction sel as [|x sel IH]; intros c Hc Hsub; [reflexivity|].
  simpl. apply submseteq_cons_l in Hsub as (k & Hk & Hsel).
  assert (Hx : x ∈ c) by (rewrite Hk; left).
  pose proof (set_remove_member x c Hc Hx) as Hr.
  assert (Hk' : k ≡ₚ set_remove Sol eqb hash x c).
  { apply (Permutation_cons_inv (a := x)). etransitivity; [symmetry; exact Hk|exact Hr]. }
  rewrite Hk' in Hsel.
  assert (Hc' : set_ok (set_remove Sol eqb hash x c)).
  { apply (set_ok_sub c); [exact Hc|]. rewrite Hr at 2.
    apply submseteq_cons, reflexivity. }
  rewrite Hr at 1. f_equiv. apply IH; assumption.
Qed.

(** Lines 110-115 of [MultiObjectiveSolution.tabu_search]: given that
    [random.sample(current, k)] draws [k] distinct entries of [current],
    and a non-negative [max_propagation] value, the trimmed [current] is a
    subset of the old one, still a set, and has
    [min(len(current), max_propagation)] members. *)
Theorem trim_caps_current (max_propagation : option (list Sol -> Z))
    (sample : nat -> list Sol -> Z -> list Sol) (iteration : nat)
    (results current : list Sol) :
  (forall it l k, 0 < k <= Z.of_nat (length l) ->
     sample it l k ⊆+ l /\ Z.of_nat (length (sample it l k)) = k) ->
  set_ok current ->
  (forall f, max_propagation = Some f -> 0 <= f results) ->
  let c' := trim Sol eqb hash max_propagation sample iteration results current in
  c' ⊆+ current /\ set_ok c' /\
  length c' = match max_propagation with
              | None => length current
              | Some f => Nat.min (length current) (Z.to_nat (f results))
              end.
Proof.
  intros Hsample Hc Hf c'. subst c'. unfold trim.
  destruct max_propagation as [f|]; [|split; [reflexivity|]; split; [exact Hc|reflexivity]].
  specialize (Hf f eq_refl).
  destruct (Z.ltb 0 (Z.of_nat (length current) - f results)) eqn:E.
  - apply Z.ltb_lt in E.
    destruct (Hsample iteration current (Z.of_nat (length current) - f results)
                ltac:(lia)) as [Hsub Hlen].
    pose proof (remove_all _ _ Hc Hsub) as Hp.
    assert (Hres : fold_left (fun c x => set_remove Sol eqb hash x c)
                     (sample iteration current (Z.of_nat (length current) - f results))
                     current ⊆+ current).
    { etransitivity; [|apply Permutation_submseteq; symmetry; exact Hp].
      apply submseteq_inserts_l, reflexivity. }
    split; [exact Hres|]. split; [apply (set_ok_sub current); assumption|].
    apply Permutation_length in Hp. rewrite length_app in Hp. lia.
  - apply Z.ltb_ge in E. split; [reflexivity|]. split; [exact Hc|]. lia.
Qed.

End Iteration.

(** Four solutions (numbers, hashed to themselves) trimmed to two, with
    [random.sample] drawing the first [k] entries. *)
Lemma trim_caps_current_witness :
  let sample := fun (_ : nat) (l : list nat) (k : Z) => take (Z.to_nat k) l in
  let c' := trim nat Nat.eqb Z.of_nat (Some (fun _ => 2)) sample 0 [] [1; 2; 3; 4]%nat in
  c' ⊆+ [1; 2; 3; 4]%nat /\ set_ok nat Nat.eqb Z.of_nat c' /\
  length c' = Nat.min 4 (Z.to_nat 2).
Proof.
  intros sample.
  apply (trim_caps_current nat Nat.eqb Z.of_nat Nat.eqb_refl (Some (fun _ => 2)) sample 0 []
           [1; 2; 3; 4]%nat).
  - intros it l k Hk. split.
    + apply sublist_submseteq, sublist_take.
    + unfold sample. rewrite length_take. lia.
  - split.
    + repeat constructor; set_solver.
    + intros a b _ _ Hab. apply andb_prop in Hab as [_ Hab]. apply Nat.eqb_eq, Hab.
  - intros f Hf. injection Hf as <-. lia.
Defined.

End TrimProofs.

(* ================================================================= *)
(** ** Proofs: drone loads in [D2DPathSolution.initial] *)
(* ================================================================= *)

Module LoadProofs.
Import D2D InitialProofs.

(** The total demand of a list of customers. *)
Definition qsum (demands : list Q) (l : list nat) : Q :=
  foldr (fun e acc => (demands !!! e + acc)%Q) 0%Q l.

Lemma qsum_snoc (demands : list Q) (l : list nat) (i : nat) :
  (qsum demands (l ++ [i]) == qsum demands l + demands !!! i)%Q.
Proof.
  induction l as [|a l IH]; simpl; [ring|]. rewrite IH. ring.
Qed.

Lemma lookup_total_insert_same {A} `{Inhabited A} (l : list A) (i : nat) (x : A) :
  (i < length l)%nat -> <[i := x]> l !!! i = x.
Proof. intros Hi. rewrite list_lookup_total_alt, list_lookup_insert. rewrite decide_True by auto. reflexivity. Qed.

Lemma assign_technicians_length (distance : nat -> nat -> Q) (fuel k : nat)
    (paths : list (list nat)) (todo : list nat) (paths' : list (list nat)) :
  assign_technicians distance fuel k paths todo = Some paths' -> length paths' = length paths.
Proof.
  revert k paths todo. induction fuel as [|fuel IH]; intros k paths todo H;
    (destruct todo as [|t0 todo0]; cbn -[min_by py_last remove_index] in H;
     [injection H as <-; reflexivity|]).
  - discriminate.
  - destruct (Nat.eqb (length paths) 0); [discriminate|].
    destruct (py_last _) as [l|]; [|discriminate]. cbn -[min_by remove_index] in H.
    destruct (min_by _ _) as [index|]; [|discriminate]. cbn -[remove_index] in H.
    apply IH in H. rewrite H, length_insert. reflexivity.
Qed.

Section Drones.

Variable drones_count : nat.
Variable demands : list Q.
Variable drones_flight_duration : Q.
Variable energy_mode : DroneEnergyConsumptionMode.
Variables drone_linear_config drone_nonlinear_config : list DroneConfig.
Variable distance : nat -> nat -> Q.

Let config_of (d : nat) : option DroneConfig :=
  drone_config energy_mode drone_linear_config drone_nonlinear_config d.

(** [weight[d]] is the total demand of the customers on the trips of
    drone [d], within its capacity once it serves a customer. *)
Definition load_ok (dp : list (list (list nat))) (w : list Q) : Prop :=
  forall d, (d < drones_count)%nat ->
    (qsum demands (nz (concat (dp !!! d))) == w !!! d)%Q /\
    (nz (concat (dp !!! d)) = [] \/
     forall c, config_of d = Some c -> (w !!! d <= capacity c)%Q).

Lemma assign_drones_load (fuel k : nat) (dp : list (list (list nat))) (w t e : list Q)
    (tp : list (list nat)) (todo : list nat) (dp' : list (list (list nat)))
    (tp' : list (list nat)) :
  assign_drones drones_count demands drones_flight_duration energy_mode
    drone_linear_config drone_nonlinear_config distance fuel k dp w t e tp todo
  = Some (dp', tp') ->
  length dp = drones_count -> length w = drones_count -> Forall drone_ok dp ->
  Forall (fun x => x <> 0%nat) todo -> load_ok dp w ->
  length dp' = drones_count /\ Forall drone_ok dp' /\ length tp' = length tp /\
  exists w', load_ok dp' w'.
Proof.
  revert k dp w t e tp todo.
  induction fuel as [|fuel IH]; intros k dp w t e tp todo H Hlen Hwlen Hdp Hnz Hload;
    (destruct todo as [|t0 todo0];
     cbn -[min_by py_last remove_index drone_config append_last insert_before_last
           py_second_last py_div] in H;
     [injection H as <- <-; split; [exact Hlen|]; split; [exact Hdp|]; split; [reflexivity|];
      exists w; exact Hload|]).
  - discriminate.
  - destruct (Nat.eqb drones_count 0) eqn:Edc; [discriminate|].
    apply Nat.eqb_neq in Edc.
    set (drone := Nat.modulo k drones_count) in H.
    assert (Hdn : (drone < drones_count)%nat) by (apply Nat.mod_upper_bound; exact Edc).
    assert (Hd : (drone < length dp)%nat) by (rewrite Hlen; exact Hdn).
    destruct (drone_config _ _ _ drone) as [config|] eqn:Ecfg; [|discriminate].
    cbn -[min_by py_last remove_index append_last insert_before_last py_second_last
          py_div] in H.
    set (P := dp !!! drone) in *.
    destruct (insert_split dp drone [] Hd) as (pre & suf & E1 & _).
    assert (HP : drone_ok P).
    { rewrite E1 in Hdp. apply Forall_app in Hdp as [_ Hdp].
      apply Forall_cons in Hdp as [Hdp _]. exact Hdp. }
    destruct HP as (cl & op & EP & Hcl).
    destruct (last P) as [lastpath|]; [|discriminate]. cbn -[min_by py_last
      remove_index append_last insert_before_last py_second_last py_div] in H.
    destruct (py_last lastpath) as [l|]; [|discriminate]. cbn -[min_by
      remove_index append_last insert_before_last py_second_last py_div] in H.
    destruct (min_by (fun e => Some (distance l e)) (t0 :: todo0)) as [index|] eqn:Emin;
      [|discriminate]. cbn -[min_by
      remove_index append_last insert_before_last py_second_last py_div] in H.
    apply min_by_in in Emin.
    assert (Hidx : index <> 0%nat) by (apply (proj1 (List.Forall_forall _ _) Hnz); exact Emin).
    assert (Hrem_nz : Forall (fun x => x <> 0%nat) (remove_index index (t0 :: todo0))).
    { apply List.Forall_forall. intros x Hx. apply remove_index_in in Hx.
      apply (proj1 (List.Forall_forall _ _) Hnz). exact Hx. }
    destruct (demands !! index) as [dw|] eqn:Edw; [|discriminate]. cbn -[min_by
      remove_index append_last insert_before_last py_second_last py_div] in H.
    destruct (py_div _ (takeoff_speed config)) as [takeoff_dt|]; [|discriminate].
    cbn -[min_by remove_index append_last insert_before_last py_second_last py_div] in H.
    destruct (py_div _ (landing_speed config)) as [landing_dt|]; [|discriminate].
    cbn -[min_by remove_index append_last insert_before_last py_second_last py_div] in H.
    destruct (py_div _ (cruise_speed config)) as [cruise_dt|]; [|discriminate].
    cbn -[min_by remove_index append_last insert_before_last py_second_last py_div] in H.
    destruct (Qle_bool (w !!! drone + dw) (capacity config)) eqn:Ecap;
      [destruct (_ && _) eqn:Erest|]; cbn [andb] in H.
    + (* the customer joins the open trip of the drone *)
      assert (HX : append_last P index = cl ++ [0%nat :: op ++ [index]]).
      { rewrite EP, append_last_snoc. reflexivity. }
      assert (Hnzx : nz (concat (append_last P index)) = nz (concat P) ++ [index]).
      { rewrite HX, EP, !concat_app. cbn [concat]. rewrite !app_nil_r, !nz_app, !nz_depot,
          nz_app, (nz_cons_customer index [] Hidx), <- app_assoc. reflexivity. }
      edestruct (IH (S k) _ _ _ _ _ _ H) as (Hl' & Hdp' & Ht' & w' & Hload').
      * rewrite length_insert. exact Hlen.
      * rewrite length_insert. exact Hwlen.
      * apply Forall_insert; [exact Hdp|]. rewrite HX. exists cl, (op ++ [index]).
        split; [reflexivity|exact Hcl].
      * exact Hrem_nz.
      * intros d' Hd'. destruct (Nat.eq_dec d' drone) as [->|Hne].
        -- rewrite !lookup_total_insert_same by (rewrite ?Hwlen, ?Hlen; exact Hdn).
           rewrite Hnzx, qsum_snoc. destruct (Hload drone Hdn) as [Hq _]. fold P in Hq.
           rewrite Hq. rewrite (list_lookup_total_correct _ _ _ Edw).
           split; [reflexivity|]. right. intros c Hc. unfold config_of in Hc.
           rewrite Ecfg in Hc. injection Hc as <-. apply Qle_bool_imp_le. exact Ecap.
        -- rewrite !list_lookup_total_insert_ne by congruence. apply Hload, Hd'.
      * split; [exact Hl'|]. split; [exact Hdp'|]. split; [rewrite Ht'; reflexivity|]. exists w'. exact Hload'.
    + (* over the flight time or the battery: the trip is closed *)
      destruct (min_by _ (seq 0 (length tp))) as [j|] eqn:Ej; [|discriminate].
      cbn -[remove_index append_last insert_before_last] in H.
      set (X := append_last P 0 ++ [[0%nat]]) in H.
      assert (HX : X = (cl ++ [0%nat :: op ++ [0%nat]]) ++ [[0%nat]]).
      { unfold X. rewrite EP, append_last_snoc. reflexivity. }
      assert (Hnzx : nz (concat X) = nz (concat P)).
      { rewrite HX, EP, !concat_app. cbn [concat]. rewrite !app_nil_r, !nz_app, !nz_depot,
          !nz_app. change (nz [0%nat]) with (@nil nat). change (nz []) with (@nil nat).
        rewrite !app_nil_r. reflexivity. }
      edestruct (IH (S k) _ _ _ _ _ _ H) as (Hl' & Hdp' & Ht' & w' & Hload').
      * rewrite length_insert. exact Hlen.
      * exact Hwlen.
      * apply Forall_insert; [exact Hdp|]. rewrite HX.
        exists (cl ++ [0%nat :: op ++ [0%nat]]), []. split; [reflexivity|].
        apply Forall_app. split; [exact Hcl|]. apply Forall_cons. split; [|constructor].
        exists op. reflexivity.
      * exact Hrem_nz.
      * intros d' Hd'. destruct (Nat.eq_dec d' drone) as [->|Hne].
        -- rewrite lookup_total_insert_same by (rewrite Hlen; exact Hdn).
           rewrite Hnzx. apply Hload, Hdn.
        -- rewrite list_lookup_total_insert_ne by congruence. apply Hload, Hd'.
      * split; [exact Hl'|]. split; [exact Hdp'|]. split; [rewrite Ht', length_insert; reflexivity|].
        exists w'. exact Hload'.
    + (* over the capacity: the trip is closed *)
      destruct (min_by _ (seq 0 (length tp))) as [j|] eqn:Ej; [|discriminate].
      cbn -[remove_index append_last insert_before_last] in H.
      set (X := append_last P 0 ++ [[0%nat]]) in H.
      assert (HX : X = (cl ++ [0%nat :: op ++ [0%nat]]) ++ [[0%nat]]).
      { unfold X. rewrite EP, append_last_snoc. reflexivity. }
      assert (Hnzx : nz (concat X) = nz (concat P)).
      { rewrite HX, EP, !concat_app. cbn [concat]. rewrite !app_nil_r, !nz_app, !nz_depot,
          !nz_app. change (nz [0%nat]) with (@nil nat). change (nz []) with (@nil nat).
        rewrite !app_nil_r. reflexivity. }
      edestruct (IH (S k) _ _ _ _ _ _ H) as (Hl' & Hdp' & Ht' & w' & Hload').
      * rewrite length_insert. exact Hlen.
      * exact Hwlen.
      * apply Forall_insert; [exact Hdp|]. rewrite HX.
        exists (cl ++ [0%nat :: op ++ [0%nat]]), []. split; [reflexivity|].
        apply Forall_app. split; [exact Hcl|]. apply Forall_cons. split; [|constructor].
        exists op. reflexivity.
      * exact Hrem_nz.
      * intros d' Hd'. destruct (Nat.eq_dec d' drone) as [->|Hne].
        -- rewrite lookup_total_insert_same by (rewrite Hlen; exact Hdn).
           rewrite Hnzx. apply Hload, Hdn.
        -- rewrite list_lookup_total_insert_ne by congruence. apply Hload, Hd'.
      * split; [exact Hl'|]. split; [exact Hdp'|]. split; [rewrite Ht', length_insert; reflexivity|].
        exists w'. exact Hload'.
Qed.

End Drones.

Lemma nz_close_trip (paths : list (list nat)) :
  drone_ok paths -> nz (concat (append_last paths 0)) = nz (concat paths).
Proof.
  intros (cl & op & -> & _). rewrite append_last_snoc, !concat_app. cbn [concat].
  rewrite !app_nil_r, !nz_app, !nz_depot, ?nz_app. change (nz [0%nat]) with (@nil nat).
  rewrite app_nil_r. reflexivity.
Qed.

(** [D2DPathSolution.initial] returns one list of trips per drone and at
    most [technicians_count] technician paths; the customers a drone
    serves, over all its trips, have a total demand within its capacity
    ([weight] is not reset when a new trip starts). *)
Theorem initial_drone_load_within_capacity
    (customers_count drones_count technicians_count : nat)
    (dronable : list bool) (demands : list Q) (drones_flight_duration : Q)
    (energy_mode : DroneEnergyConsumptionMode)
    (drone_linear_config drone_nonlinear_config : list DroneConfig)
    (distance : nat -> nat -> Q)
    (drone_paths : list (list (list nat))) (technician_paths : list (list nat)) :
  initial customers_count drones_count technicians_count dronable demands
    drones_flight_duration energy_mode drone_linear_config drone_nonlinear_config distance
  = Some (drone_paths, technician_paths) ->
  length drone_paths = drones_count /\
  (length technician_paths <= technicians_count)%nat /\
  forall d paths c, drone_paths !! d = Some paths ->
    drone_config energy_mode drone_linear_config drone_nonlinear_config d = Some c ->
    nz (concat paths) = [] \/ (qsum demands (nz (concat paths)) <= capacity c)%Q.
Proof.
  intros H. unfold initial in H.
  destruct (select (fun e => negb <$> dronable !! e) (seq 1 customers_count))
    as [T|] eqn:ET; [|discriminate]. cbn -[select assign_technicians assign_drones] in H.
  destruct (assign_technicians distance (length T) 0 (replicate technicians_count [0%nat]) T)
    as [tp1|] eqn:Etech; [|discriminate]. cbn -[select assign_technicians assign_drones] in H.
  destruct (select (fun e => dronable !! e) (seq 1 customers_count))
    as [Dl|] eqn:ED; [|discriminate]. cbn -[select assign_technicians assign_drones] in H.
  set (tp2 := map (fun p => p ++ [0%nat]) tp1) in H.
  destruct (assign_drones drones_count demands drones_flight_duration energy_mode
              drone_linear_config drone_nonlinear_config distance (length Dl) 0
              (replicate drones_count [[0%nat]]) (replicate drones_count 0%Q)
              (replicate drones_count 0%Q) (replicate drones_count 0%Q) tp2 Dl)
    as [[dp1 tp3]|] eqn:Edr; [|discriminate].
  cbn -[select assign_technicians assign_drones] in H. injection H as <- <-.
  destruct (select_sound _ _ _ ED) as [HDin _].
  destruct (assign_drones_load _ _ _ _ _ _ _ _ _ _ _ _ _ _ _ _ _ Edr)
    as (Hl1 & Hdp1 & Ht3 & w' & Hload).
  { apply length_replicate. }
  { apply length_replicate. }
  { apply Forall_replicate. exists [], []. split; [reflexivity|constructor]. }
  { apply List.Forall_forall. intros e He. apply (seq_customers e customers_count).
    apply (HDin e He). }
  { intros d Hd. rewrite !lookup_total_replicate_2 by exact Hd.
    split; [reflexivity|left; reflexivity]. }
  split; [rewrite length_map; exact Hl1|]. split.
  - etransitivity; [apply filter_length_le|].
    rewrite Ht3. unfold tp2. rewrite length_map, (assign_technicians_length _ _ _ _ _ _ Etech),
      length_replicate. reflexivity.
  - intros d paths c Hp Hc.
    rewrite list_lookup_fmap in Hp.
    destruct (dp1 !! d) as [P|] eqn:EP; [|discriminate]. injection Hp as <-.
    assert (Hd : (d < drones_count)%nat) by (rewrite <- Hl1; apply lookup_lt_Some in EP; exact EP).
    assert (HP : drone_ok P) by (rewrite Forall_lookup in Hdp1; exact (Hdp1 d P EP)).
    rewrite nz_close_trip by exact HP.
    destruct (Hload d Hd) as [Hq Hor].
    rewrite (list_lookup_total_correct _ _ _ EP) in Hq, Hor.
    destruct Hor as [Hnil|Hcap]; [left; exact Hnil|].
    right. rewrite Hq. apply Hcap. exact Hc.
Qed.

(** Five customers (2, 3 and 5 dronable), one drone of capacity 2 and two
    technicians; the drone serves 2 and 3, of total demand 2. *)
Lemma initial_drone_load_within_capacity_witness :
  let c := mkDroneConfig 1 1 1 1 2 100 (fun _ => 1%Q) (fun _ => 1%Q) (fun _ => 1%Q) in
  let dist := fun a b : nat => inject_Z (Z.abs (Z.of_nat a - Z.of_nat b)) in
  initial 5 1 2 [true; false; true; true; false; true] (repeat 1%Q 6) 100%Q LINEAR [c] [c] dist
  = Some ([[[0; 2; 3; 0]; [0; 0]]], [[0; 1; 0]; [0; 4; 5; 0]])%nat /\
  length [[[0; 2; 3; 0]; [0; 0]]]%nat = 1%nat /\
  (length [[0; 1; 0]; [0; 4; 5; 0]]%nat <= 2)%nat /\
  forall d paths c0, [[[0; 2; 3; 0]; [0; 0]]]%nat !! d = Some paths ->
    drone_config LINEAR [c] [c] d = Some c0 ->
    nz (concat paths) = [] \/ (qsum (repeat 1%Q 6) (nz (concat paths)) <= capacity c0)%Q.
Proof.
  intros c dist.
  assert (E : initial 5 1 2 [true; false; true; true; false; true] (repeat 1%Q 6) 100%Q
                LINEAR [c] [c] dist
              = Some ([[[0; 2; 3; 0]; [0; 0]]], [[0; 1; 0]; [0; 4; 5; 0]])%nat)
    by (vm_compute; reflexivity).
  split; [exact E|].
  exact (initial_drone_load_within_capacity _ _ _ _ _ _ _ _ _ _ _ _ E).
Defined.

End LoadProofs.

(* ================================================================= *)
(** ** Proofs: [D2DPathSolution.technician_arrival_timestamps] *)
(* ================================================================= *)

Module TechnicianProofs.
Import D2D D2DTechnicians.

Lemma Qle_bool_false (a b : Q) : Qle_bool a b = false -> (b < a)%Q.
Proof.
  intros H. apply Qnot_le_lt. intros H'. apply Qle_bool_iff in H'. congruence.
Qed.

Lemma window_min_cases (a b : Q) : (py_min a b = a /\ a <= b \/ py_min a b = b /\ b < a)%Q.
Proof.
  unfold py_min. destruct (Qle_bool a b) eqn:E.
  - left. split; [reflexivity|apply Qle_bool_iff, E].
  - right. split; [reflexivity|apply Qle_bool_false, E].
Qed.

(** A step that does not cross the end of the window drives the whole
    remaining distance. *)
Lemma drive_step_no_reset (w v d c : Q) :
  py_div d v = Some c ->
  Qle_bool 3600 (w + py_min (3600 - w) c) = false ->
  Qle_bool (d - py_min (3600 - w) c * v) 0 = true.
Proof.
  unfold py_div. destruct (Qeq_bool v 0) eqn:Ev; [discriminate|].
  intros Hc. injection Hc as <-. intros Hw.
  apply Qle_bool_false in Hw.
  destruct (window_min_cases (3600 - w) (d / v)) as [[Hm _]|[Hm _]]; rewrite Hm in *.
  - exfalso. assert (E : (w + (3600 - w) == 3600)%Q) by ring.
    rewrite E in Hw. exact (Qlt_irrefl _ Hw).
  - apply Qle_bool_iff.
    assert (Hv : ~ (v == 0)%Q) by (intros H; apply Qeq_bool_iff in H; congruence).
    assert (E : (d - d / v * v == 0)%Q) by (field; exact Hv).
    rewrite E. apply Qle_refl.
Qed.

Lemma drive_fuel_le (fuel n : nat) (vs : list Q) (w v d t : Q) :
  (S (S (length vs)) <= fuel)%nat -> (S (S (length vs)) <= n)%nat ->
  drive fuel vs w v d t = drive n vs w v d t.
Proof.
  revert n vs w v d t. induction fuel as [|fuel IH]; intros n vs w v d t Hf Hn; [lia|].
  destruct n as [|n]; [lia|]. simpl.
  destruct (Qle_bool d 0); [reflexivity|].
  destruct (py_div d v) as [c|] eqn:Ec; [|reflexivity]. simpl.
  destruct (Qle_bool 3600 (w + py_min (3600 - w) c)) eqn:Ew.
  - destruct vs as [|v1 vs1]; [reflexivity|]. simpl in Hf, Hn.
    apply IH; lia.
  - pose proof (drive_step_no_reset w v d c Ec Ew) as Hd.
    destruct fuel as [|fuel]; [lia|]. destruct n as [|n]; [lia|]. simpl.
    rewrite Hd. reflexivity.
Qed.

Lemma drive_length (fuel : nat) (vs : list Q) (w v d t : Q) vs1 w1 v1 t1 :
  drive fuel vs w v d t = Some (vs1, w1, v1, t1) -> (length vs1 <= length vs)%nat.
Proof.
  revert vs w v d t. induction fuel as [|fuel IH]; intros vs w v d t H; [discriminate|].
  simpl in H. destruct (Qle_bool d 0); [injection H as <- <- <- <-; lia|].
  destruct (py_div d v) as [c|]; [|discriminate]. simpl in H.
  destruct (Qle_bool 3600 _).
  - destruct vs as [|x vs]; [discriminate|]. apply IH in H. simpl. lia.
  - exact (IH _ _ _ _ _ H).
Qed.

(** With positive velocities and a window position in [0, 3600), the
    loop keeps both, and never moves the timestamp back. *)
Lemma drive_ok (fuel : nat) (vs : list Q) (w v d t : Q) vs1 w1 v1 t1 :
  Forall (fun x => 0 < x)%Q vs -> (0 < v)%Q -> (0 <= w < 3600)%Q ->
  drive fuel vs w v d t = Some (vs1, w1, v1, t1) ->
  Forall (fun x => 0 < x)%Q vs1 /\ (0 < v1)%Q /\ (0 <= w1 < 3600)%Q /\ (t <= t1)%Q.
Proof.
  revert vs w v d t. induction fuel as [|fuel IH]; intros vs w v d t Hvs Hv Hw H;
    [discriminate|].
  simpl in H. destruct (Qle_bool d 0) eqn:Ed.
  { injection H as <- <- <- <-. split; [exact Hvs|]. split; [exact Hv|].
    split; [exact Hw|apply Qle_refl]. }
  apply Qle_bool_false in Ed.
  unfold py_div in H. destruct (Qeq_bool v 0); [discriminate|]. simpl in H.
  assert (Hts : (0 < py_min (3600 - w) (d / v))%Q).
  { destruct (window_min_cases (3600 - w) (d / v)) as [[-> _]|[-> _]].
    - destruct Hw as [_ Hw]. apply (Qplus_lt_r _ _ w). ring_simplify. exact Hw.
    - apply Qlt_shift_div_l; [exact Hv|]. ring_simplify. exact Ed. }
  set (ts := py_min (3600 - w) (d / v)) in *.
  assert (Ht : (t <= t + ts)%Q).
  { rewrite <- (Qplus_0_r t) at 1. apply Qplus_le_r, Qlt_le_weak, Hts. }
  destruct (Qle_bool 3600 (w + ts)) eqn:Ew.
  - destruct vs as [|x vs]; [discriminate|]. apply Forall_cons in Hvs as [Hx Hvs].
    assert (H0 : (0 <= 0 < 3600)%Q) by (split; [apply Qle_refl|vm_compute; reflexivity]).
    destruct (IH _ _ _ _ _ Hvs Hx H0 H)
      as (H1 & H2 & H3 & H4).
    split; [exact H1|]. split; [exact H2|]. split; [exact H3|].
    exact (Qle_trans _ _ _ Ht H4).
  - apply Qle_bool_false in Ew.
    assert (Hw1 : (0 <= w + ts < 3600)%Q).
    { split; [|exact Ew]. apply (Qle_trans _ (w + 0)); [rewrite Qplus_0_r; apply Hw|].
      apply Qplus_le_r, Qlt_le_weak, Hts. }
    destruct (IH _ _ _ _ _ Hvs Hv Hw1 H) as (H1 & H2 & H3 & H4).
    split; [exact H1|]. split; [exact H2|]. split; [exact H3|].
    exact (Qle_trans _ _ _ Ht H4).
Qed.

Section Paths.

Variable distance : nat -> nat -> Q.
Variable technician_service_time : list Q.

Lemma path_arrivals_length (vs : list Q) (w v t : Q) (last : option nat) (path : list nat)
    arrival vs2 :
  path_arrivals distance technician_service_time vs w v t last path = Some (arrival, vs2) ->
  (length vs2 <= length vs)%nat.
Proof.
  revert vs w v t last arrival vs2.
  induction path as [|index path IH]; intros vs w v t last arrival vs2 H.
  - injection H as <- <-. lia.
  - cbn -[drive] in H.
    destruct (match last with
              | Some l => drive (S (S (length vs))) vs w v (distance l index) t
              | None => Some (vs, w, v, t) end) as [[[[vs1 w1] v1] t1]|] eqn:Er;
      [|simpl in H; discriminate].
    simpl in H. destruct (technician_service_time !! index) as [s|]; [|discriminate].
    simpl in H.
    destruct (path_arrivals _ _ vs1 w1 v1 _ _ path) as [[a vs3]|] eqn:Ep; [|discriminate].
    simpl in H. injection H as <- <-. apply IH in Ep.
    assert (length vs1 <= length vs)%nat; [|lia].
    destruct last as [l|]; [exact (drive_length _ _ _ _ _ _ _ _ _ _ Er)|].
    injection Er as <- _ _ _. lia.
Qed.

(** With positive velocities and non-negative service times, the
    arrivals of one path are non-decreasing and the first one is the
    starting timestamp. *)
Lemma leg_arrivals_ok (vs : list Q) (w v t : Q) (last : option nat) (path : list nat)
    arrival vs2 :
  Forall (fun s => 0 <= s)%Q technician_service_time ->
  Forall (fun x => 0 < x)%Q vs -> (0 < v)%Q -> (0 <= w < 3600)%Q ->
  path_arrivals distance technician_service_time vs w v t last path = Some (arrival, vs2) ->
  Forall (fun x => 0 < x)%Q vs2 /\
  length arrival = length path /\ StronglySorted Qle arrival /\
  Forall (fun a => t <= a)%Q arrival /\
  (last = None -> path <> [] -> head arrival = Some t).
Proof.
  intros Hserv. revert vs w v t last arrival vs2.
  induction path as [|index path IH]; intros vs w v t last arrival vs2 Hvs Hv Hw H.
  - injection H as <- <-. split; [exact Hvs|]. split; [reflexivity|]. split; [constructor|].
    split; [constructor|]. intros _ Hp. congruence.
  - cbn -[drive] in H.
    destruct (match last with
              | Some l => drive (S (S (length vs))) vs w v (distance l index) t
              | None => Some (vs, w, v, t) end) as [[[[vs1 w1] v1] t1]|] eqn:Er;
      [|simpl in H; discriminate].
    assert (Hr : Forall (fun x => 0 < x)%Q vs1 /\ (0 < v1)%Q /\ (0 <= w1 < 3600)%Q /\
                 (t <= t1)%Q /\ (last = None -> t1 = t)).
    { destruct last as [l|].
      - destruct (drive_ok _ _ _ _ _ _ _ _ _ _ Hvs Hv Hw Er) as (H1 & H2 & H3 & H4).
        split; [exact H1|]. split; [exact H2|]. split; [exact H3|]. split; [exact H4|].
        discriminate.
      - injection Er as <- <- <- <-. split; [exact Hvs|]. split; [exact Hv|].
        split; [exact Hw|]. split; [apply Qle_refl|reflexivity]. }
    destruct Hr as (Hvs1 & Hv1 & Hw1 & Ht1 & Hfirst).
    simpl in H. destruct (technician_service_time !! index) as [s|] eqn:Es; [|discriminate].
    simpl in H.
    destruct (path_arrivals _ _ vs1 w1 v1 _ _ path) as [[a vs3]|] eqn:Ep; [|discriminate].
    simpl in H. injection H as <- <-.
    assert (Hs : (0 <= s)%Q).
    { apply list_elem_of_lookup_2 in Es. rewrite List.Forall_forall in Hserv.
      apply Hserv. apply list_elem_of_In, Es. }
    destruct (IH _ _ _ _ _ _ _ Hvs1 Hv1 Hw1 Ep) as (V & L & S & F & _).
    split; [exact V|]. split; [simpl; rewrite L; reflexivity|]. split.
    + constructor; [exact S|]. apply List.Forall_impl with (2 := F).
      intros a' Ha'. apply (Qle_trans _ (t1 + s)); [|exact Ha'].
      rewrite <- (Qplus_0_r t1) at 1. apply Qplus_le_r, Hs.
    + split.
      * constructor; [exact Ht1|]. apply List.Forall_impl with (2 := F).
        intros a' Ha'. apply (Qle_trans _ t1); [exact Ht1|].
        apply (Qle_trans _ (t1 + s)); [|exact Ha'].
        rewrite <- (Qplus_0_r t1) at 1. apply Qplus_le_r, Hs.
      * intros Hl _. simpl. rewrite (Hfirst Hl). reflexivity.
Qed.

Lemma arrivals_from_short (vs : list Q) (technician_paths : list (list nat)) :
  (length vs < length technician_paths)%nat ->
  arrivals_from distance technician_service_time vs technician_paths = None.
Proof.
  revert vs. induction technician_paths as [|path paths IH]; intros vs Hlen;
    [simpl in Hlen; lia|].
  destruct vs as [|v vs]; [reflexivity|]. simpl.
  destruct (path_arrivals _ _ vs 0 v 0 None path) as [[arrival vs1]|] eqn:E; [|reflexivity].
  simpl. apply path_arrivals_length in E. simpl in Hlen.
  rewrite IH by lia. reflexivity.
Qed.

Lemma arrivals_from_ok (vs : list Q) (technician_paths : list (list nat)) ts :
  Forall (fun s => 0 <= s)%Q technician_service_time ->
  Forall (fun x => 0 < x)%Q vs ->
  arrivals_from distance technician_service_time vs technician_paths = Some ts ->
  Forall2 (fun path arrival => length arrival = length path) technician_paths ts /\
  Forall (fun arrival => StronglySorted Qle arrival /\
            (arrival = [] \/ head arrival = Some 0%Q)) ts.
Proof.
  intros Hserv. revert vs ts.
  induction technician_paths as [|path paths IH]; intros vs ts Hvs H.
  - injection H as <-. split; constructor.
  - destruct vs as [|v vs]; [discriminate|]. simpl in H.
    apply Forall_cons in Hvs as [Hv Hvs].
    destruct (path_arrivals _ _ vs 0 v 0 None path) as [[arrival vs1]|] eqn:E;
      [|discriminate].
    simpl in H.
    destruct (arrivals_from _ _ vs1 paths) as [rest|] eqn:Er; [|discriminate].
    simpl in H. injection H as <-.
    assert (H0 : (0 <= 0 < 3600)%Q) by (split; [apply Qle_refl|vm_compute; reflexivity]).
    destruct (leg_arrivals_ok _ _ _ _ _ _ _ _ Hserv Hvs Hv H0 E) as (Hvs1 & L & S & _ & Hd).
    destruct (IH _ _ Hvs1 Er) as [F2 F].
    split; [constructor; [exact L|exact F2]|].
    constructor; [|exact F]. split; [exact S|].
    destruct path as [|p path]; [left; simpl in L; destruct arrival; [reflexivity|discriminate]|].
    right. apply Hd; [reflexivity|discriminate].
Qed.

End Paths.

(** In exact arithmetic the [while distance > 0] loop of a leg makes at
    most [len(remaining velocities) + 1] passes: a pass that does not
    reach the end of the one-hour window drives the whole remaining
    distance, and every other pass draws the next velocity.  Any larger
    bound on the passes gives the same result as [S (S (length vs))]. *)
Theorem drive_passes_bounded (fuel : nat) (vs : list Q) (w v d t : Q) :
  (S (S (length vs)) <= fuel)%nat ->
  drive fuel vs w v d t = drive (S (S (length vs))) vs w v d t.
Proof. intros H. apply drive_fuel_le; lia. Qed.

(** A leg of 40000 at velocity 10 crosses the end of the window once. *)
Lemma drive_passes_bounded_witness :
  (S (S (length [5; 10]%Q)) <= 10)%nat /\
  drive 10 [5; 10]%Q 0 10 40000 0 = drive (S (S (length [5; 10]%Q))) [5; 10]%Q 0 10 40000 0.
Proof.
  split; [simpl; lia|]. apply (drive_passes_bounded 10 [5; 10]%Q 0 10 40000 0). simpl. lia.
Defined.

(** All technician paths draw their velocities from the one iterator
    [maximum_velocity_iter], and each path starts with [next()] on it:
    with more technician paths than [coefficients],
    [technician_arrival_timestamps] fails ([StopIteration]), whatever the
    paths. *)
Theorem technician_arrivals_shared_velocity_iterator (distance : nat -> nat -> Q)
    (technician_service_time : list Q) (config : TruckConfig)
    (technician_paths : list (list nat)) :
  (length (coefficients config) < length technician_paths)%nat ->
  technician_arrival_timestamps distance technician_service_time config technician_paths
  = None.
Proof.
  intros H. unfold technician_arrival_timestamps. apply arrivals_from_short.
  rewrite length_map. exact H.
Qed.

(** Two technicians staying at the depot, with one velocity coefficient. *)
Lemma technician_arrivals_shared_velocity_iterator_witness :
  (length (coefficients (mkTruckConfig 10 [1%Q])) < length [[0]; [0]]%nat)%nat /\
  technician_arrival_timestamps (fun _ _ => 0%Q) [0%Q] (mkTruckConfig 10 [1%Q]) [[0]; [0]]%nat
  = None.
Proof.
  split; [simpl; lia|].
  apply (technician_arrivals_shared_velocity_iterator (fun _ _ => 0%Q) [0%Q]
           (mkTruckConfig 10 [1%Q]) [[0]; [0]]%nat).
  simpl. lia.
Defined.

(** With a positive maximum velocity, positive coefficients and
    non-negative service times, [technician_arrival_timestamps], when it
    returns, gives one timestamp per index of each technician path, and
    the timestamps of each path never decrease and start at 0.  No
    assumption on the distances is needed: a leg of non-positive length
    takes no time. *)
Theorem technician_arrivals_nondecreasing (distance : nat -> nat -> Q)
    (technician_service_time : list Q) (config : TruckConfig)
    (technician_paths : list (list nat)) (ts : list (list Q)) :
  (0 < maximum_velocity config)%Q ->
  Forall (fun e => 0 < e)%Q (coefficients config) ->
  Forall (fun s => 0 <= s)%Q technician_service_time ->
  technician_arrival_timestamps distance technician_service_time config technician_paths
  = Some ts ->
  Forall2 (fun path arrival => length arrival = length path) technician_paths ts /\
  Forall (fun arrival => StronglySorted Qle arrival /\
            (arrival = [] \/ head arrival = Some 0%Q)) ts.
Proof.
  intros Hm Hc Hs H. unfold technician_arrival_timestamps in H.
  apply (arrivals_from_ok distance technician_service_time
           (map (fun e => maximum_velocity config * e)%Q (coefficients config))
           technician_paths ts Hs); [|exact H].
  clear H. induction Hc as [|e es He Hes IH]; simpl; constructor;
    [apply Qmult_lt_0_compat; assumption|exact IH].
Qed.

(** Two technicians on the line metric scaled by 20000, the first leg
    crossing the end of the one-hour window. *)
Lemma technician_arrivals_nondecreasing_witness :
  let config := mkTruckConfig 10 [1; 1#2; 1; 1; 1; 1; 1]%Q in
  let dist := fun a b : nat => inject_Z (20000 * Z.abs (Z.of_nat a - Z.of_nat b)) in
  let paths := [[0; 2; 0]; [0; 1; 0]]%nat in
  let ts := default [] (technician_arrival_timestamps dist [0; 300; 600]%Q config paths) in
  technician_arrival_timestamps dist [0; 300; 600]%Q config paths = Some ts /\
  Forall2 (fun path arrival => length arrival = length path) paths ts /\
  Forall (fun arrival => StronglySorted Qle arrival /\
            (arrival = [] \/ head arrival = Some 0%Q)) ts.
Proof.
  intros config dist paths ts.
  assert (H : technician_arrival_timestamps dist [0; 300; 600]%Q config paths = Some ts)
    by (vm_compute; reflexivity).
  split; [exact H|].
  apply (technician_arrivals_nondecreasing dist [0; 300; 600]%Q config paths ts);
    [vm_compute; reflexivity
    |repeat constructor
    |repeat constructor; unfold Qle; simpl; lia
    |exact H].
Defined.

End TechnicianProofs.
